(** * aig-cube: a Cube-and-Conquer SAT solver on And-Inverter Graphs

    Shallow embedding of the Python sources under [aig_cube/] and
    [scripts/solve_external.py], followed by the properties established
    about them.

    Conventions
    - A Python [str] label is a [string]; a Python [int] is a [Z].
    - A Python [dict] whose iteration order is observable is an
      insertion-ordered association list ([odict]); a [dict] that is only
      looked up is a [gmap].
    - A Python call either returns, raises, or loops: [res]. *)

From Stdlib Require Import ZArith List Permutation Lia.
From stdpp Require Import base option list gmap strings sets pretty.
Import ListNotations.

Open Scope Z_scope.

(* ================================================================== *)
(** * Python preliminaries                                             *)
(* ================================================================== *)

Abbreviation Label := string.

(** The exceptions raised by the modelled code. [CircuitError] stands for
    the validation errors of the circuit container. *)
Inductive exn : Type :=
| ValueError | KeyError | IndexError | TypeError
| RuntimeError | AssertionError | CircuitError.

(** Outcome of a call: a value, an exception, or no answer within the
    step budget of a loop (the source keeps looping). *)
Inductive res (A : Type) : Type :=
| Ok (a : A)
| Raise (e : exn)
| Diverge.
Arguments Ok {A} a.
Arguments Raise {A} e.
Arguments Diverge {A}.

#[global] Instance res_ret : MRet res := fun A a => Ok a.
#[global] Instance res_bind : MBind res := fun A B f m =>
  match m with
  | Ok a => f a
  | Raise e => Raise e
  | Diverge => Diverge
  end.

(** ** Insertion-ordered dictionaries

    [d[k] = v] overwrites in place when [k] is present and appends
    otherwise, so iteration follows first insertion. *)
Abbreviation odict V := (list (Label * V)).

Section OrderedDict.
Context {V : Type}.

Fixpoint od_get (d : odict V) (k : Label) : option V :=
  match d with
  | [] => None
  | (k', v) :: d' => if decide (k' = k) then Some v else od_get d' k
  end.

Fixpoint od_set (d : odict V) (k : Label) (v : V) : odict V :=
  match d with
  | [] => [(k, v)]
  | (k', v') :: d' =>
      if decide (k' = k) then (k, v) :: d' else (k', v') :: od_set d' k v
  end.

Definition od_mem (d : odict V) (k : Label) : bool :=
  match od_get d k with Some _ => true | None => false end.

Definition od_keys (d : odict V) : list Label := map fst d.
Definition od_values (d : odict V) : list V := map snd d.

End OrderedDict.

(* ================================================================== *)
(** * The AIG circuit container                                        *)
(* ================================================================== *)

(** Modelled from the spec: the gate types of the circuit library, which
    is not part of the sources.  The spec names INPUT, AND, NOT,
    ALWAYS_TRUE and ALWAYS_FALSE; IFF is the pass-through gate that the
    AIGER reader of this repository emits for named outputs; OR, NAND and
    XOR stand for the binary gates outside the AIG fragment. *)
Inductive GateType : Type :=
| INPUT | AND | NOT | ALWAYS_TRUE | ALWAYS_FALSE | IFF | OR | NAND | XOR.

#[global] Instance GateType_eq_dec : EqDecision GateType.
Proof. solve_decision. Defined.

(** Modelled from the spec: a gate is an immutable record of a label, a
    type and an ordered operand tuple. *)
Record Gate : Type := mkGate {
  label : Label;
  gate_type : GateType;
  operands : list Label
}.

#[global] Instance Gate_eq_dec : EqDecision Gate.
Proof. solve_decision. Defined.

(** Modelled from the spec: arity constraint per type (INPUT and the
    constants have no operand, NOT one, AND exactly two). *)
Definition arity (t : GateType) : nat :=
  match t with
  | INPUT | ALWAYS_TRUE | ALWAYS_FALSE => 0
  | NOT | IFF => 1
  | AND | OR | NAND | XOR => 2
  end%nat.

(** Modelled from the spec: the semantic operator of a gate type,
    NOT(x) = ¬x and AND(a,b) = a∧b; a call with the wrong number of
    arguments is a [TypeError]. *)
Definition operator (t : GateType) (args : list bool) : res bool :=
  match t, args with
  | ALWAYS_TRUE, [] => Ok true
  | ALWAYS_FALSE, [] => Ok false
  | NOT, [a] => Ok (negb a)
  | IFF, [a] => Ok a
  | AND, [a; b] => Ok (a && b)
  | OR, [a; b] => Ok (a || b)
  | NAND, [a; b] => Ok (negb (a && b))
  | XOR, [a; b] => Ok (xorb a b)
  | _, _ => Raise TypeError
  end.

(** Modelled from the spec: the four tables of a circuit. *)
Record Circuit : Type := mkCircuit {
  gates : odict Gate;
  inputs : list Label;
  outputs : list Label;
  users : gmap Label (list Label)
}.

Definition empty_circuit : Circuit :=
  {| gates := []; inputs := []; outputs := []; users := ∅ |}.

(** Modelled from the spec: the sizes are the numbers of gates, inputs
    and outputs; [get_gate] fails on an unknown label; [get_gate_users]
    reads the reverse index. *)
Definition size (c : Circuit) : Z := Z.of_nat (length (gates c)).
Definition input_size (c : Circuit) : Z := Z.of_nat (length (inputs c)).
Definition output_size (c : Circuit) : Z := Z.of_nat (length (outputs c)).

Definition get_gate (c : Circuit) (l : Label) : res Gate :=
  match od_get (gates c) l with
  | Some g => Ok g
  | None => Raise CircuitError
  end.

Definition get_gate_users (c : Circuit) (l : Label) : list Label :=
  default [] (users c !! l).

(** Modelled from the spec: a new edge appends the user to the reverse
    index of the operand. *)
Definition add_user (u : gmap Label (list Label)) (op user : Label)
  : gmap Label (list Label) :=
  <[op := default [] (u !! op) ++ [user]]> u.

(** [list.remove]: drop the first occurrence. *)
Fixpoint list_remove_first (x : Label) (l : list Label) : list Label :=
  match l with
  | [] => []
  | y :: l' => if decide (y = x) then l' else y :: list_remove_first x l'
  end.

(** Modelled from the spec: [remove_user(label, user)] maintains the
    reverse index when an edge is severed. *)
Definition _remove_user (c : Circuit) (gate_label user : Label) : Circuit :=
  {| gates := gates c; inputs := inputs c; outputs := outputs c;
     users := <[gate_label := list_remove_first user (get_gate_users c gate_label)]>
                (users c) |}.

(** [circuit._gates[label] = new_gate] *)
Definition set_gate (c : Circuit) (l : Label) (g : Gate) : Circuit :=
  {| gates := od_set (gates c) l g; inputs := inputs c;
     outputs := outputs c; users := users c |}.

(** Modelled from the spec: [emplace_gate] fails if the label already
    exists, if an operand is undefined, or if the arity is wrong for the
    type; otherwise it inserts the gate, records it as a user of each
    operand and, for an INPUT, appends it to the inputs. *)
Definition emplace_gate (c : Circuit) (l : Label) (t : GateType)
    (ops : list Label) : res Circuit :=
  if od_mem (gates c) l then Raise CircuitError
  else if negb (forallb (od_mem (gates c)) ops) then Raise CircuitError
  else if negb (Nat.eqb (length ops) (arity t)) then Raise CircuitError
  else Ok {| gates := gates c ++ [(l, mkGate l t ops)];
             inputs := if decide (t = INPUT) then inputs c ++ [l] else inputs c;
             outputs := outputs c;
             users := fold_left (fun u op => add_user u op l) ops (users c) |}.

(** Modelled from the spec: [set_outputs] designates the observable
    outputs; each label must exist.  [set_inputs] has the same shape. *)
Definition set_outputs (c : Circuit) (ls : list Label) : res Circuit :=
  if forallb (od_mem (gates c)) ls
  then Ok {| gates := gates c; inputs := inputs c; outputs := ls; users := users c |}
  else Raise CircuitError.

Definition set_inputs (c : Circuit) (ls : list Label) : res Circuit :=
  if forallb (od_mem (gates c)) ls
  then Ok {| gates := gates c; inputs := ls; outputs := outputs c; users := users c |}
  else Raise CircuitError.

Definition label_in (ls : list Label) (l : Label) : bool :=
  bool_decide (l ∈ ls).

(** Modelled from the spec: [replace_inputs] replaces the named INPUT
    gates with ALWAYS_TRUE / ALWAYS_FALSE constants, removes those labels
    from [inputs] and preserves the user edges. *)
Definition replace_inputs (c : Circuit) (inputs_to_true inputs_to_false : list Label)
  : Circuit :=
  let c1 := fold_left (fun c l => set_gate c l (mkGate l ALWAYS_TRUE [])) inputs_to_true c in
  let c2 := fold_left (fun c l => set_gate c l (mkGate l ALWAYS_FALSE [])) inputs_to_false c1 in
  {| gates := gates c2;
     inputs := filter (fun l => ¬ (l ∈ inputs_to_true ++ inputs_to_false)) (inputs c);
     outputs := outputs c2; users := users c2 |}.

(* ================================================================== *)
(** * cnf.py                                                           *)
(* ================================================================== *)

Abbreviation Lit := Z.
Abbreviation Clause := (list Lit).
Abbreviation CnfRaw := (list Clause).
Abbreviation VarMap := (gmap Label Lit).

Record Cnf : Type := mkCnf {
  _cnf : CnfRaw;
  _var_map : VarMap
}.

Definition add_clause (f : Cnf) (clause : Clause) : Cnf :=
  {| _cnf := _cnf f ++ [clause]; _var_map := _var_map f |}.

Definition get_raw (f : Cnf) : CnfRaw := _cnf f.

Definition get_var (f : Cnf) (l : Label) : option Lit := _var_map f !! l.

(** The mutable locals of [tseytin_transformation]: the counter behind
    [_new_lit], the [defaultdict] [saved_lits] and the clause list. *)
Record TseytinState : Type := mkTs {
  next_lit : Z;
  saved_lits : gmap Label Lit;
  ts_cnf : CnfRaw
}.

(** [saved_lits[l]] on a [defaultdict(_new_lit)]: a missing key is
    given the next literal. *)
Definition saved_item (l : Label) (s : TseytinState) : Lit * TseytinState :=
  match saved_lits s !! l with
  | Some v => (v, s)
  | None =>
      let n := next_lit s + 1 in
      (n, {| next_lit := n; saved_lits := <[l := n]> (saved_lits s);
             ts_cnf := ts_cnf s |})
  end.

(** [[saved_lits[op] for op in ops]] *)
Fixpoint saved_items (ops : list Label) (s : TseytinState)
  : list Lit * TseytinState :=
  match ops with
  | [] => ([], s)
  | op :: ops' =>
      let '(v, s1) := saved_item op s in
      let '(vs, s2) := saved_items ops' s1 in
      (v :: vs, s2)
  end.

Definition is_saved (l : Label) (s : TseytinState) : bool :=
  bool_decide (is_Some (saved_lits s !! l)).

(** [cnf.append(clause)] *)
Definition emit (clause : Clause) (s : TseytinState) : TseytinState :=
  {| next_lit := next_lit s; saved_lits := saved_lits s;
     ts_cnf := ts_cnf s ++ [clause] |}.

(** The clauses appended for one gate, by gate type. *)
Definition encode_gate (g : Gate) (lits : list Lit) (top : Lit)
    (s : TseytinState) : res TseytinState :=
  match gate_type g with
  | INPUT => Ok s
  | ALWAYS_TRUE => Ok (emit [top] s)
  | ALWAYS_FALSE => Ok (emit [- top] s)
  | NOT =>
      match lits with
      | [] => Raise IndexError
      | l0 :: _ => Ok (emit [- l0; - top] (emit [l0; top] s))
      end
  | AND =>
      let '(common, s') :=
        fold_left (fun '(common, s) lit => (common ++ [- lit], emit [lit; - top] s))
                  lits ([top], s) in
      Ok (emit common s')
  | _ => Raise ValueError
  end.

(** The explicit stack is a Python list used from its end; here its top
    is the head of the list. *)
Abbreviation Stack := (list (Label * bool)).

(** [stack.append((label, True))] followed by the loop over
    [reversed(gate.operands)]. *)
Definition push_operands (g : Gate) (l : Label) (rest : Stack)
    (s : TseytinState) : Stack :=
  fold_left (fun st op => if is_saved op s then st else (op, false) :: st)
            (rev (operands g)) ((l, true) :: rest).

(** One iteration of the [while stack] loop after the pop. *)
Definition process_step (c : Circuit) (l : Label) (expanded : bool)
    (rest : Stack) (s : TseytinState) : res (Stack * TseytinState) :=
  if is_saved l s then Ok (rest, s)
  else if negb expanded then
    g ← get_gate c l;
    Ok (push_operands g l rest s, s)
  else
    g ← get_gate c l;
    let '(lits, s1) := saved_items (operands g) s in
    let '(top, s2) := saved_item l s1 in
    s3 ← encode_gate g lits top s2;
    Ok (rest, s3).

(** The [while stack] loop, with a step budget. *)
Fixpoint process_loop (fuel : nat) (c : Circuit) (stack : Stack)
    (s : TseytinState) : res TseytinState :=
  match stack with
  | [] => Ok s
  | (l, expanded) :: rest =>
      match fuel with
      | O => Diverge
      | S fuel' =>
          match process_step c l expanded rest s with
          | Ok (stack', s') => process_loop fuel' c stack' s'
          | Raise e => Raise e
          | Diverge => Diverge
          end
      end
  end.

Definition _process_all (fuel : nat) (c : Circuit) (root : Label)
    (s : TseytinState) : res (Lit * TseytinState) :=
  s' ← process_loop fuel c [(root, false)] s;
  Ok (saved_item root s').

(** [for i in range(circuit.output_size)] over [output_at_index(i)]. *)
Fixpoint encode_outputs (fuel : nat) (c : Circuit) (outs : list Label)
    (s : TseytinState) : res TseytinState :=
  match outs with
  | [] => Ok s
  | r :: outs' =>
      '(out_lit, s1) ← _process_all fuel c r s;
      encode_outputs fuel c outs' (emit [out_lit] s1)
  end.

(** Steps that one traversal can take on an acyclic circuit: every gate
    is expanded and encoded once, and every operand edge is popped once. *)
Definition tseytin_budget (c : Circuit) : nat :=
  S (list_sum (map (fun kg => S (length (operands (snd kg)))) (gates c))).

Definition tseytin_init (c : Circuit) : TseytinState :=
  fold_left (fun s l => snd (saved_item l s)) (inputs c)
            {| next_lit := 0; saved_lits := ∅; ts_cnf := [] |}.

Definition tseytin_transformation (c : Circuit) : res Cnf :=
  s ← encode_outputs (tseytin_budget c) c (outputs c) (tseytin_init c);
  Ok {| _cnf := ts_cnf s; _var_map := saved_lits s |}.

(* ================================================================== *)
(** * remove_constant_gates.py                                         *)
(* ================================================================== *)

(** The locals of [RemoveConstantGates._transform]. *)
Record RcgState : Type := mkRcg {
  new_circuit : Circuit;
  const_map : gmap Label bool;
  label_remap : gmap Label Label
}.

Definition resolve_label (remap : gmap Label Label) (lbl : Label) : Label :=
  default lbl (remap !! lbl).

Definition in_const_map (cm : gmap Label bool) (l : Label) : bool :=
  bool_decide (is_Some (cm !! l)).

(** [[i for i, op in enumerate(ops) if op in const_map]] *)
Fixpoint const_indices_from (i : nat) (cm : gmap Label bool) (ops : list Label)
  : list nat :=
  match ops with
  | [] => []
  | op :: ops' =>
      if in_const_map cm op then i :: const_indices_from (S i) cm ops'
      else const_indices_from (S i) cm ops'
  end.

(** [const_map[op]], a [KeyError] when absent. *)
Definition const_lookup (cm : gmap Label bool) (op : Label) : res bool :=
  match cm !! op with Some b => Ok b | None => Raise KeyError end.

(** [ops[i]], an [IndexError] when out of range. *)
Definition op_at (ops : list Label) (i : nat) : res Label :=
  match nth_error ops i with Some op => Ok op | None => Raise IndexError end.

(** The two-slot argument vector with [const_val] at [const_idx] and
    [other] at the remaining slot. *)
Definition args_with (const_idx : nat) (const_val other : bool) : list bool :=
  match const_idx with
  | O => [const_val; other]
  | _ => [other; const_val]
  end.

Definition set_new_circuit (st : RcgState) (c : Circuit) : RcgState :=
  {| new_circuit := c; const_map := const_map st; label_remap := label_remap st |}.

Definition set_const (st : RcgState) (l : Label) (b : bool) : RcgState :=
  {| new_circuit := new_circuit st; const_map := <[l := b]> (const_map st);
     label_remap := label_remap st |}.

Definition set_remap (st : RcgState) (l target : Label) : RcgState :=
  {| new_circuit := new_circuit st; const_map := const_map st;
     label_remap := <[l := target]> (label_remap st) |}.

(** Body of the loop over [circuit.top_sort(inverse=True)]. *)
Definition transform_gate (g : Gate) (st : RcgState) : res RcgState :=
  let resolved_operands := map (resolve_label (label_remap st)) (operands g) in
  match gate_type g with
  | INPUT =>
      nc ← emplace_gate (new_circuit st) (label g) (gate_type g) (operands g);
      Ok (set_new_circuit st nc)
  | ALWAYS_TRUE => Ok (set_const st (label g) true)
  | ALWAYS_FALSE => Ok (set_const st (label g) false)
  | _ =>
      let const_indices := const_indices_from 0 (const_map st) resolved_operands in
      match const_indices with
      | [] =>
          nc ← emplace_gate (new_circuit st) (label g) (gate_type g) resolved_operands;
          Ok (set_new_circuit st nc)
      | const_idx :: _ =>
          if Nat.eqb (length const_indices) 1
             && Nat.eqb (length resolved_operands) 2 then
            c_op ← op_at resolved_operands const_idx;
            const_val ← const_lookup (const_map st) c_op;
            let non_const_idx := (1 - const_idx)%nat in
            non_const_op ← op_at resolved_operands non_const_idx;
            val0 ← operator (gate_type g) (args_with const_idx const_val false);
            val1 ← operator (gate_type g) (args_with const_idx const_val true);
            if bool_decide (val0 = val1) then Ok (set_const st (label g) val0)
            else if negb val0 && val1 then Ok (set_remap st (label g) non_const_op)
            else if val0 && negb val1 then
              match od_get (gates (new_circuit st)) non_const_op with
              | Some operand_gate =>
                  if decide (gate_type operand_gate = NOT) then
                    target ← op_at (operands operand_gate) 0;
                    Ok (set_remap st (label g) target)
                  else
                    nc ← emplace_gate (new_circuit st) (label g) NOT [non_const_op];
                    Ok (set_new_circuit st nc)
              | None =>
                  nc ← emplace_gate (new_circuit st) (label g) NOT [non_const_op];
                  Ok (set_new_circuit st nc)
              end
            else Raise RuntimeError
          else if Nat.eqb (length const_indices) (length resolved_operands) then
            args ← mapM (M := res) (const_lookup (const_map st)) resolved_operands;
            val ← operator (gate_type g) args;
            Ok (set_const st (label g) val)
          else Raise RuntimeError
      end
  end.

Fixpoint transform_loop (order : list Gate) (st : RcgState) : res RcgState :=
  match order with
  | [] => Ok st
  | g :: order' => st' ← transform_gate g st; transform_loop order' st'
  end.

(** The arity screen that opens [_transform]. *)
Definition check_arities (c : Circuit) : res unit :=
  if forallb (fun g => Nat.leb (length (operands g)) 2) (od_values (gates c))
  then Ok tt else Raise ValueError.

(** [_transform], given the sequence that [circuit.top_sort(inverse=True)]
    yields. *)
Definition transform_with (order : list Gate) (c : Circuit) : res Circuit :=
  st ← transform_loop order (mkRcg empty_circuit ∅ ∅);
  let final_inputs :=
    filter (fun l => in_const_map (const_map st) l = false) (inputs c) in
  nc1 ← set_inputs (new_circuit st) final_inputs;
  let final_outputs :=
    filter (fun l => in_const_map (const_map st) l = false)
           (map (resolve_label (label_remap st)) (outputs c)) in
  set_outputs nc1 final_outputs.

(** Modelled from the spec: what [top_sort(inverse=true)] must yield, the
    gates of the circuit, each once, every operand before its users. *)
Fixpoint operands_first (c : Circuit) (seen : list Label) (order : list Gate) : bool :=
  match order with
  | [] => true
  | g :: order' =>
      forallb (fun op => negb (od_mem (gates c) op) || label_in seen op) (operands g)
      && operands_first c (label g :: seen) order'
  end.

Definition is_top_sort (c : Circuit) (order : list Gate) : Prop :=
  Permutation order (od_values (gates c)) ∧ operands_first c [] order = true.

(** A reference order for circuits grown by [emplace_gate], where every
    operand is inserted before its users: insertion order. *)
Definition top_sort_insertion (c : Circuit) : res (list Gate) :=
  Ok (od_values (gates c)).

(* ================================================================== *)
(** * circuit_instance.py                                              *)
(* ================================================================== *)

Inductive AssignmentStatus : Type := OK | CONFLICT.

#[global] Instance AssignmentStatus_eq_dec : EqDecision AssignmentStatus.
Proof. solve_decision. Defined.

(** [idx] is what [Cnf.get_var] returned, [None] for a label the encoder
    never reached. *)
Record GateConfig : Type := mkGateConfig {
  gc_label : Label;
  idx : option Lit;
  is_input : bool;
  value : option bool
}.

Record CircuitSatInstance : Type := mkInstance {
  circuit : Circuit;
  cnf : Cnf;
  gates_config : odict GateConfig
}.

Definition with_circuit (self : CircuitSatInstance) (c : Circuit) : CircuitSatInstance :=
  {| circuit := c; cnf := cnf self; gates_config := gates_config self |}.

Definition with_clause (self : CircuitSatInstance) (cl : Clause) : CircuitSatInstance :=
  {| circuit := circuit self; cnf := add_clause (cnf self) cl;
     gates_config := gates_config self |}.

Definition with_value (self : CircuitSatInstance) (l : Label) (v : bool)
  : res CircuitSatInstance :=
  match od_get (gates_config self) l with
  | Some gc =>
      Ok {| circuit := circuit self; cnf := cnf self;
            gates_config := od_set (gates_config self) l
              {| gc_label := gc_label gc; idx := idx gc;
                 is_input := is_input gc; value := Some v |} |}
  | None => Raise KeyError
  end.

(** [self.gates_config[l]], a [KeyError] when absent. *)
Definition config_entry (self : CircuitSatInstance) (l : Label) : res GateConfig :=
  match od_get (gates_config self) l with
  | Some gc => Ok gc
  | None => Raise KeyError
  end.

(** An [idx] used as an integer.  Arithmetic on a missing variable is a
    [TypeError]: the source raises it when negating, and otherwise stores
    the missing value in a clause that no consumer accepts. *)
Definition int_of (i : option Lit) : res Lit :=
  match i with Some v => Ok v | None => Raise TypeError end.

(** [self.gates_config[l].idx] as an integer. *)
Definition config_idx (self : CircuitSatInstance) (l : Label) : res Lit :=
  gc ← config_entry self l; int_of (idx gc).

Definition check_gate (g : Gate) : res unit :=
  if decide (gate_type g = INPUT) then Ok tt
  else if decide (gate_type g = AND) then
    if negb (Nat.eqb (length (operands g)) 2) then Raise ValueError else Ok tt
  else if decide (gate_type g = NOT) then
    if negb (Nat.eqb (length (operands g)) 1) then Raise ValueError else Ok tt
  else Raise ValueError.

Fixpoint check_gates (gs : list Gate) : res unit :=
  match gs with
  | [] => Ok tt
  | g :: gs' => _ ← check_gate g; check_gates gs'
  end.

Definition _check_circuit (c : Circuit) : res unit :=
  check_gates (od_values (gates c)).

(** The loop of [__init__] that fills [gates_config]. *)
Fixpoint populate_config (c : Circuit) (f : Cnf) (labels : list Label)
    (acc : odict GateConfig) : res (odict GateConfig) :=
  match labels with
  | [] => Ok acc
  | l :: labels' =>
      g ← get_gate c l;
      populate_config c f labels'
        (od_set acc l {| gc_label := l; idx := get_var f l;
                         is_input := bool_decide (gate_type g = INPUT);
                         value := None |})
  end.

(** [CircuitSatInstance.__init__] *)
Definition new_instance (c : Circuit) : res CircuitSatInstance :=
  _ ← _check_circuit c;
  f ← tseytin_transformation c;
  gc ← populate_config c f (od_keys (gates c)) [];
  Ok {| circuit := c; cnf := f; gates_config := gc |}.

Definition is_constant_type (t : GateType) : bool :=
  bool_decide (t = ALWAYS_TRUE ∨ t = ALWAYS_FALSE).

(** [for operand in gate.operands: self.circuit._remove_user(operand, label)] *)
Definition sever_operands (c : Circuit) (g : Gate) (l : Label) : Circuit :=
  fold_left (fun c operand => _remove_user c operand l) (operands g) c.

(** The [for operand_label in gate.operands] loop of the AND=true case;
    [rec] is the recursive call. *)
Fixpoint assign_operands
    (rec : Label → bool → CircuitSatInstance → res (AssignmentStatus * CircuitSatInstance))
    (ops : list Label) (self : CircuitSatInstance)
  : res (AssignmentStatus * CircuitSatInstance) :=
  match ops with
  | [] => Ok (OK, self)
  | operand_label :: ops' =>
      '(status, self') ← rec operand_label true self;
      if decide (status = OK) then assign_operands rec ops' self'
      else Ok (status, self')
  end.

(** [_assign_and_propagate] with a bound on the recursion depth. *)
Fixpoint assign_rec (fuel : nat) (l : Label) (v : bool)
    (self : CircuitSatInstance) : res (AssignmentStatus * CircuitSatInstance) :=
  match fuel with
  | O => Diverge
  | S fuel' =>
      gate ← get_gate (circuit self) l;
      if is_constant_type (gate_type gate) then
        b ← operator (gate_type gate) [];
        if bool_decide (b = v) then Ok (OK, self) else Ok (CONFLICT, self)
      else
        lit ← config_idx self l;
        let self := with_clause self [if v then lit else - lit] in
        if decide (gate_type gate = INPUT) then
          let inputs_to_true := if v then [l] else [] in
          let inputs_to_false := if v then [] else [l] in
          let self := with_circuit self
            (replace_inputs (circuit self) inputs_to_true inputs_to_false) in
          self ← with_value self l v;
          Ok (OK, self)
        else
          let c := sever_operands (circuit self) gate l in
          let new_gate_type := if v then ALWAYS_TRUE else ALWAYS_FALSE in
          let self := with_circuit self (set_gate c l (mkGate l new_gate_type [])) in
          if decide (gate_type gate = NOT) then
            op0 ← op_at (operands gate) 0;
            assign_rec fuel' op0 (negb v) self
          else if decide (gate_type gate = AND) then
            if v then assign_operands (assign_rec fuel') (operands gate) self
            else
              if negb (Nat.eqb (length (operands gate)) 2) then Raise AssertionError
              else
                op0 ← op_at (operands gate) 0;
                gc0 ← config_entry self op0;
                op1 ← op_at (operands gate) 1;
                gc1 ← config_entry self op1;
                lit0 ← int_of (idx gc0);
                lit1 ← int_of (idx gc1);
                Ok (OK, with_clause self [- lit0; - lit1])
          else Raise RuntimeError
  end.

(** Every recursive call follows the replacement of a non-constant gate
    by a constant, so the recursion is at most as deep as the number of
    non-constant gates. *)
Definition nonconst_count (c : Circuit) : nat :=
  length (filter (fun kg => is_constant_type (gate_type (snd kg)) = false) (gates c)).

Definition _assign_and_propagate (l : Label) (v : bool)
    (self : CircuitSatInstance) : res (AssignmentStatus * CircuitSatInstance) :=
  assign_rec (S (nonconst_count (circuit self))) l v self.

Section WithTopSort.

(** The circuit library's [top_sort(inverse=True)], consumed as a list. *)
Variable top_sort : Circuit → res (list Gate).

(** [RemoveConstantGates._transform] *)
Definition _transform (c : Circuit) : res Circuit :=
  _ ← check_arities c;
  order ← top_sort c;
  transform_with order c.

(** [Transformer.apply_transformers(circuit, [RemoveConstantGates()])] *)
Definition simplify (self : CircuitSatInstance) : res CircuitSatInstance :=
  c ← _transform (circuit self);
  Ok (with_circuit self c).

Definition assign (l : Label) (v : bool) (self : CircuitSatInstance)
  : res (AssignmentStatus * CircuitSatInstance) :=
  '(status, self) ← _assign_and_propagate l v self;
  if decide (status = OK) then
    self ← simplify self;
    Ok (OK, self)
  else Ok (status, self).

(** [from_circuit]: [None] when seeding the output conflicts. *)
Definition from_circuit (c : Circuit) : res (option CircuitSatInstance) :=
  if negb (Z.eqb (output_size c) 1) then Raise AssertionError
  else
    instance ← new_instance c;
    out ← op_at (outputs (circuit instance)) 0;
    '(status, instance) ← assign out true instance;
    if decide (status = OK) then Ok (Some instance) else Ok None.

End WithTopSort.

(* ================================================================== *)
(** * solver.py                                                        *)
(* ================================================================== *)

Record _GateWeightResult : Type := mkWeight {
  weight : option Z;
  wr_forced_value : option bool
}.

Record _CubeGateSelection : Type := mkSelection {
  sel_label : Label;
  forced_value : option bool
}.

(** The [is_forced] property of both records. *)
Definition is_forced (fv : option bool) : bool :=
  match fv with Some _ => true | None => false end.

(** [sat.PySatResult] *)
Record PySatResult : Type := mkSatResult {
  answer : bool;
  model : option (list Z)
}.

(** [scores.sort(key=lambda x: x[0], reverse=True)]: a stable sort,
    descending in the score; equal scores keep their order. *)
Fixpoint insert_desc (x : Z * Label) (l : list (Z * Label)) : list (Z * Label) :=
  match l with
  | [] => [x]
  | y :: l' => if Z.ltb (fst x) (fst y) then y :: insert_desc x l' else x :: l
  end.

Definition sort_desc (l : list (Z * Label)) : list (Z * Label) :=
  foldr insert_desc [] l.

(** [xs[:k]] for an integer [k] of either sign. *)
Definition slice_to {A} (k : Z) (xs : list A) : list A :=
  if Z.leb 0 k then take (Z.to_nat k) xs
  else take (Z.to_nat (Z.of_nat (length xs) + k)) xs.

(** [xs[i] = x], a negative index counting from the end. *)
Definition list_assign (xs : list Z) (i : Z) (x : Z) : res (list Z) :=
  let n := Z.of_nat (length xs) in
  if Z.leb 0 i && Z.ltb i n then Ok (<[Z.to_nat i := x]> xs)
  else if Z.leb (- n) i && Z.ltb i 0 then Ok (<[Z.to_nat (n + i) := x]> xs)
  else Raise IndexError.

(** The loop of [_rank_candidates] that sums the transparent out-degree. *)
Fixpoint outdegree_of (c : Circuit) (user_labels : list Label) (acc : Z) : res Z :=
  match user_labels with
  | [] => Ok acc
  | user_label :: rest =>
      user ← get_gate c user_label;
      if decide (gate_type user = NOT)
      then outdegree_of c rest (acc + Z.of_nat (length (get_gate_users c user_label)))
      else outdegree_of c rest (acc + 1)
  end.

Fixpoint score_gates (c : Circuit) (labels : list Label)
    (scores : list (Z * Label)) : res (list (Z * Label)) :=
  match labels with
  | [] => Ok scores
  | l :: labels' =>
      g ← get_gate c l;
      if bool_decide (gate_type g = ALWAYS_TRUE ∨ gate_type g = ALWAYS_FALSE
                      ∨ gate_type g = NOT)
      then score_gates c labels' scores
      else if negb (bool_decide (gate_type g = AND ∨ gate_type g = INPUT))
      then Raise AssertionError
      else
        let indegree := Z.of_nat (length (operands g)) in
        outdegree ← outdegree_of c (get_gate_users c l) 0;
        let score := (indegree + 1) * (outdegree + 1) in
        score_gates c labels' (scores ++ [(score, l)])
  end.

Section Solver.

Variable top_sort : Circuit → res (list Gate).

(** The parameters of [CubeAndConquerSolver]. *)
Variable max_depth : Z.
Variable candidates_limit : Z.

(** The SAT backend behind [sat.is_satisfiable]. *)
Variable is_satisfiable : Cnf → PySatResult.

Definition _rank_candidates (instance : CircuitSatInstance) : res (list Label) :=
  let c := circuit instance in
  scores ← score_gates c (od_keys (gates c)) [];
  Ok (map snd (slice_to candidates_limit (sort_desc scores))).

(** The [for val in (False, True)] loop of [_weight_gate]; every round
    works on a fresh deep copy of [instance]. *)
Fixpoint weight_loop (instance : CircuitSatInstance) (l : Label)
    (start_size : Z) (vals : list bool) (w : Z) : res _GateWeightResult :=
  match vals with
  | [] => Ok (mkWeight (Some w) None)
  | val :: vals' =>
      '(status, branch) ← assign top_sort l val instance;
      if decide (status = OK) then
        let delta := start_size - size (circuit branch) in
        if negb (Z.ltb 0 delta) then Raise AssertionError
        else weight_loop instance l start_size vals' (w * delta)
      else Ok (mkWeight None (Some (negb val)))
  end.

Definition _weight_gate (instance : CircuitSatInstance) (l : Label)
  : res _GateWeightResult :=
  weight_loop instance l (size (circuit instance)) [false; true] 1.

(** The loop of [_select_gate] over the candidates. *)
Fixpoint select_loop (instance : CircuitSatInstance) (candidates : list Label)
    (best_label : option Label) (best_weight : Z) : res _CubeGateSelection :=
  match candidates with
  | [] =>
      match best_label with
      | Some l => Ok (mkSelection l None)
      | None => Raise AssertionError
      end
  | l :: candidates' =>
      wr ← _weight_gate instance l;
      if is_forced (wr_forced_value wr)
      then Ok (mkSelection l (wr_forced_value wr))
      else
        match weight wr with
        | Some w =>
            if Z.ltb best_weight w
            then select_loop instance candidates' (Some l) w
            else select_loop instance candidates' best_label best_weight
        | None => Raise TypeError
        end
  end.

Definition _select_gate (instance : CircuitSatInstance)
  : res (option _CubeGateSelection) :=
  candidates ← _rank_candidates instance;
  match candidates with
  | [] => Ok None
  | _ => sel ← select_loop instance candidates None 0; Ok (Some sel)
  end.

Definition _should_stop (instance : CircuitSatInstance) (depth : Z) : bool :=
  if Z.eqb (input_size (circuit instance)) 0 then true
  else if Z.leb max_depth depth then true
  else false.

(** [_cube] with a bound on the recursion depth. *)
Fixpoint cube_rec (fuel : nat) (instance : CircuitSatInstance) (depth : Z)
  : res (list CircuitSatInstance) :=
  match fuel with
  | O => Diverge
  | S fuel' =>
      if _should_stop instance depth then Ok [instance]
      else
        selection ← _select_gate instance;
        match selection with
        | None => Ok [instance]
        | Some selection =>
            match forced_value selection with
            | Some fv =>
                '(_, instance) ← assign top_sort (sel_label selection) fv instance;
                cube_rec fuel' instance (depth + 1)
            | None =>
                '(_, branch0) ← assign top_sort (sel_label selection) false instance;
                r0 ← cube_rec fuel' branch0 (depth + 1);
                '(_, branch1) ← assign top_sort (sel_label selection) true instance;
                r1 ← cube_rec fuel' branch1 (depth + 1);
                Ok (r0 ++ r1)
            end
        end
  end.

(** Every recursive call raises [depth] by one and the recursion stops at
    [max_depth]. *)
Definition _cube (instance : CircuitSatInstance) (depth : Z)
  : res (list CircuitSatInstance) :=
  cube_rec (S (Z.to_nat (max_depth - depth))) instance depth.

(** The loop of [conquer] that fills the model array. *)
Fixpoint fill_model (result : PySatResult) (gcs : list GateConfig)
    (m : list Z) : res (list Z) :=
  match gcs with
  | [] => Ok m
  | gc :: gcs' =>
      if negb (is_input gc) then fill_model result gcs' m
      else
        match model result with
        | None => Raise AssertionError
        | Some _ =>
            match idx gc with
            | None => Raise TypeError
            | Some i =>
                let lit := match value gc with Some true => i | _ => - i end in
                m' ← list_assign m (i - 1) lit;
                fill_model result gcs' m'
            end
        end
  end.

Fixpoint conquer (cubes : list CircuitSatInstance) : res PySatResult :=
  match cubes with
  | [] => Ok (mkSatResult false None)
  | instance :: cubes' =>
      let result := is_satisfiable (cnf instance) in
      if answer result then
        m ← fill_model result (od_values (gates_config instance))
              (replicate (length (gates_config instance)) 0);
        Ok (mkSatResult true (Some m))
      else conquer cubes'
  end.

End Solver.

(* ================================================================== *)
(** * scripts/solve_external.py                                        *)
(* ================================================================== *)

(** How the solver subprocess ends. *)
Inductive ProcessOutcome : Type :=
| Exited (returncode : Z)
| TimeoutExpired.

(** [run_external_solver] without its clock: the answer component. *)
Definition run_external_solver (outcome : ProcessOutcome) : option bool :=
  match outcome with
  | Exited rc =>
      if Z.eqb rc 10 then Some true
      else if Z.eqb rc 20 then Some false
      else None
  | TimeoutExpired => None
  end.

Definition status_str (sat : option bool) : string :=
  match sat with
  | Some true => "SAT"
  | Some false => "UNSAT"
  | None => "UNKNOWN"
  end.

Section External.

(** The external solver run on the DIMACS file of a clause list. *)
Variable solver : CnfRaw → ProcessOutcome.

(** The conquer loop of [main]: [answer] starts false and the loop breaks
    at the first SAT. *)
Fixpoint conquer_loop (cubes : list CircuitSatInstance) (ans : bool) : bool :=
  match cubes with
  | [] => ans
  | instance :: cubes' =>
      let sat := run_external_solver (solver (get_raw (cnf instance))) in
      if bool_decide (sat = Some true) then true
      else conquer_loop cubes' ans
  end.

(** The string printed after [Answer:] and written to the CSV. *)
Definition final_answer (cubes : list CircuitSatInstance) : string :=
  if conquer_loop cubes false then "SAT" else "UNSAT".

(** The per-cube statuses that the loop prints, up to the break. *)
Fixpoint printed_statuses (cubes : list CircuitSatInstance) : list string :=
  match cubes with
  | [] => []
  | instance :: cubes' =>
      let sat := run_external_solver (solver (get_raw (cnf instance))) in
      status_str sat ::
        (if bool_decide (sat = Some true) then [] else printed_statuses cubes')
  end.

End External.

(* ================================================================== *)
(** * The object store                                                 *)
(* ================================================================== *)

(** Python objects are shared by reference: an instance holds references
    to its [Circuit], to its [Cnf] (which holds a reference to the clause
    list) and to the [gates_config] dict, whose values are references to
    [GateConfig] objects.  The store is a list of cells; a reference is
    an index in it, and allocation appends a cell. *)
Abbreviation loc := nat.

Inductive Obj : Type :=
| InstanceObj (circuit_ref cnf_ref config_ref : loc)
| CircuitObj (c : Circuit)
| CnfObj (raw_ref : loc) (vm : VarMap)
| ListObj (raw : CnfRaw)
| DictObj (d : odict loc)
| GateConfigObj (gc : GateConfig).

Abbreviation heap := (list Obj).

Definition alloc (o : Obj) (h : heap) : loc * heap := (length h, h ++ [o]).

(** The [GateConfig] objects that the dict [d] refers to. *)
Fixpoint load_configs (h : heap) (d : odict loc) : option (odict GateConfig) :=
  match d with
  | [] => Some []
  | (l, r) :: d' =>
      match h !! r with
      | Some (GateConfigObj gc) =>
          gcs ← load_configs h d'; Some ((l, gc) :: gcs)
      | _ => None
      end
  end.

(** The value of the instance that [p] refers to. *)
Definition load (h : heap) (p : loc) : option CircuitSatInstance :=
  match h !! p with
  | Some (InstanceObj pc pf pg) =>
      match h !! pc, h !! pf, h !! pg with
      | Some (CircuitObj c), Some (CnfObj pr vm), Some (DictObj d) =>
          match h !! pr with
          | Some (ListObj raw) =>
              gcs ← load_configs h d;
              Some {| circuit := c; cnf := mkCnf raw vm; gates_config := gcs |}
          | _ => None
          end
      | _, _, _ => None
      end
  | _ => None
  end.



(** [copy.copy(instance)]: a new instance object that shares the three
    objects it refers to. *)
Definition shallow_copy (p : loc) (h : heap) : option (loc * heap) :=
  match h !! p with
  | Some (InstanceObj pc pf pg) => Some (alloc (InstanceObj pc pf pg) h)
  | _ => None
  end.

(** The [GateConfig] objects are updated in place. *)
Fixpoint write_configs (d : odict loc) (gcs : odict GateConfig) (h : heap) : heap :=
  match d, gcs with
  | (_, r) :: d', (_, gc) :: gcs' =>
      write_configs d' gcs' (<[r := GateConfigObj gc]> h)
  | _, _ => h
  end.

Definition load_res (h : heap) (p : loc) : res CircuitSatInstance :=
  match load h p with Some self => Ok self | None => Raise TypeError end.

Section StoreMethods.

Variable top_sort : Circuit → res (list Gate).

(** [_assign_and_propagate] through the reference [p]: the circuit
    object, the clause list and the [GateConfig] objects of the instance
    are mutated in place. *)
Definition h_assign_and_propagate (p : loc) (l : Label) (v : bool) (h : heap)
  : res (AssignmentStatus * heap) :=
  self ← load_res h p;
  '(status, self') ← _assign_and_propagate l v self;
  match h !! p with
  | Some (InstanceObj pc pf pg) =>
      match h !! pf, h !! pg with
      | Some (CnfObj pr _), Some (DictObj d) =>
          Ok (status,
              write_configs d (gates_config self')
                (<[pr := ListObj (_cnf (cnf self'))]>
                   (<[pc := CircuitObj (circuit self')]> h)))
      | _, _ => Raise TypeError
      end
  | _ => Raise TypeError
  end.

(** [simplify] through the reference [p]: the transformer builds a new
    circuit object and the [circuit] field is rebound to it. *)
Definition h_simplify (p : loc) (h : heap) : res heap :=
  self ← load_res h p;
  c ← _transform top_sort (circuit self);
  match h !! p with
  | Some (InstanceObj _ pf pg) =>
      let '(pc', h1) := alloc (CircuitObj c) h in
      Ok (<[p := InstanceObj pc' pf pg]> h1)
  | _ => Raise TypeError
  end.

Definition h_assign (p : loc) (l : Label) (v : bool) (h : heap)
  : res (AssignmentStatus * heap) :=
  '(status, h1) ← h_assign_and_propagate p l v h;
  if decide (status = OK) then
    h2 ← h_simplify p h1;
    Ok (OK, h2)
  else Ok (status, h1).


End StoreMethods.

(** Allocation of a whole instance, as [__init__] leaves it. *)
Fixpoint alloc_configs (gcs : odict GateConfig) (h : heap) : odict loc * heap :=
  match gcs with
  | [] => ([], h)
  | (l, gc) :: gcs' =>
      let '(r, h1) := alloc (GateConfigObj gc) h in
      let '(d, h2) := alloc_configs gcs' h1 in
      ((l, r) :: d, h2)
  end.

Definition alloc_instance (self : CircuitSatInstance) (h : heap) : loc * heap :=
  let '(pc, h1) := alloc (CircuitObj (circuit self)) h in
  let '(pr, h2) := alloc (ListObj (_cnf (cnf self))) h1 in
  let '(pf, h3) := alloc (CnfObj pr (_var_map (cnf self))) h2 in
  let '(d, h4) := alloc_configs (gates_config self) h3 in
  let '(pg, h5) := alloc (DictObj d) h4 in
  alloc (InstanceObj pc pf pg) h5.

(* ================================================================== *)
(** * Vocabulary of the statements                                     *)
(* ================================================================== *)

(** ** Circuits *)

(** [x] is [l] or an operand, transitively, of the gate labelled [l]. *)
Inductive reaches (c : Circuit) : Label → Label → Prop :=
| reaches_refl l : reaches c l l
| reaches_step l g op x :
    od_get (gates c) l = Some g → op ∈ operands g → reaches c op x →
    reaches c l x.

Definition reachable (c : Circuit) (x : Label) : Prop :=
  ∃ r, r ∈ outputs c ∧ reaches c r x.

(** The gate types of an And-Inverter Graph. *)
Definition aig_type (t : GateType) : Prop :=
  t = INPUT ∨ t = AND ∨ t = NOT ∨ t = ALWAYS_TRUE ∨ t = ALWAYS_FALSE.

(** The invariants of the data model: labels are unique, every gate has
    an AIG type with its arity, every operand and every output exists,
    the inputs are INPUT gates, and the graph is acyclic (operands have a
    strictly smaller rank). *)
Record aig_circuit (c : Circuit) : Prop := {
  aig_nodup : NoDup (od_keys (gates c));
  aig_types : ∀ l g, od_get (gates c) l = Some g →
      aig_type (gate_type g) ∧ length (operands g) = arity (gate_type g);
  aig_operands : ∀ l g op, od_get (gates c) l = Some g → op ∈ operands g →
      is_Some (od_get (gates c) op);
  aig_outputs : ∀ r, r ∈ outputs c → is_Some (od_get (gates c) r);
  aig_inputs : ∀ i, i ∈ inputs c →
      ∃ g, od_get (gates c) i = Some g ∧ gate_type g = INPUT;
  aig_acyclic : ∃ rank : Label → nat, ∀ l g op,
      od_get (gates c) l = Some g → op ∈ operands g → (rank op < rank l)%nat
}.

(** ** Tseytin clauses, in the words of the spec *)

Definition var_of (vm : VarMap) (l : Label) : Lit := default 0 (vm !! l).

(** Clauses per gate type, where [t] is the variable of the gate and
    [lits] those of its operands. *)
Definition spec_clauses (ty : GateType) (t : Lit) (lits : list Lit) : CnfRaw :=
  match ty, lits with
  | INPUT, _ => []
  | ALWAYS_TRUE, _ => [[t]]
  | ALWAYS_FALSE, _ => [[- t]]
  | NOT, [a] => [[a; t]; [- a; - t]]
  | AND, [a; b] => [[a; - t]; [b; - t]; [- a; - b; t]]
  | _, _ => []
  end.

Definition spec_gate_clauses (c : Circuit) (vm : VarMap) (l : Label) : CnfRaw :=
  match od_get (gates c) l with
  | Some g => spec_clauses (gate_type g) (var_of vm l) (map (var_of vm) (operands g))
  | None => []
  end.

(** Clause lists compared clause by clause, each clause as a set of
    literals. *)
Definition same_clauses (f1 f2 : CnfRaw) : Prop := Forall2 Permutation f1 f2.

(** What the encoder appends for one output root: the clauses of the
    gates [seg] it encodes on the way, then the unit clause of the root. *)
Definition root_clauses (c : Circuit) (vm : VarMap) (r : Label) (seg : list Label)
  : CnfRaw :=
  concat (map (spec_gate_clauses c vm) seg) ++ [[var_of vm r]].

(** ** Instances *)

(** What [_check_circuit] lets through. *)
Definition supported_gate (g : Gate) : Prop :=
  gate_type g = INPUT
  ∨ (gate_type g = AND ∧ length (operands g) = 2%nat)
  ∨ (gate_type g = NOT ∧ length (operands g) = 1%nat).

(** A gate that the lookahead may branch on. *)
Definition branchable (c : Circuit) (l : Label) : Prop :=
  ∃ g, od_get (gates c) l = Some g ∧ (gate_type g = AND ∨ gate_type g = INPUT).

(** The part of [gates_config] that identifies variables. *)
Definition config_indices (gcs : odict GateConfig) : list (Label * option Lit) :=
  map (fun kg => (fst kg, idx (snd kg))) gcs.


(** ** Concrete circuits used as test inputs *)

Definition build_circuit (gs : list (Label * GateType * list Label))
    (outs : list Label) : res Circuit :=
  c ← foldl (fun rc '(l, t, ops) => c ← rc; emplace_gate c l t ops)
            (Ok empty_circuit) gs;
  set_outputs c outs.

Definition or_else {A} (d : A) (r : res A) : A :=
  match r with Ok a => a | _ => d end.

(** [out = NOT(AND(AND(x, NOT x), y))]: the gate [a = AND(x, NOT x)]
    cannot be true. *)
Definition forced_circuit : Circuit :=
  or_else empty_circuit
    (build_circuit
       [("x", INPUT, []); ("y", INPUT, []); ("n", NOT, ["x"]);
        ("a", AND, ["x"; "n"]); ("m", AND, ["a"; "y"]); ("out", NOT, ["m"])]
       ["out"]).


(** The stuck-at-one circuit of the test suite: an input and a constant
    output. *)
Definition stuck_at_one : Circuit :=
  or_else empty_circuit
    (build_circuit [("x", INPUT, []); ("true", ALWAYS_TRUE, [])] ["true"]).

Definition empty_instance : CircuitSatInstance :=
  {| circuit := empty_circuit; cnf := mkCnf [] ∅; gates_config := [] |}.

Definition instance_of (c : Circuit) : CircuitSatInstance :=
  match from_circuit top_sort_insertion c with
  | Ok (Some i) => i
  | _ => empty_instance
  end.

(** ** Further vocabulary *)

(** The external solver answers SAT on the cube. *)
Definition cube_sat (solver : CnfRaw → ProcessOutcome)
    (instance : CircuitSatInstance) : Prop :=
  run_external_solver (solver (get_raw (cnf instance))) = Some true.

(** [b] keeps the variable numbering of [a]: same label-to-variable map,
    same labels and [idx] fields in [gates_config], clauses only appended. *)
Definition numbering_kept (a b : CircuitSatInstance) : Prop :=
  _var_map (cnf b) = _var_map (cnf a)
  ∧ config_indices (gates_config b) = config_indices (gates_config a)
  ∧ ∃ extra, _cnf (cnf b) = _cnf (cnf a) ++ extra.

(** The instance left by [assign] under the reference order. *)
Definition after_assign (l : Label) (v : bool) (i : CircuitSatInstance)
  : CircuitSatInstance :=
  match assign top_sort_insertion l v i with
  | Ok (_, i') => i'
  | _ => empty_instance
  end.

Definition cube_count (r : res (list CircuitSatInstance)) : res nat :=
  cubes ← r; Ok (length cubes).



(** ** Circuits grown by [emplace_gate] *)

(** The dict entries of a gate sequence. *)
Definition entries (gs : list Gate) : odict Gate :=
  map (fun g => (label g, g)) gs.

(** What a circuit built by the simplifier satisfies: unique labels, each
    gate stored under its own label, no constant gate, arities as the
    type requires, operands present. *)
Definition built (c : Circuit) : Prop :=
  NoDup (od_keys (gates c))
  ∧ ∀ k g, (k, g) ∈ gates c →
      k = label g
      ∧ is_constant_type (gate_type g) = false
      ∧ length (operands g) = arity (gate_type g)
      ∧ forallb (od_mem (gates c)) (operands g) = true.

(** Two circuits are equal as the simplifier's contract reads it: the
    same gates up to creation order, the same inputs and outputs. *)
Definition same_circuit (c1 c2 : Circuit) : Prop :=
  Permutation (gates c1) (gates c2)
  ∧ (∀ l, od_get (gates c1) l = od_get (gates c2) l)
  ∧ inputs c1 = inputs c2
  ∧ outputs c1 = outputs c2.

(** [n = NOT(AND(x, TRUE))], and what the simplifier makes of it under
    the reference order. *)
Definition constant_circuit : Circuit :=
  or_else empty_circuit
    (build_circuit
       [("x", INPUT, []); ("t", ALWAYS_TRUE, []); ("g", AND, ["x"; "t"]);
        ("n", NOT, ["g"])]
       ["n"]).

Definition simplified_circuit : Circuit :=
  or_else empty_circuit (_transform top_sort_insertion constant_circuit).

(** ** Ownership in the store *)


(** Cells that hold plain data, the only ones [assign] overwrites. *)
Definition data_cell (o : Obj) : Prop :=
  match o with
  | CircuitObj _ | ListObj _ | GateConfigObj _ => True
  | _ => False
  end.

(** The store with one instance of [forced_circuit] in it. *)
Definition forced_store : loc * heap :=
  alloc_instance (instance_of forced_circuit) [].

(** The [GateConfig] references of the instance at [q]. *)
Definition config_refs (h : heap) (q : loc) : list loc :=
  match h !! q with
  | Some (InstanceObj _ _ pg) =>
      match h !! pg with
      | Some (DictObj d) => map snd d
      | _ => []
      end
  | _ => []
  end.


(** ** The traversal of the encoder *)

(** [l] has a literal in [saved_lits]. *)
Definition saved (s : TseytinState) (l : Label) : Prop :=
  is_Some (saved_lits s !! l).

(** The saved labels are closed under operands. *)
Definition closed (c : Circuit) (s : TseytinState) : Prop :=
  ∀ l g op, saved s l → od_get (gates c) l = Some g → op ∈ operands g →
    saved s op.

(** Steps that the gates not yet saved can still cost. *)
Definition unsaved_weight (c : Circuit) (s : TseytinState) : nat :=
  list_sum (map (fun kg : Label * Gate =>
                   if is_saved (fst kg) s then O else S (length (operands (snd kg))))
                (gates c)).

(** The clauses that [encode_gate] appends, as a list. *)
Definition code_clauses (ty : GateType) (top : Lit) (lits : list Lit) : CnfRaw :=
  match ty with
  | ALWAYS_TRUE => [[top]]
  | ALWAYS_FALSE => [[- top]]
  | NOT => match lits with l0 :: _ => [[l0; top]; [- l0; - top]] | [] => [] end
  | AND => map (fun lit => [lit; - top]) lits ++ [top :: map Z.opp lits]
  | _ => []
  end.

Definition gate_code_clauses (c : Circuit) (vm : VarMap) (l : Label) : CnfRaw :=
  match od_get (gates c) l with
  | Some g => code_clauses (gate_type g) (var_of vm l) (map (var_of vm) (operands g))
  | None => []
  end.

(** [xor_out = XOR(a, b)] from AND and NOT gates, as the test suite
    builds it: [a] and [b] are shared by several gates. *)
Definition xor_circuit : Circuit :=
  or_else empty_circuit
    (build_circuit
       [("a", INPUT, []); ("b", INPUT, []);
        ("not_a", NOT, ["a"]); ("not_b", NOT, ["b"]);
        ("both_false", AND, ["not_a"; "not_b"]);
        ("both_true", AND, ["a"; "b"]);
        ("not_both_false", NOT, ["both_false"]);
        ("not_both_true", NOT, ["both_true"]);
        ("xor_out", AND, ["not_both_false"; "not_both_true"])]
       ["xor_out"]).

(** The position of a label in the gate table, a rank for circuits whose
    operands are inserted first. *)
Fixpoint position (ls : list Label) (l : Label) : nat :=
  match ls with
  | [] => O
  | l' :: ls' => if decide (l' = l) then O else S (position ls' l)
  end.

(** From [s] to [s'] exactly the labels of [seg] received a literal,
    each once, and the saved labels stay closed. *)
Definition visits (c : Circuit) (s s' : TseytinState) (seg : list Label) : Prop :=
  closed c s'
  ∧ saved_lits s ⊆ saved_lits s'
  ∧ (∀ x, saved s' x ↔ saved s x ∨ x ∈ seg)
  ∧ NoDup seg
  ∧ (∀ x, x ∈ seg → ¬ saved s x).

(** [s'] is reached from [s] by encoding exactly the gates of [seg], in
    that order. *)
Definition encodes (c : Circuit) (s s' : TseytinState) (seg : list Label) : Prop :=
  visits c s s' seg
  ∧ ts_cnf s' = ts_cnf s ++ concat (map (gate_code_clauses c (saved_lits s')) seg).

(** Popping [(l, False)] in a closed state leads, within [k] steps that
    the unsaved gates pay for, to a state where [l] is saved and exactly
    the gates of [seg], all below [l], were encoded. *)
Definition entry_ok (c : Circuit) (l : Label) : Prop :=
  ∀ s, closed c s →
    ∃ k s' seg,
      (∀ rest fuel, (k ≤ fuel)%nat →
         process_loop fuel c ((l, false) :: rest) s
         = process_loop (fuel - k) c rest s')
      ∧ (k + unsaved_weight c s' ≤ 1 + unsaved_weight c s)%nat
      ∧ encodes c s s' seg
      ∧ saved s' l
      ∧ (∀ x, x ∈ seg → reaches c l x).

(** What the code appends for one output root. *)
Definition root_code_clauses (c : Circuit) (vm : VarMap) (r : Label)
    (seg : list Label) : CnfRaw :=
  concat (map (gate_code_clauses c vm) seg) ++ [[var_of vm r]].

(** A checker for the invariants of [aig_circuit], with the position in
    the gate table as rank. *)
Definition aig_type_b (t : GateType) : bool :=
  match t with
  | INPUT | AND | NOT | ALWAYS_TRUE | ALWAYS_FALSE => true
  | _ => false
  end.

Definition gate_ok_b (c : Circuit) (kg : Label * Gate) : bool :=
  aig_type_b (gate_type (snd kg))
  && Nat.eqb (length (operands (snd kg))) (arity (gate_type (snd kg)))
  && forallb (fun op =>
                od_mem (gates c) op
                && Nat.ltb (position (od_keys (gates c)) op)
                           (position (od_keys (gates c)) (fst kg)))
             (operands (snd kg)).

Definition input_ok_b (c : Circuit) (i : Label) : bool :=
  match od_get (gates c) i with
  | Some g => bool_decide (gate_type g = INPUT)
  | None => false
  end.

Definition aig_circuit_b (c : Circuit) : bool :=
  bool_decide (NoDup (od_keys (gates c)))
  && forallb (gate_ok_b c) (gates c)
  && forallb (od_mem (gates c)) (outputs c)
  && forallb (input_ok_b c) (inputs c).

(** The call returns or raises: its loops end within their budgets. *)
Definition converges {A} (r : res A) : Prop := r ≠ Diverge.

(** Two NOT gates feeding each other: not a circuit the container would
    build, but one the record type admits. *)
Definition cyclic_circuit : Circuit :=
  {| gates := [("a", mkGate "a" NOT ["b"]); ("b", mkGate "b" NOT ["a"])];
     inputs := []; outputs := ["a"]; users := ∅ |}.

(* ================================================================== *)
(** * Further vocabulary: the numbering of the encoder                 *)
(* ================================================================== *)

(** The variables of [s] are [1 .. next_lit s], one per saved label, and
    every literal of the clause list is one of them or its negation. *)
Record numbered (s : TseytinState) : Prop := {
  numbered_size : Z.of_nat (base.size (saved_lits s)) = next_lit s;
  numbered_range : ∀ l v, saved_lits s !! l = Some v → 1 ≤ v ≤ next_lit s;
  numbered_inj : ∀ l1 l2 v,
      saved_lits s !! l1 = Some v → saved_lits s !! l2 = Some v → l1 = l2;
  numbered_surj : ∀ v, 1 ≤ v ≤ next_lit s → ∃ l, saved_lits s !! l = Some v;
  numbered_lits : ∀ cl lit, cl ∈ ts_cnf s → lit ∈ cl →
      1 ≤ Z.abs lit ≤ next_lit s
}.

(** [s'] continues [s]: no literal is renamed and the counter only grows. *)
Definition continues (s s' : TseytinState) : Prop :=
  saved_lits s ⊆ saved_lits s' ∧ next_lit s ≤ next_lit s'.

(* ================================================================== *)
(** * Further vocabulary: assignments                                  *)
(* ================================================================== *)

(** The constant gate that an assignment leaves under a label. *)
Definition constant_gate (l : Label) (v : bool) : Gate :=
  mkGate l (if v then ALWAYS_TRUE else ALWAYS_FALSE) [].

(** [c'] is [c] with some of its non-constant gates replaced by
    constants: same labels in the same order, same outputs, and every
    gate is either untouched or was not a constant and now is one. *)
Definition frozen (c c' : Circuit) : Prop :=
  od_keys (gates c') = od_keys (gates c)
  ∧ outputs c' = outputs c
  ∧ ∀ k g, od_get (gates c) k = Some g →
      od_get (gates c') k = Some g
      ∨ (is_constant_type (gate_type g) = false
         ∧ ∃ b, od_get (gates c') k = Some (constant_gate k b)).

(** Every gate is stored under its own label. *)
Definition self_labelled (c : Circuit) : Prop :=
  ∀ k g, (k, g) ∈ gates c → k = label g.

(** What the circuit library's [top_sort] is relied on for here: it
    yields the gates of the circuit, each once. *)
Definition enumerates (top_sort : Circuit → res (list Gate)) : Prop :=
  ∀ c order, top_sort c = Ok order → Permutation order (od_values (gates c)).

(** What every instance circuit satisfies: unique labels, every gate
    stored under its own label, and only the gates that [_check_circuit]
    admits. *)
Definition checked (c : Circuit) : Prop :=
  NoDup (od_keys (gates c)) ∧ self_labelled c ∧ _check_circuit c = Ok tt.

(* ================================================================== *)
(** * Further vocabulary: gate selection                               *)
(* ================================================================== *)

(** The lookahead of [_weight_gate] on [l] forces no value and weighs
    the gate [w]. *)
Definition lookahead_weight (top_sort : Circuit → res (list Gate))
    (instance : CircuitSatInstance) (l : Label) (w : Z) : Prop :=
  _weight_gate top_sort instance l = Ok (mkWeight (Some w) None).



(* ================================================================== *)
(** * scripts: [write_dimacs]                                          *)
(* ================================================================== *)

(** [max(abs(lit) for clause in clauses for lit in clause)]: [max] of an
    empty sequence is a [ValueError]. *)
Definition max_abs_lit (clauses : CnfRaw) : res Z :=
  match concat clauses with
  | [] => Raise ValueError
  | lit :: lits => Ok (fold_left (fun m x => Z.max m (Z.abs x)) lits (Z.abs lit))
  end.

Definition newline : string := String (Ascii.ascii_of_nat 10) EmptyString.

(** [f"p cnf {num_vars} {len(clauses)}\n"] *)
Definition dimacs_header (num_vars : Z) (num_clauses : nat) : string :=
  "p cnf " +:+ pretty num_vars +:+ " " +:+ pretty num_clauses +:+ newline.

(** [" ".join(map(str, clause)) + " 0\n"] *)
Definition dimacs_clause (clause : Clause) : string :=
  String.concat " " (map pretty clause) +:+ " 0" +:+ newline.

(** [write_dimacs], as the sequence of strings written to the file; the
    file is opened only after [num_vars] has been computed. *)
Definition write_dimacs (clauses : CnfRaw) : res (list string) :=
  num_vars ← max_abs_lit clauses;
  Ok (dimacs_header num_vars (length clauses) :: map dimacs_clause clauses).

(* ================================================================== *)
(** * aig_parser.py: binary numbers                                    *)
(* ================================================================== *)

(** [AIGParseError] with its message. *)
Inductive AIGParseError : Type := ParseError (message : string).

(** The integer of a byte read from a binary stream. *)
Definition byte_val (b : Byte.byte) : Z := Z.of_N (Byte.to_N b).

(** The loop of [_decode_binary_number]; the stream is the unread rest
    of the file, and [stream.read(1)] takes its first byte. *)
Fixpoint decode_from (stream : list Byte.byte) (result shift : Z)
  : AIGParseError + (Z * list Byte.byte) :=
  match stream with
  | [] => inl (ParseError "Unexpected EOF decoding number")
  | b :: rest =>
      let byte := byte_val b in
      let result := Z.lor result (Z.shiftl (Z.land byte 127) shift) in
      if Z.eqb (Z.land byte 128) 0 then inr (result, rest)
      else decode_from rest result (shift + 7)
  end.

Definition _decode_binary_number (stream : list Byte.byte)
  : AIGParseError + (Z * list Byte.byte) :=
  decode_from stream 0 0.

(** The number whose base-128 digits, least significant first, are the
    low seven bits of the bytes. *)
Fixpoint base128 (bs : list Byte.byte) : Z :=
  match bs with
  | [] => 0
  | b :: bs' => Z.land (byte_val b) 127 + 128 * base128 bs'
  end.

(** A byte with its high bit set: the number continues. *)
Definition continuation (b : Byte.byte) : Prop := Z.land (byte_val b) 128 ≠ 0.

(* ================================================================== *)
(** * Properties                                                       *)
(* ================================================================== *)

(** ** Generic facts *)

Lemma res_bind_ok {A B} (m : res A) (f : A → res B) (b : B) :
  m ≫= f = Ok b → ∃ a, m = Ok a ∧ f a = Ok b.
Proof. destruct m; simpl; [eauto | discriminate | discriminate]. Qed.

Ltac res_inv H :=
  let a := fresh "a" in
  let Ha := fresh "Ha" in
  apply res_bind_ok in H; destruct H as (a & Ha & H).

(** ** The external conquer loop (C9) *)

Section ExternalFacts.
Variable solver : CnfRaw → ProcessOutcome.

Lemma conquer_loop_true cubes :
  conquer_loop solver cubes false = true ↔ ∃ i, i ∈ cubes ∧ cube_sat solver i.
Proof.
  induction cubes as [|i cubes IH]; simpl.
  - split; [discriminate | intros (i & Hi & _); inversion Hi].
  - case_bool_decide as Hs.
    + split; [intros _; exists i; split; [left | exact Hs] | reflexivity].
    + rewrite IH. split.
      * intros (j & Hj & Hsat). exists j. split; [right; exact Hj | exact Hsat].
      * intros (j & Hj & Hsat). apply elem_of_cons in Hj as [-> | Hj];
          [contradiction | eauto].
Qed.

End ExternalFacts.

(** C9 (as stated, refuted): one cube, whose solver exits with code 1.
    The cube is printed as UNKNOWN, no cube is SAT, and the reported
    answer is UNSAT, not UNKNOWN. *)
Lemma C9_unknown_reported_unsat :
  let solver := fun _ : CnfRaw => Exited 1 in
  let cubes := [instance_of forced_circuit] in
  printed_statuses solver cubes = ["UNKNOWN"%string]
  ∧ final_answer solver cubes = "UNSAT"%string
  ∧ final_answer solver cubes ≠ "UNKNOWN"%string.
Proof. repeat split; discriminate. Qed.

(** C9 (amended): the reported answer is SAT exactly when some cube
    returned SAT, and UNSAT exactly when none did, whether the other
    cubes returned UNSAT or UNKNOWN (unexpected exit code or timeout);
    it is never UNKNOWN. *)
Theorem C9_external_answer (solver : CnfRaw → ProcessOutcome)
    (cubes : list CircuitSatInstance) :
  (final_answer solver cubes = "SAT"%string
     ↔ ∃ i, i ∈ cubes ∧ cube_sat solver i)
  ∧ (final_answer solver cubes = "UNSAT"%string
     ↔ ∀ i, i ∈ cubes → ¬ cube_sat solver i)
  ∧ final_answer solver cubes ≠ "UNKNOWN"%string.
Proof.
  unfold final_answer.
  pose proof (conquer_loop_true solver cubes) as H.
  destruct (conquer_loop solver cubes false).
  - repeat split; try discriminate.
    + intros _. apply H. reflexivity.
    + intros Hall. destruct (proj1 H eq_refl) as (i & Hi & Hs).
      exfalso. exact (Hall i Hi Hs).
  - repeat split; try discriminate.
    + intros Hex. apply H in Hex. discriminate.
    + intros _ i Hi Hs. assert (false = true) by (apply H; eauto). discriminate.
Qed.

(** ** The structural check of the constructor (C8) *)

Lemma check_gate_ok g : check_gate g = Ok tt ↔ supported_gate g.
Proof.
  unfold check_gate, supported_gate.
  repeat case_decide; simpl.
  - split; [tauto | reflexivity].
  - destruct (Nat.eqb_spec (length (operands g)) 2); simpl.
    + split; [tauto | reflexivity].
    + split; [discriminate | intros [? | [[_ ?] | [? _]]]; congruence].
  - destruct (Nat.eqb_spec (length (operands g)) 1); simpl.
    + split; [tauto | reflexivity].
    + split; [discriminate | intros [? | [[? _] | [_ ?]]]; congruence].
  - split; [discriminate | intros [? | [[? _] | [? _]]]; congruence].
Qed.

Lemma check_gate_cases g : check_gate g = Ok tt ∨ check_gate g = Raise ValueError.
Proof.
  unfold check_gate. repeat case_decide; auto;
    destruct (Nat.eqb _ _); simpl; auto.
Qed.

Lemma check_gates_ok gs : check_gates gs = Ok tt ↔ Forall supported_gate gs.
Proof.
  induction gs as [|g gs IH]; simpl.
  - split; [constructor | reflexivity].
  - destruct (check_gate_cases g) as [Hg | Hg]; rewrite Hg; simpl.
    + rewrite IH. split; [intros; constructor; [apply check_gate_ok|]; done|].
      intros H; by inversion H.
    + split; [discriminate|]. intros H. inversion H as [|? ? Hs _]; subst.
      apply check_gate_ok in Hs. congruence.
Qed.

Lemma check_gates_cases gs :
  check_gates gs = Ok tt ∨ check_gates gs = Raise ValueError.
Proof.
  induction gs as [|g gs IH]; simpl; [auto|].
  destruct (check_gate_cases g) as [-> | ->]; simpl; auto.
Qed.


(** ** Ordered dictionaries *)

Section OdictFacts.
Context {V : Type}.
Implicit Types (d : odict V) (k : Label) (v : V).

Lemma od_get_set_eq d k v : od_get (od_set d k v) k = Some v.
Proof.
  induction d as [|[k' v'] d IH]; simpl.
  - by rewrite decide_True.
  - destruct (decide (k' = k)) as [->|Hne]; simpl.
    + by rewrite decide_True.
    + by rewrite decide_False.
Qed.

Lemma od_get_set_ne d k k' v : k ≠ k' → od_get (od_set d k v) k' = od_get d k'.
Proof.
  intros Hne. induction d as [|[k0 v0] d IH]; simpl.
  - by rewrite decide_False.
  - destruct (decide (k0 = k)) as [->|Hk]; simpl.
    + by rewrite !decide_False.
    + destruct (decide (k0 = k')); [done | exact IH].
Qed.

Lemma od_set_keys d k v v0 :
  od_get d k = Some v0 → od_keys (od_set d k v) = od_keys d.
Proof.
  unfold od_keys. induction d as [|[k' v'] d IH]; simpl; [discriminate|].
  destruct (decide (k' = k)) as [->|Hk]; simpl; [done|].
  intros H. by rewrite IH.
Qed.

Lemma od_set_length d k v v0 :
  od_get d k = Some v0 → length (od_set d k v) = length d.
Proof.
  intros H. rewrite <- (length_map fst (od_set d k v)), <- (length_map fst d).
  change (map fst ?x) with (od_keys x). by erewrite od_set_keys.
Qed.

Lemma od_get_Some_elem d k v : od_get d k = Some v → (k, v) ∈ d.
Proof.
  induction d as [|[k' v'] d IH]; simpl; [discriminate|].
  destruct (decide (k' = k)) as [->|Hk].
  - intros [= ->]. left.
  - intros H. right. auto.
Qed.

Lemma od_get_None_keys d k : od_get d k = None ↔ k ∉ od_keys d.
Proof.
  unfold od_keys. induction d as [|[k' v'] d IH]; simpl.
  - split; [intros _ H; inversion H | done].
  - destruct (decide (k' = k)) as [->|Hk].
    + split; [discriminate | intros H; exfalso; apply H; left].
    + rewrite IH, not_elem_of_cons. split; [intros ?; split; [congruence | done] | intros [_ ?]; done].
Qed.

Lemma od_get_elem_nodup d k v :
  NoDup (od_keys d) → (k, v) ∈ d → od_get d k = Some v.
Proof.
  unfold od_keys. induction d as [|[k' v'] d IH]; simpl.
  - intros _ H. inversion H.
  - intros Hnd Hin. apply NoDup_cons in Hnd as [Hk' Hnd].
    apply elem_of_cons in Hin as [[= -> ->] | Hin].
    + by rewrite decide_True.
    + destruct (decide (k' = k)) as [->|Hk]; [|auto].
      exfalso. apply Hk'. apply list_elem_of_fmap. by exists (k, v).
Qed.

Lemma od_mem_true d k : od_mem d k = true ↔ is_Some (od_get d k).
Proof.
  unfold od_mem, is_Some. destruct (od_get d k); split; intros H; eauto;
    try discriminate. destruct H; discriminate.
Qed.

Lemma od_get_app d1 d2 k :
  od_get (d1 ++ d2) k =
    match od_get d1 k with Some v => Some v | None => od_get d2 k end.
Proof.
  induction d1 as [|[k' v'] d1 IH]; simpl; [done|].
  destruct (decide (k' = k)); [done | exact IH].
Qed.

End OdictFacts.

(** ** Assignment: the numbering is kept (C3) *)

Lemma numbering_kept_refl a : numbering_kept a a.
Proof. repeat split. exists []. by rewrite app_nil_r. Qed.

Lemma numbering_kept_trans a b c :
  numbering_kept a b → numbering_kept b c → numbering_kept a c.
Proof.
  intros (Hv1 & Hi1 & e1 & He1) (Hv2 & Hi2 & e2 & He2).
  split; [congruence|]. split; [congruence|].
  exists (e1 ++ e2). rewrite He2, He1. by rewrite app_assoc.
Qed.

Lemma numbering_kept_clause self cl : numbering_kept self (with_clause self cl).
Proof. repeat split. by exists [cl]. Qed.

Lemma numbering_kept_circuit self c : numbering_kept self (with_circuit self c).
Proof. repeat split. exists []. by rewrite app_nil_r. Qed.

Lemma config_indices_set gcs l gc gc' :
  od_get gcs l = Some gc → idx gc' = idx gc →
  config_indices (od_set gcs l gc') = config_indices gcs.
Proof.
  unfold config_indices. induction gcs as [|[k g] gcs IH]; simpl; [discriminate|].
  destruct (decide (k = l)) as [->|Hk]; simpl.
  - intros [= ->] ->. done.
  - intros H1 H2. by rewrite IH.
Qed.

Lemma numbering_kept_value self l v self' :
  with_value self l v = Ok self' → numbering_kept self self'.
Proof.
  unfold with_value. destruct (od_get (gates_config self) l) as [gc|] eqn:Hg;
    [|discriminate].
  intros [= <-]. split; [done|]. split; [|exists []; by rewrite app_nil_r].
  simpl. by eapply config_indices_set.
Qed.

Lemma assign_operands_kept rec ops :
  (∀ l v self st self', rec l v self = Ok (st, self') → numbering_kept self self') →
  ∀ self st self', assign_operands rec ops self = Ok (st, self') →
    numbering_kept self self'.
Proof.
  intros Hrec. induction ops as [|op ops IH]; simpl; intros self st self' H.
  - injection H as <- <-. apply numbering_kept_refl.
  - res_inv H. destruct a as [st1 self1]. apply Hrec in Ha.
    case_decide.
    + eapply numbering_kept_trans; [exact Ha | eapply IH, H].
    + injection H as <- <-. exact Ha.
Qed.

Lemma assign_rec_kept fuel : ∀ l v self st self',
  assign_rec fuel l v self = Ok (st, self') → numbering_kept self self'.
Proof.
  induction fuel as [|fuel IH]; intros l v self st self' H; [discriminate|].
  simpl in H. res_inv H. rename a into gate.
  destruct (is_constant_type (gate_type gate)).
  { res_inv H. case_bool_decide; injection H as <- <-; apply numbering_kept_refl. }
  res_inv H. rename a into lit.
  eapply numbering_kept_trans; [apply (numbering_kept_clause self [if v then lit else - lit])|].
  case_decide.
  { res_inv H. injection H as <- <-.
    eapply numbering_kept_trans; [|eapply numbering_kept_value, Ha1].
    apply numbering_kept_circuit. }
  match type of H with context [with_circuit ?s ?c] =>
    eapply numbering_kept_trans; [apply (numbering_kept_circuit s c)|] end.
  case_decide.
  { res_inv H. eapply IH, H. }
  case_decide; [|discriminate].
  destruct v.
  { eapply assign_operands_kept; [|exact H]. intros; eapply IH; eassumption. }
  destruct (negb _); [discriminate|].
  do 6 res_inv H. injection H as <- <-.
  apply numbering_kept_clause.
Qed.

Section AssignFacts.
Variable top_sort : Circuit → res (list Gate).

Lemma simplify_kept self self' :
  simplify top_sort self = Ok self' → numbering_kept self self'.
Proof.
  unfold simplify. intros H. res_inv H. injection H as <-.
  apply numbering_kept_circuit.
Qed.

Lemma assign_kept l v self st self' :
  assign top_sort l v self = Ok (st, self') → numbering_kept self self'.
Proof.
  unfold assign, _assign_and_propagate. intros H. res_inv H.
  destruct a as [st1 self1]. apply assign_rec_kept in Ha.
  case_decide.
  - res_inv H. injection H as <- <-.
    eapply numbering_kept_trans; [exact Ha | eapply simplify_kept, Ha0].
  - injection H as <- <-. exact Ha.
Qed.

End AssignFacts.




(** ** Assigning false to an AND gate (C2) *)




(** ** The forced branch of the cube driver (C6, C10) *)

Lemma assign_rec_false_status fuel l self st self' :
  branchable (circuit self) l →
  assign_rec fuel l false self = Ok (st, self') → st = OK.
Proof.
  intros (g & Hg & Hty) H. destruct fuel as [|fuel]; [discriminate|].
  cbn [assign_rec] in H. unfold get_gate in H. rewrite Hg in H.
  cbn [mbind res_bind] in H.
  assert (is_constant_type (gate_type g) = false) as Hc.
  { apply bool_decide_eq_false_2. intros [?|?]; destruct Hty; congruence. }
  rewrite Hc in H. res_inv H.
  destruct Hty as [Hty | Hty].
  - rewrite decide_False in H by congruence.
    rewrite decide_False in H by congruence.
    rewrite decide_True in H by done.
    destruct (negb _); [discriminate|].
    do 6 res_inv H. by injection H as <- _.
  - rewrite decide_True in H by done. res_inv H. by injection H as <- _.
Qed.

Lemma insert_desc_elem x y l : x ∈ insert_desc y l → x = y ∨ x ∈ l.
Proof.
  induction l as [|z l IH]; simpl.
  - intros H. apply list_elem_of_singleton in H. auto.
  - destruct (Z.ltb _ _).
    + intros H. apply elem_of_cons in H as [-> | H].
      * right. left.
      * destruct (IH H) as [-> | ?]; [auto | right; by right].
    + intros H. apply elem_of_cons in H as [-> | H]; auto.
Qed.

Lemma sort_desc_elem x l : x ∈ sort_desc l → x ∈ l.
Proof.
  unfold sort_desc. induction l as [|y l IH]; simpl; [done|].
  intros H. apply insert_desc_elem in H as [-> | H]; [left | right; auto].
Qed.

Lemma slice_to_elem {A} (x : A) k l : x ∈ slice_to k l → x ∈ l.
Proof.
  unfold slice_to. destruct (Z.leb 0 k); apply subseteq_take.
Qed.

Lemma score_gates_branchable c labels : ∀ scores result,
  score_gates c labels scores = Ok result →
  (∀ x, x ∈ scores → branchable c (snd x)) →
  ∀ x, x ∈ result → branchable c (snd x).
Proof.
  induction labels as [|l labels IH]; simpl; intros scores result H Hs.
  - by injection H as <-.
  - unfold get_gate in H. destruct (od_get (gates c) l) as [g|] eqn:Hg;
      [|discriminate]. cbn [mbind res_bind] in H.
    case_bool_decide as H1; [by eapply IH|].
    case_bool_decide as H2; [|discriminate]. cbn [negb] in H.
    res_inv H. eapply IH; [exact H|].
    intros x Hx. apply elem_of_app in Hx as [Hx | Hx]; [auto|].
    apply list_elem_of_singleton in Hx as ->. simpl. by exists g.
Qed.

Section CubeFacts.
Variable top_sort : Circuit → res (list Gate).
Variable max_depth : Z.
Variable candidates_limit : Z.

Lemma rank_candidates_branchable instance cands l :
  _rank_candidates candidates_limit instance = Ok cands → l ∈ cands →
  branchable (circuit instance) l.
Proof.
  unfold _rank_candidates. intros H Hl. res_inv H. injection H as <-.
  apply list_elem_of_fmap in Hl as (x & -> & Hx).
  apply slice_to_elem, sort_desc_elem in Hx.
  eapply score_gates_branchable; [exact Ha | | exact Hx].
  intros y Hy. inversion Hy.
Qed.

Lemma assign_false_status instance l st b :
  branchable (circuit instance) l →
  assign top_sort l false instance = Ok (st, b) → st = OK.
Proof.
  intros Hb H. unfold assign, _assign_and_propagate in H. res_inv H.
  destruct a as [st1 self1]. apply assign_rec_false_status in Ha; [|exact Hb].
  subst st1. rewrite decide_True in H by done. res_inv H. by injection H as <- _.
Qed.

(** The lookahead reports a forced value only when polarity True
    conflicts after polarity False went through. *)
Lemma weight_gate_forced instance l wr fv :
  branchable (circuit instance) l →
  _weight_gate top_sort instance l = Ok wr → wr_forced_value wr = Some fv →
  fv = false
  ∧ (∃ b, assign top_sort l false instance = Ok (OK, b))
  ∧ (∃ b, assign top_sort l true instance = Ok (CONFLICT, b)).
Proof.
  intros Hb H Hfv. unfold _weight_gate in H. cbn [weight_loop] in H.
  res_inv H. destruct a as [st0 b0].
  pose proof (assign_false_status _ _ _ _ Hb Ha) as ->.
  rewrite decide_True in H by done.
  destruct (negb _); [discriminate|].
  res_inv H. destruct a as [st1 b1].
  case_decide as Hst.
  - destruct (negb _); [discriminate|]. injection H as <-. discriminate.
  - injection H as <-. injection Hfv as <-.
    split; [done|]. split; [eauto|]. destruct st1; [done | eauto].
Qed.

Lemma select_loop_forced instance cands : ∀ best bw sel fv,
  select_loop top_sort instance cands best bw = Ok sel →
  forced_value sel = Some fv →
  sel_label sel ∈ cands
  ∧ ∃ wr, _weight_gate top_sort instance (sel_label sel) = Ok wr
          ∧ wr_forced_value wr = Some fv.
Proof.
  induction cands as [|l cands IH]; intros best bw sel fv H Hfv.
  - simpl in H. destruct best; [|discriminate]. injection H as <-. discriminate.
  - cbn [select_loop] in H. res_inv H. rename a into wr.
    destruct (is_forced (wr_forced_value wr)) eqn:Hf.
    + injection H as <-. simpl in *. split; [left | eauto].
    + destruct (weight wr); [|discriminate].
      destruct (Z.ltb bw z); destruct (IH _ _ _ _ H Hfv) as (Hin & Hwr);
        (split; [by right | exact Hwr]).
Qed.

Lemma should_stop_false instance depth :
  _should_stop max_depth instance depth = false → depth < max_depth.
Proof.
  unfold _should_stop. destruct (Z.eqb _ 0); [discriminate|].
  destruct (Z.leb_spec max_depth depth); [discriminate | done].
Qed.

(** The budget of [_cube] is never exhausted: any larger one gives the
    same result. *)
Lemma cube_rec_fuel fuel1 : ∀ fuel2 instance depth,
  (Z.to_nat (max_depth - depth) < fuel1)%nat →
  (Z.to_nat (max_depth - depth) < fuel2)%nat →
  cube_rec top_sort max_depth candidates_limit fuel1 instance depth
  = cube_rec top_sort max_depth candidates_limit fuel2 instance depth.
Proof.
  induction fuel1 as [|fuel1 IH]; intros fuel2 instance depth H1 H2; [lia|].
  destruct fuel2 as [|fuel2]; [lia|]. cbn [cube_rec].
  destruct (_should_stop max_depth instance depth) eqn:Hstop; [done|].
  apply should_stop_false in Hstop.
  assert (∀ i, cube_rec top_sort max_depth candidates_limit fuel1 i (depth + 1)
             = cube_rec top_sort max_depth candidates_limit fuel2 i (depth + 1)) as Hrec.
  { intros i. apply IH; lia. }
  destruct (_select_gate _ _ _) as [[sel|]| |]; cbn [mbind res_bind]; try done.
  destruct (forced_value sel).
  - destruct (assign _ _ _ _) as [[? ?]| |]; cbn [mbind res_bind]; try done.
  - destruct (assign _ _ false _) as [[? ?]| |]; cbn [mbind res_bind]; try done.
    rewrite Hrec. destruct (cube_rec _ _ _ fuel2 _ _); cbn [mbind res_bind]; try done.
    destruct (assign _ _ true _) as [[? ?]| |]; cbn [mbind res_bind]; try done.
    by rewrite Hrec.
Qed.

Lemma cube_forced_step instance depth sel fv st instance' :
  _should_stop max_depth instance depth = false →
  _select_gate top_sort candidates_limit instance = Ok (Some sel) →
  forced_value sel = Some fv →
  assign top_sort (sel_label sel) fv instance = Ok (st, instance') →
  _cube top_sort max_depth candidates_limit instance depth
  = _cube top_sort max_depth candidates_limit instance' (depth + 1).
Proof.
  intros Hstop Hsel Hfv Hassign. unfold _cube.
  remember (S (Z.to_nat (max_depth - (depth + 1)))) as fuel2 eqn:Hfuel2.
  cbn [cube_rec].
  rewrite Hstop, Hsel. cbn [mbind res_bind]. rewrite Hfv, Hassign.
  cbn [mbind res_bind]. apply should_stop_false in Hstop.
  apply cube_rec_fuel; lia.
Qed.

End CubeFacts.

(** C6 (as stated, refuted): on the instance of [forced_circuit] with
    [max_depth = 1], gate selection forces [a = false]; the driver returns
    the single instance left by that assignment, which is what cubing it
    at depth 1 gives, whereas cubing it at depth 0 branches once more
    and gives two cubes. *)
Lemma C6_forced_branch_not_free :
  let instance := instance_of forced_circuit in
  let instance' := after_assign "a" false instance in
  _should_stop 1 instance 0 = false
  ∧ _select_gate top_sort_insertion 10 instance
      = Ok (Some (mkSelection "a" (Some false)))
  ∧ assign top_sort_insertion "a" false instance = Ok (OK, instance')
  ∧ _cube top_sort_insertion 1 10 instance 0 = Ok [instance']
  ∧ _cube top_sort_insertion 1 10 instance' 1 = Ok [instance']
  ∧ cube_count (_cube top_sort_insertion 1 10 instance' 0) = Ok 2%nat
  ∧ _cube top_sort_insertion 1 10 instance 0
      ≠ _cube top_sort_insertion 1 10 instance' 0.
Proof.
  cbv zeta. do 6 (split; [vm_compute; reflexivity|]).
  intros H. apply (f_equal cube_count) in H. vm_compute in H. discriminate.
Qed.

(** C6 (amended): when gate selection returns a forced value, the cube
    driver applies that assignment, whatever status it returns, and
    recurses on the resulting instance with the depth counter raised by
    one: a forced branch consumes a depth level like a real branch. *)
Theorem C6_forced_branch_consumes_depth
    (top_sort : Circuit → res (list Gate)) (max_depth candidates_limit : Z)
    (instance instance' : CircuitSatInstance) (depth : Z)
    (sel : _CubeGateSelection) (fv : bool) (st : AssignmentStatus) :
  _should_stop max_depth instance depth = false →
  _select_gate top_sort candidates_limit instance = Ok (Some sel) →
  forced_value sel = Some fv →
  assign top_sort (sel_label sel) fv instance = Ok (st, instance') →
  _cube top_sort max_depth candidates_limit instance depth
  = _cube top_sort max_depth candidates_limit instance' (depth + 1).
Proof. apply cube_forced_step. Qed.

Lemma C6_forced_branch_consumes_depth_witness :
  _cube top_sort_insertion 1 10 (instance_of forced_circuit) 0
  = _cube top_sort_insertion 1 10
      (after_assign "a" false (instance_of forced_circuit)) (0 + 1).
Proof.
  apply (C6_forced_branch_consumes_depth top_sort_insertion 1 10
           (instance_of forced_circuit) _ 0 (mkSelection "a" (Some false))
           false OK); vm_compute; reflexivity.
Defined.

(** C10 (the scenario of the claim does not exist): no instance has a
    ranked candidate on which both polarities conflict, because
    assigning false to a candidate never conflicts. *)
Lemma C10_no_double_conflict :
  ¬ ∃ (top_sort : Circuit → res (list Gate)) (candidates_limit : Z)
      (instance b0 b1 : CircuitSatInstance) (cands : list Label) (l : Label),
      _rank_candidates candidates_limit instance = Ok cands
      ∧ l ∈ cands
      ∧ assign top_sort l false instance = Ok (CONFLICT, b0)
      ∧ assign top_sort l true instance = Ok (CONFLICT, b1).
Proof.
  intros (top_sort & K & instance & b0 & b1 & cands & l & Hc & Hl & H0 & _).
  pose proof (rank_candidates_branchable K instance cands l Hc Hl) as Hb.
  pose proof (assign_false_status top_sort instance l _ _ Hb H0). discriminate.
Qed.

(** C10 (amended): the status of applying the forced value is discarded
    by the driver, and the lookahead tests polarity False before True;
    but a candidate is an INPUT or AND gate, on which polarity False
    never conflicts.  So a forced value is always False, reported after
    polarity True conflicted, its application returns OK, and the driver
    continues one level deeper on the instance simplified under it. *)
Theorem C10_forced_value_applies
    (top_sort : Circuit → res (list Gate)) (max_depth candidates_limit : Z)
    (instance : CircuitSatInstance) (sel : _CubeGateSelection) (fv : bool) :
  _select_gate top_sort candidates_limit instance = Ok (Some sel) →
  forced_value sel = Some fv →
  fv = false
  ∧ branchable (circuit instance) (sel_label sel)
  ∧ (∃ b, assign top_sort (sel_label sel) true instance = Ok (CONFLICT, b))
  ∧ ∃ instance',
      assign top_sort (sel_label sel) fv instance = Ok (OK, instance')
      ∧ ∀ depth, _should_stop max_depth instance depth = false →
          _cube top_sort max_depth candidates_limit instance depth
          = _cube top_sort max_depth candidates_limit instance' (depth + 1).
Proof.
  intros Hsel Hfv. pose proof Hsel as Hsel0.
  unfold _select_gate in Hsel. res_inv Hsel. rename a into cands.
  destruct cands as [|l0 cands]; [discriminate|].
  res_inv Hsel. injection Hsel as ->.
  destruct (select_loop_forced _ _ _ _ _ _ _ Ha0 Hfv) as (Hin & wr & Hwr & Hwfv).
  pose proof (rank_candidates_branchable _ _ _ _ Ha Hin) as Hb.
  destruct (weight_gate_forced _ _ _ _ _ Hb Hwr Hwfv) as (-> & [b0 H0] & Ht).
  split; [done|]. split; [exact Hb|]. split; [exact Ht|].
  exists b0. split; [exact H0|].
  intros depth Hstop. eapply cube_forced_step; eauto.
Qed.

Lemma C10_forced_value_applies_witness :
  ∃ instance',
    assign top_sort_insertion "a" false (instance_of forced_circuit)
      = Ok (OK, instance').
Proof.
  destruct (C10_forced_value_applies top_sort_insertion 1 10
              (instance_of forced_circuit) (mkSelection "a" (Some false)) false)
    as (_ & _ & _ & instance' & H & _); [vm_compute; reflexivity..|].
  exists instance'. exact H.
Defined.

(** ** Model reconstruction (C7) *)


Section ModelFacts.
Variable result : PySatResult.
Hypothesis Hmodel : is_Some (model result).



End ModelFacts.

Lemma conquer_skips_unsat is_satisfiable pre rest :
  Forall (fun i => answer (is_satisfiable (cnf i)) = false) pre →
  conquer is_satisfiable (pre ++ rest) = conquer is_satisfiable rest.
Proof.
  induction 1 as [|i pre Hi _ IH]; [done|]. simpl. by rewrite Hi.
Qed.




(** ** The simplifier run twice (C5) *)

Lemma od_mem_app {V} (d1 d2 : odict V) k :
  od_mem (d1 ++ d2) k = od_mem d1 k || od_mem d2 k.
Proof. unfold od_mem. rewrite od_get_app. by destruct (od_get d1 k). Qed.

Lemma od_mem_false_keys {V} (d : odict V) k : od_mem d k = false ↔ k ∉ od_keys d.
Proof.
  rewrite <- od_get_None_keys. unfold od_mem.
  destruct (od_get d k); split; intros; done.
Qed.

Lemma od_mem_true_keys {V} (d : odict V) k : od_mem d k = true ↔ k ∈ od_keys d.
Proof.
  destruct (od_mem d k) eqn:H.
  - split; [|done]. intros _. destruct (decide (k ∈ od_keys d)) as [|Hn]; [done|].
    apply od_mem_false_keys in Hn. congruence.
  - apply od_mem_false_keys in H. split; [discriminate | done].
Qed.

Lemma od_get_perm {V} (d1 d2 : odict V) k :
  NoDup (od_keys d1) → Permutation d1 d2 → od_get d1 k = od_get d2 k.
Proof.
  intros Hnd Hp.
  assert (NoDup (od_keys d2)) as Hnd2.
  { unfold od_keys in *. by rewrite <- Hp. }
  destruct (od_get d1 k) as [v|] eqn:H1.
  - symmetry. apply od_get_elem_nodup; [done|].
    apply od_get_Some_elem in H1. by rewrite <- Hp.
  - destruct (od_get d2 k) as [v|] eqn:H2; [|done].
    apply od_get_Some_elem in H2. rewrite <- Hp in H2.
    apply od_get_elem_nodup in H2; [congruence | done].
Qed.

Lemma built_empty : built empty_circuit.
Proof. split; [constructor|]. intros k g H. inversion H. Qed.

Lemma emplace_gate_gates c l t ops c' :
  emplace_gate c l t ops = Ok c' →
  gates c' = gates c ++ [(l, mkGate l t ops)]
  ∧ od_mem (gates c) l = false
  ∧ forallb (od_mem (gates c)) ops = true
  ∧ length ops = arity t
  ∧ outputs c' = outputs c.
Proof.
  unfold emplace_gate. destruct (od_mem (gates c) l); [discriminate|].
  destruct (forallb _ ops); [|discriminate]. cbn [negb].
  destruct (Nat.eqb_spec (length ops) (arity t)); [|discriminate].
  intros [= <-]. done.
Qed.

Lemma forallb_od_mem_app {V} (d1 d2 : odict V) ops :
  forallb (od_mem d1) ops = true → forallb (od_mem (d1 ++ d2)) ops = true.
Proof.
  rewrite !forallb_forall. intros H x Hx. rewrite od_mem_app, (H x Hx). done.
Qed.

Lemma emplace_gate_built c l t ops c' :
  built c → is_constant_type t = false →
  emplace_gate c l t ops = Ok c' → built c'.
Proof.
  intros [Hnd Hall] Ht H.
  apply emplace_gate_gates in H as (Hg & Hl & Hops & Har & _).
  split.
  - rewrite Hg. unfold od_keys in *. rewrite map_app. simpl.
    apply NoDup_app. split; [done|]. split; [|apply NoDup_singleton].
    intros x Hx Hx'. apply list_elem_of_singleton in Hx' as ->.
    apply od_mem_false_keys in Hl. done.
  - intros k g Hin. rewrite Hg in Hin |- *.
    apply elem_of_app in Hin as [Hin | Hin].
    + destruct (Hall k g Hin) as (? & ? & ? & ?).
      repeat split; try done. by apply forallb_od_mem_app.
    + apply list_elem_of_singleton in Hin as [= -> ->]. simpl.
      repeat split; try done. by apply forallb_od_mem_app.
Qed.

Lemma transform_gate_built g st st' :
  built (new_circuit st) → transform_gate g st = Ok st' →
  built (new_circuit st').
Proof.
  intros Hb H. unfold transform_gate in H.
  assert (∀ t ops (k : Circuit → res RcgState),
            is_constant_type t = false →
            (∀ nc, built nc → ∀ r, k nc = Ok r → built (new_circuit r)) →
            ∀ r, (emplace_gate (new_circuit st) (label g) t ops ≫= k) = Ok r →
                 built (new_circuit r)) as Hemp.
  { intros t ops k Ht Hk r Hr. res_inv Hr. eapply Hk; [|exact Hr].
    eapply emplace_gate_built; eauto. }
  assert (∀ nc, built nc → ∀ r, Ok (set_new_circuit st nc) = Ok r →
            built (new_circuit r)) as Hset.
  { intros nc Hnc r [= <-]. exact Hnc. }
  destruct (gate_type g) eqn:Hty;
    try (injection H as <-; exact Hb);
    try (eapply Hemp; [| exact Hset | exact H]; reflexivity).
  all: match type of H with
       | match ?ci with _ => _ end = _ => destruct ci as [|const_idx ?]
       end;
    try (eapply Hemp; [| exact Hset | exact H]; reflexivity).
  all: destruct (_ && _);
    [ do 5 res_inv H;
      repeat match type of H with
             | (if ?b then _ else _) = _ => destruct b
             | match ?o with _ => _ end = _ => destruct o
             end;
      try discriminate;
      try (injection H as <-; exact Hb);
      try (res_inv H; injection H as <-; exact Hb);
      try (eapply Hemp; [| exact Hset | exact H]; reflexivity)
    | destruct (Nat.eqb _ _); [|discriminate];
      do 2 res_inv H; injection H as <-; exact Hb ].
Qed.

Lemma transform_loop_built order : ∀ st st',
  built (new_circuit st) → transform_loop order st = Ok st' →
  built (new_circuit st').
Proof.
  induction order as [|g order IH]; simpl; intros st st' Hb H.
  - by injection H as <-.
  - res_inv H. eapply IH; [|exact H]. eapply transform_gate_built; eauto.
Qed.

(** What the first run leaves. *)
Lemma transform_with_built order c c1 :
  transform_with order c = Ok c1 →
  built c1
  ∧ forallb (od_mem (gates c1)) (inputs c1) = true
  ∧ forallb (od_mem (gates c1)) (outputs c1) = true.
Proof.
  unfold transform_with. intros H. res_inv H. rename a into st.
  apply transform_loop_built in Ha; [|apply built_empty].
  res_inv H. rename a into nc1.
  unfold set_inputs in Ha0. destruct (forallb _ _) eqn:Hin in Ha0; [|discriminate].
  injection Ha0 as <-.
  unfold set_outputs in H. cbn [gates] in H.
  destruct (forallb _ _) eqn:Hout in H; [|discriminate].
  injection H as <-. cbn [gates inputs outputs]. done.
Qed.

Lemma resolve_label_empty ops : map (resolve_label ∅) ops = ops.
Proof.
  induction ops as [|op ops IH]; simpl; [done|].
  rewrite IH. unfold resolve_label. by rewrite lookup_empty.
Qed.

Lemma const_indices_empty ops : ∀ i, const_indices_from i ∅ ops = [].
Proof.
  induction ops as [|op ops IH]; intros i; simpl; [done|].
  unfold in_const_map. rewrite lookup_empty.
  rewrite bool_decide_eq_false_2 by (intros [? ?]; discriminate). apply IH.
Qed.

(** On a gate that is no constant, with nothing known constant and
    nothing remapped, the loop body re-emplaces the gate. *)
Lemma transform_gate_plain g nc :
  is_constant_type (gate_type g) = false →
  transform_gate g (mkRcg nc ∅ ∅)
  = (nc' ← emplace_gate nc (label g) (gate_type g) (operands g);
     Ok (mkRcg nc' ∅ ∅)).
Proof.
  intros Hty. unfold transform_gate. cbn [label_remap const_map new_circuit].
  rewrite resolve_label_empty, const_indices_empty.
  destruct (gate_type g); try reflexivity; discriminate.
Qed.

Lemma od_get_entries_label gs k g : od_get (entries gs) k = Some g → k ∈ map label gs.
Proof.
  intros H. apply od_get_Some_elem in H. unfold entries in H.
  apply list_elem_of_fmap in H as (g' & [= -> ->] & Hin).
  apply list_elem_of_fmap. by exists g'.
Qed.

Lemma od_mem_entries gs k : od_mem (entries gs) k = true ↔ k ∈ map label gs.
Proof.
  rewrite od_mem_true_keys. unfold od_keys, entries. rewrite map_map. done.
Qed.

Lemma second_run_loop c1 post : ∀ pre seen nc,
  gates nc = entries pre →
  (∀ l, l ∈ seen ↔ l ∈ map label pre) →
  NoDup (map label (pre ++ post)) →
  (∀ g, g ∈ post →
     is_constant_type (gate_type g) = false
     ∧ length (operands g) = arity (gate_type g)
     ∧ forallb (od_mem (gates c1)) (operands g) = true) →
  operands_first c1 seen post = true →
  ∃ nc', transform_loop post (mkRcg nc ∅ ∅) = Ok (mkRcg nc' ∅ ∅)
         ∧ gates nc' = entries (pre ++ post).
Proof.
  induction post as [|g post IH]; intros pre seen nc Hg Hseen Hnd Hall Hof.
  - exists nc. split; [done|]. by rewrite app_nil_r.
  - cbn [transform_loop operands_first] in *.
    apply andb_prop in Hof as [Hops Hof].
    destruct (Hall g) as (Hty & Har & Hmem); [left|].
    rewrite transform_gate_plain by done.
    assert (∃ nc1, emplace_gate nc (label g) (gate_type g) (operands g) = Ok nc1
                   ∧ gates nc1 = entries (pre ++ [g])) as (nc1 & Hemp & Hg1).
    { unfold emplace_gate. rewrite Hg.
      assert (od_mem (entries pre) (label g) = false) as ->.
      { apply od_mem_false_keys. unfold od_keys, entries. rewrite map_map. simpl.
        rewrite map_app in Hnd. apply NoDup_app in Hnd as (_ & Hnd & _).
        intros Hin. apply (Hnd _ Hin). left. }
      assert (forallb (od_mem (entries pre)) (operands g) = true) as ->.
      { apply forallb_forall. intros op Hop.
        rewrite forallb_forall in Hops, Hmem.
        specialize (Hops op Hop). specialize (Hmem op Hop).
        rewrite Hmem in Hops. cbn [negb orb] in Hops.
        apply od_mem_entries, Hseen. unfold label_in in Hops.
        apply bool_decide_eq_true_1 in Hops. done. }
      cbn [negb]. rewrite (proj2 (Nat.eqb_eq _ _) Har). cbn [negb].
      eexists. split; [reflexivity|]. cbn [gates].
      unfold entries. rewrite map_app. simpl. by destruct g. }
    rewrite Hemp. cbn [mbind res_bind].
    destruct (IH (pre ++ [g]) (label g :: seen) nc1) as (nc' & Hrun & Hg').
    + exact Hg1.
    + intros l. rewrite map_app, elem_of_app, elem_of_cons, Hseen. simpl.
      rewrite list_elem_of_singleton. tauto.
    + by rewrite <- app_assoc.
    + intros g' Hg'. apply Hall. by right.
    + exact Hof.
    + exists nc'. split; [exact Hrun|]. by rewrite <- app_assoc in Hg'.
Qed.

Lemma entries_of_values (d : odict Gate) :
  (∀ k g, (k, g) ∈ d → k = label g) → d = entries (od_values d).
Proof.
  unfold entries, od_values. rewrite map_map.
  induction d as [|[k g] d IH]; intros Hall; [done|]. simpl.
  rewrite (Hall k g) by left. f_equal. apply IH.
  intros k' g' Hin. apply Hall. by right.
Qed.

Lemma built_gates_entries c : built c → gates c = entries (od_values (gates c)).
Proof.
  intros [_ Hall]. apply entries_of_values.
  intros k g Hin. by destruct (Hall k g Hin).
Qed.

Lemma filter_const_empty (ls : list Label) :
  filter (fun l : Label => in_const_map ∅ l = false) ls = ls.
Proof.
  induction ls as [|l ls IH]; [done|].
  rewrite filter_cons_True; [by rewrite IH|].
  unfold in_const_map. rewrite lookup_empty.
  apply bool_decide_eq_false_2. intros [? ?]. discriminate.
Qed.

Lemma second_run c1 order1 :
  built c1 →
  forallb (od_mem (gates c1)) (inputs c1) = true →
  forallb (od_mem (gates c1)) (outputs c1) = true →
  is_top_sort c1 order1 →
  ∃ c2, check_arities c1 = Ok tt
        ∧ transform_with order1 c1 = Ok c2
        ∧ same_circuit c2 c1.
Proof.
  intros Hb Hin Hout [Hperm Hof]. pose proof Hb as [Hnd Hall].
  assert (Hvals : ∀ g, g ∈ od_values (gates c1) →
     is_constant_type (gate_type g) = false
     ∧ length (operands g) = arity (gate_type g)
     ∧ forallb (od_mem (gates c1)) (operands g) = true).
  { intros g Hg. unfold od_values in Hg.
    apply list_elem_of_fmap in Hg as ([k g'] & -> & Hg).
    destruct (Hall k g' Hg) as (_ & ? & ? & ?). done. }
  destruct (second_run_loop c1 order1 [] [] empty_circuit) as (nc & Hrun & Hg).
  - done.
  - intros l. simpl. done.
  - simpl. rewrite Hperm.
    rewrite (built_gates_entries c1 Hb) in Hnd. unfold od_keys, entries in Hnd.
    by rewrite map_map in Hnd.
  - intros g Hg. apply Hvals. by rewrite <- Hperm.
  - exact Hof.
  - simpl in Hg.
    assert (Permutation (gates nc) (gates c1)) as Hpg.
    { rewrite Hg, (built_gates_entries c1 Hb). by apply Permutation_map. }
    assert (∀ l, od_get (gates nc) l = od_get (gates c1) l) as Hget.
    { intros l. symmetry. apply od_get_perm; [done | by symmetry]. }
    assert (∀ ls, forallb (od_mem (gates c1)) ls = true →
                  forallb (od_mem (gates nc)) ls = true) as Hmem.
    { intros ls. rewrite !forallb_forall. intros H x Hx.
      specialize (H x Hx). unfold od_mem in *. by rewrite Hget. }
    eexists. split; [|split].
    + unfold check_arities.
      assert (forallb (fun g => Nat.leb (length (operands g)) 2)
                (od_values (gates c1)) = true) as ->; [|done].
      apply forallb_forall. intros g Hg'. apply list_elem_of_In in Hg'.
      destruct (Hvals g Hg') as (_ & Har & _). rewrite Har.
      by destruct (gate_type g).
    + unfold transform_with. rewrite Hrun. cbn [mbind res_bind const_map label_remap new_circuit].
      rewrite filter_const_empty, resolve_label_empty, filter_const_empty.
      unfold set_inputs. rewrite (Hmem _ Hin). cbn [mbind res_bind].
      unfold set_outputs. cbn [gates]. rewrite (Hmem _ Hout). reflexivity.
    + repeat split; cbn [gates inputs outputs]; done.
Qed.

(** C5: when the simplifier succeeds on a circuit and [top_sort] yields
    a topological order of its output, running it again succeeds and
    gives a circuit with the same gates up to creation order, the same
    inputs and the same outputs. *)
Theorem C5_simplifier_idempotent (top_sort : Circuit → res (list Gate))
    (c c1 : Circuit) (order1 : list Gate) :
  _transform top_sort c = Ok c1 →
  top_sort c1 = Ok order1 →
  is_top_sort c1 order1 →
  ∃ c2, _transform top_sort c1 = Ok c2 ∧ same_circuit c2 c1.
Proof.
  intros H1 Hts Hord. unfold _transform in H1. do 2 res_inv H1.
  apply transform_with_built in H1 as (Hb & Hin & Hout).
  destruct (second_run c1 order1 Hb Hin Hout Hord) as (c2 & Hchk & Hrun & Hsame).
  exists c2. split; [|exact Hsame].
  unfold _transform. rewrite Hchk, Hts. exact Hrun.
Qed.

Lemma C5_simplifier_idempotent_witness :
  od_values (gates simplified_circuit)
    = [mkGate "x" INPUT []; mkGate "n" NOT ["x"]]
  ∧ ∃ c2, _transform top_sort_insertion simplified_circuit = Ok c2
          ∧ same_circuit c2 simplified_circuit.
Proof.
  split; [vm_compute; reflexivity|].
  apply (C5_simplifier_idempotent top_sort_insertion constant_circuit
           simplified_circuit (od_values (gates simplified_circuit))).
  - vm_compute. reflexivity.
  - reflexivity.
  - split; [reflexivity | vm_compute; reflexivity].
Defined.

(** ** Deep copies do not share (C4) *)

Lemma prefix_alloc (h0 h : heap) o :
  h0 `prefix_of` h → h0 `prefix_of` (alloc o h).2.
Proof. intros [k ->]. exists (k ++ [o]). simpl. by rewrite app_assoc. Qed.










Section StoreFacts.
Variable top_sort : Circuit → res (list Gate).





End StoreFacts.


(** *** The store methods compute what the pure ones do *)

Lemma load_configs_keys (h : heap) d gcs :
  load_configs h d = Some gcs → od_keys gcs = od_keys d.
Proof.
  revert gcs. induction d as [|[l r] d IH]; intros gcs H; simpl in H.
  - by injection H as <-.
  - destruct (h !! r) as [[| | | | |gc]|]; try discriminate.
    destruct (load_configs h d) as [gcs'|]; [|discriminate].
    injection H as <-. unfold od_keys in *. simpl. by rewrite (IH gcs' eq_refl).
Qed.

Lemma load_configs_refs (h : heap) d gcs r :
  load_configs h d = Some gcs → r ∈ map snd d →
  ∃ gc, h !! r = Some (GateConfigObj gc).
Proof.
  revert gcs. induction d as [|[l r0] d IH]; intros gcs H Hr; simpl in *.
  - inversion Hr.
  - destruct (h !! r0) as [[| | | | |gc]|] eqn:H0; try discriminate.
    destruct (load_configs h d) as [gcs'|]; [|discriminate].
    apply elem_of_cons in Hr as [-> | Hr]; [eauto|]. by eapply IH.
Qed.

Lemma write_configs_other d : ∀ gcs (h : heap) x,
  x ∉ map snd d → write_configs d gcs h !! x = h !! x.
Proof.
  induction d as [|[l r] d IH]; intros gcs h x Hx; [done|].
  destruct gcs as [|[l' gc] gcs]; [done|]. simpl in *.
  apply not_elem_of_cons in Hx as [Hne Hx].
  rewrite IH by done. by rewrite list_lookup_insert_ne.
Qed.

Lemma write_configs_load d : ∀ gcs (h : heap),
  NoDup (map snd d) → od_keys gcs = od_keys d →
  (∀ r, r ∈ map snd d → (r < length h)%nat) →
  load_configs (write_configs d gcs h) d = Some gcs.
Proof.
  induction d as [|[l r] d IH]; intros gcs h Hnd Hk Hlt.
  - destruct gcs; [done | discriminate].
  - destruct gcs as [|[l' gc] gcs]; [discriminate|].
    injection Hk as -> Hk. simpl in Hnd. apply NoDup_cons in Hnd as [Hr Hnd].
    cbn [write_configs load_configs].
    rewrite write_configs_other by done.
    rewrite list_lookup_insert_eq by (apply Hlt; left).
    rewrite IH; [done | done | done |].
    intros r' Hr'. rewrite length_insert. apply Hlt. by right.
Qed.

Section StoreRefinement.
Variable top_sort : Circuit → res (list Gate).

Lemma h_assign_and_propagate_refines (h : heap) q l v self st self' :
  load h q = Some self → NoDup (config_refs h q) →
  _assign_and_propagate l v self = Ok (st, self') →
  ∃ h', h_assign_and_propagate q l v h = Ok (st, h')
        ∧ load h' q = Some self'
        ∧ config_refs h' q = config_refs h q.
Proof.
  intros Hload Hnd Hrun. unfold h_assign_and_propagate, load_res.
  rewrite Hload. cbn [mbind res_bind]. rewrite Hrun. cbn [mbind res_bind].
  pose proof (assign_rec_kept _ _ _ _ _ _ Hrun) as (_ & Hidx & _).
  unfold load in Hload. unfold config_refs in *.
  destruct (h !! q) as [[pc pf pg| | | | |]|] eqn:Hq; try discriminate.
  destruct (h !! pc) as [[|c| | | |]|] eqn:Hc; try discriminate.
  destruct (h !! pf) as [[| |pr vm| | |]|] eqn:Hf; try discriminate.
  destruct (h !! pg) as [[| | | |d|]|] eqn:Hg; try discriminate.
  destruct (h !! pr) as [[| | |raw| |]|] eqn:Hr; try discriminate.
  destruct (load_configs h d) as [gcs|] eqn:Hl; [|discriminate].
  injection Hload as <-. cbn [gates_config] in Hidx.
  eexists. split; [reflexivity|].
  set (h1 := <[pr := ListObj (_cnf (cnf self'))]> (<[pc := CircuitObj (circuit self')]> h)).
  assert (∀ x o, h !! x = Some o → ¬ data_cell o →
            write_configs d (gates_config self') h1 !! x = Some o) as Hkeep.
  { intros x o Hx Ho. rewrite write_configs_other.
    - unfold h1. rewrite !list_lookup_insert_ne; [done | |];
        intros <-; [rewrite Hc in Hx | rewrite Hr in Hx];
        injection Hx as <-; by apply Ho.
    - intros Hin. destruct (load_configs_refs _ _ _ _ Hl Hin) as [gc Hgc].
      rewrite Hgc in Hx. injection Hx as <-. by apply Ho. }
  assert ((pc ∉ map snd d) ∧ (pr ∉ map snd d)) as [Hpcd Hprd].
  { split; intros Hin; destruct (load_configs_refs _ _ _ _ Hl Hin) as [gc Hgc];
      congruence. }
  assert (pc ≠ pr) as Hne by congruence.
  assert (od_keys (gates_config self') = od_keys d) as Hkeys.
  { rewrite <- (load_configs_keys _ _ _ Hl). unfold od_keys.
    apply (f_equal (map fst)) in Hidx. unfold config_indices in Hidx.
    by rewrite !map_map in Hidx. }
  split.
  - unfold load. rewrite (Hkeep q _ Hq) by (by intros []).
    rewrite (Hkeep pf _ Hf) by (by intros []).
    rewrite (Hkeep pg _ Hg) by (by intros []).
    rewrite !write_configs_other by done. unfold h1.
    rewrite list_lookup_insert_ne by done.
    rewrite list_lookup_insert_eq by (by eapply lookup_lt_Some).
    rewrite list_lookup_insert_eq
      by (rewrite length_insert; by eapply lookup_lt_Some).
    fold h1. rewrite write_configs_load; [| done | done |].
    + pose proof (assign_rec_kept _ _ _ _ _ _ Hrun) as (Hvm & _ & _).
      cbn [cnf _var_map] in Hvm. cbn [mbind option_bind]. rewrite <- Hvm.
      by destruct self' as [? [? ?] ?].
    + intros r Hin. destruct (load_configs_refs _ _ _ _ Hl Hin) as [gc Hgc].
      unfold h1. rewrite !length_insert. by eapply lookup_lt_Some.
  - rewrite (Hkeep q _ Hq) by (by intros []).
    rewrite (Hkeep pg _ Hg) by (by intros []). done.
Qed.

Lemma h_simplify_refines (h : heap) q self self' :
  load h q = Some self → simplify top_sort self = Ok self' →
  ∃ h', h_simplify top_sort q h = Ok h'
        ∧ load h' q = Some self'
        ∧ config_refs h' q = config_refs h q.
Proof.
  intros Hload Hrun. unfold h_simplify, load_res. rewrite Hload.
  cbn [mbind res_bind]. unfold simplify in Hrun. res_inv Hrun. rename a into c'.
  injection Hrun as <-. rewrite Ha. cbn [mbind res_bind].
  unfold load in Hload. unfold config_refs.
  destruct (h !! q) as [[pc pf pg| | | | |]|] eqn:Hq; try discriminate.
  destruct (h !! pc) as [[|c| | | |]|] eqn:Hc; try discriminate.
  destruct (h !! pf) as [[| |pr vm| | |]|] eqn:Hf; try discriminate.
  destruct (h !! pg) as [[| | | |d|]|] eqn:Hg; try discriminate.
  destruct (h !! pr) as [[| | |raw| |]|] eqn:Hr; try discriminate.
  destruct (load_configs h d) as [gcs|] eqn:Hl; [|discriminate].
  injection Hload as <-. cbn [alloc]. eexists. split; [reflexivity|].
  assert (q < length h)%nat as Hqlt by (by eapply lookup_lt_Some).
  set (h1 := <[q := InstanceObj (length h) pf pg]> (h ++ [CircuitObj c'])).
  assert (h1 !! q = Some (InstanceObj (length h) pf pg)) as Hq1.
  { unfold h1. apply list_lookup_insert_eq. rewrite length_app. lia. }
  assert (∀ x o, h !! x = Some o → x ≠ q → h1 !! x = Some o) as Hkeep.
  { intros x o Hx Hne. unfold h1. rewrite list_lookup_insert_ne by done.
    by apply lookup_app_l_Some. }
  assert (h1 !! length h = Some (CircuitObj c')) as Hc1.
  { unfold h1. rewrite list_lookup_insert_ne by lia. by apply list_lookup_middle. }
  assert (load_configs h1 d = Some gcs) as Hl1.
  { clear -Hl Hkeep Hq. revert gcs Hl.
    induction d as [|[l r] d IH]; intros gcs Hl; [done|]. simpl in *.
    destruct (h !! r) as [[| | | | |gc]|] eqn:Hr; try discriminate.
    rewrite (Hkeep r _ Hr) by congruence.
    destruct (load_configs h d) as [gcs'|]; [|discriminate].
    by rewrite (IH gcs' eq_refl). }
  split.
  - unfold load. rewrite Hq1, Hc1.
    rewrite (Hkeep pf _ Hf) by congruence.
    rewrite (Hkeep pg _ Hg) by congruence.
    rewrite (Hkeep pr _ Hr) by congruence.
    by rewrite Hl1.
  - rewrite Hq1. rewrite (Hkeep pg _ Hg) by congruence. done.
Qed.

(** On an instance whose [GateConfig] objects are distinct, [assign]
    through the reference leaves in the store what the method computes. *)
Lemma h_assign_refines (h : heap) q l v self st self' :
  load h q = Some self → NoDup (config_refs h q) →
  assign top_sort l v self = Ok (st, self') →
  ∃ h', h_assign top_sort q l v h = Ok (st, h')
        ∧ load h' q = Some self'
        ∧ config_refs h' q = config_refs h q.
Proof.
  intros Hload Hnd Hrun. unfold assign in Hrun. res_inv Hrun.
  destruct a as [st1 self1].
  destruct (h_assign_and_propagate_refines h q l v self st1 self1 Hload Hnd Ha)
    as (h1 & Hrun1 & Hload1 & Hrefs1).
  unfold h_assign. rewrite Hrun1. cbn [mbind res_bind].
  case_decide.
  - res_inv Hrun. injection Hrun as <- <-.
    destruct (h_simplify_refines h1 q self1 a Hload1 Ha0) as (h2 & Hrun2 & Hload2 & Hrefs2).
    rewrite Hrun2. cbn [mbind res_bind]. exists h2.
    split; [done|]. split; [done | congruence].
  - injection Hrun as <- <-. by exists h1.
Qed.

End StoreRefinement.


(** With a shallow copy instead, the same call through the copy changes
    what the original reads: the store model tells the two apart. *)
Example shallow_copy_shares :
  ∃ q h1 st h2,
    shallow_copy forced_store.1 forced_store.2 = Some (q, h1)
    ∧ h_assign top_sort_insertion q "a" false h1 = Ok (st, h2)
    ∧ load h2 forced_store.1 ≠ load forced_store.2 forced_store.1.
Proof.
  do 4 eexists. split; [vm_compute; reflexivity|].
  split; [vm_compute; reflexivity|].
  vm_compute. discriminate.
Qed.

(** ** The Tseytin encoder (C1) *)

(** *** The state of the traversal *)

Lemma is_saved_true l s : is_saved l s = true ↔ saved s l.
Proof. unfold is_saved, saved. apply bool_decide_eq_true. Qed.

Lemma is_saved_false l s : is_saved l s = false ↔ ¬ saved s l.
Proof. unfold is_saved, saved. apply bool_decide_eq_false. Qed.

Lemma saved_weaken s s' l :
  saved_lits s ⊆ saved_lits s' → saved s l → saved s' l.
Proof. intros Hsub [v Hv]. exists v. by eapply lookup_weaken. Qed.

Lemma var_of_weaken (vm vm' : VarMap) l :
  vm ⊆ vm' → is_Some (vm !! l) → var_of vm' l = var_of vm l.
Proof.
  intros Hsub [v Hv]. unfold var_of.
  by rewrite Hv, (lookup_weaken _ _ _ _ Hv Hsub).
Qed.

Lemma saved_item_saved l s :
  saved s l → saved_item l s = (var_of (saved_lits s) l, s).
Proof. intros [v Hv]. unfold saved_item, var_of. by rewrite Hv. Qed.

Lemma saved_items_saved ops : ∀ s,
  (∀ op, op ∈ ops → saved s op) →
  saved_items ops s = (map (var_of (saved_lits s)) ops, s).
Proof.
  induction ops as [|op ops IH]; intros s Hall; [done|].
  cbn [saved_items]. rewrite saved_item_saved by (apply Hall; left).
  rewrite IH by (intros; apply Hall; by right). done.
Qed.

(** The loop over [reversed(gate.operands)] pushes the operands that have
    no literal yet, the first operand on top. *)
Lemma push_operands_eq g l rest s :
  push_operands g l rest s
  = map (fun op => (op, false)) (filter (fun op => ¬ saved s op) (operands g))
    ++ (l, true) :: rest.
Proof.
  unfold push_operands. generalize ((l, true) :: rest) as st.
  induction (operands g) as [|op ops IH]; intros st; [done|].
  simpl rev. rewrite fold_left_app. cbn [fold_left]. rewrite IH.
  destruct (is_saved op s) eqn:Hs.
  - apply is_saved_true in Hs. by rewrite filter_cons_False by (by intros ?).
  - apply is_saved_false in Hs. by rewrite filter_cons_True.
Qed.

Lemma encode_gate_aig g lits top s :
  aig_type (gate_type g) → (gate_type g = NOT → lits ≠ []) →
  encode_gate g lits top s
  = Ok {| next_lit := next_lit s; saved_lits := saved_lits s;
          ts_cnf := ts_cnf s ++ code_clauses (gate_type g) top lits |}.
Proof.
  intros Hty Hnot. unfold encode_gate, code_clauses, emit.
  destruct (gate_type g) eqn:Hg;
    try (exfalso; destruct Hty as [|[|[|[|]]]]; discriminate).
  - destruct s. simpl. by rewrite app_nil_r.
  - assert (∀ common s0,
      fold_left (fun '(common, s) lit =>
                   (common ++ [- lit],
                    {| next_lit := next_lit s; saved_lits := saved_lits s;
                       ts_cnf := ts_cnf s ++ [[lit; - top]] |}))
                lits (common, s0)
      = (common ++ map Z.opp lits,
         {| next_lit := next_lit s0; saved_lits := saved_lits s0;
            ts_cnf := ts_cnf s0 ++ map (fun lit => [lit; - top]) lits |})) as Hfold.
    { induction lits as [|lit lits IH]; intros common s0; simpl.
      - rewrite !app_nil_r. by destruct s0.
      - rewrite IH; [|done]. simpl. by rewrite <- !app_assoc. }
    rewrite Hfold. simpl. by rewrite <- app_assoc.
  - destruct lits as [|l0 lits]; [by destruct Hnot|].
    simpl. by rewrite <- app_assoc.
  - done.
  - done.
Qed.

(** The code's clauses are the spec's, clause by clause as literal sets. *)
Lemma code_clauses_spec ty top lits :
  aig_type ty → length lits = arity ty →
  same_clauses (code_clauses ty top lits) (spec_clauses ty top lits).
Proof.
  intros Hty Har. unfold same_clauses.
  destruct ty; try (exfalso; destruct Hty as [|[|[|[|]]]]; discriminate);
    simpl in *.
  - constructor.
  - destruct lits as [|a [|b [|? ?]]]; try discriminate. simpl.
    repeat constructor.
    change [top; - a; - b] with ([top] ++ [- a; - b]).
    change [- a; - b; top] with ([- a; - b] ++ [top]).
    apply Permutation_app_comm.
  - destruct lits as [|a [|? ?]]; try discriminate. repeat constructor.
  - repeat constructor.
  - repeat constructor.
Qed.

Lemma gate_code_clauses_weaken c s s' x :
  closed c s → saved s x → saved_lits s ⊆ saved_lits s' →
  gate_code_clauses c (saved_lits s') x = gate_code_clauses c (saved_lits s) x.
Proof.
  intros Hcl Hx Hsub. unfold gate_code_clauses.
  destruct (od_get (gates c) x) as [g|] eqn:Hg; [|done].
  rewrite (var_of_weaken _ _ x Hsub Hx). f_equal.
  apply map_ext_in. intros op Hop. apply var_of_weaken; [done|].
  eapply Hcl; [exact Hx | exact Hg | by apply list_elem_of_In].
Qed.

(** *** The step budget *)

Lemma unsaved_weight_same c s s' :
  saved_lits s' = saved_lits s → unsaved_weight c s' = unsaved_weight c s.
Proof. intros H. unfold unsaved_weight, is_saved. by rewrite H. Qed.

Lemma unsaved_weight_insert c s s' l g v :
  NoDup (od_keys (gates c)) → od_get (gates c) l = Some g → ¬ saved s l →
  saved_lits s' = <[l := v]> (saved_lits s) →
  (unsaved_weight c s' + S (length (operands g)) = unsaved_weight c s)%nat.
Proof.
  intros Hnd Hg Hl Hs'. unfold unsaved_weight.
  assert (∀ k, is_saved k s' = if decide (k = l) then true else is_saved k s) as Hk.
  { intros k. unfold is_saved. rewrite Hs'. destruct (decide (k = l)) as [->|Hne].
    - rewrite lookup_insert_eq. by apply bool_decide_eq_true_2.
    - by rewrite lookup_insert_ne. }
  unfold od_keys in Hnd. revert Hnd Hg.
  induction (gates c) as [|[k g'] d IH]; simpl; intros Hnd Hg; [discriminate|].
  apply NoDup_cons in Hnd as [Hk' Hnd]. rewrite Hk.
  destruct (decide (k = l)) as [->|Hne].
  - injection Hg as ->.
    apply is_saved_false in Hl. rewrite Hl.
    assert (∀ d0 : list (Label * Gate), l ∉ map fst d0 →
      list_sum (map (fun kg : Label * Gate =>
         if is_saved kg.1 s' then 0%nat else S (length (operands kg.2))) d0)
      = list_sum (map (fun kg : Label * Gate =>
         if is_saved kg.1 s then 0%nat else S (length (operands kg.2))) d0)) as Hsame.
    { clear -Hk. induction d0 as [|[k0 g0] d0 IH0]; simpl; intros Hnot; [done|].
      apply not_elem_of_cons in Hnot as [Hne Hnot]. rewrite Hk.
      rewrite decide_False by done. by rewrite IH0. }
    rewrite Hsame by done. simpl. lia.
  - specialize (IH Hnd Hg).
    destruct (is_saved k s); simpl; lia.
Qed.

Lemma unsaved_weight_budget c s : (unsaved_weight c s < tseytin_budget c)%nat.
Proof.
  unfold unsaved_weight, tseytin_budget.
  apply Nat.lt_succ_r. induction (gates c) as [|[k g] d IH]; simpl; [done|].
  destruct (is_saved k s); lia.
Qed.

(** *** Reachability and rank *)

Lemma reaches_rank c (rank : Label → nat) :
  (∀ l g op, od_get (gates c) l = Some g → op ∈ operands g →
     (rank op < rank l)%nat) →
  ∀ a b, reaches c a b → (rank b ≤ rank a)%nat.
Proof.
  intros Hrank a b H. induction H as [|l g op x Hg Hop _ IH]; [done|].
  specialize (Hrank l g op Hg Hop). lia.
Qed.

Lemma reaches_saved c s a b :
  closed c s → saved s a → reaches c a b → saved s b.
Proof.
  intros Hcl Ha H. induction H as [|l g op x Hg Hop _ IH]; [done|].
  apply IH. eapply Hcl; eauto.
Qed.

Lemma reaches_trans_step c l g op x :
  od_get (gates c) l = Some g → op ∈ operands g → reaches c op x → reaches c l x.
Proof. apply reaches_step. Qed.

(** *** Composition of traversal segments *)

Lemma visits_refl c s : closed c s → visits c s s [].
Proof.
  intros Hcl. split; [done|]. split; [done|]. split.
  { intros x. split; [by left | intros [?|H]; [done | inversion H]]. }
  split; [constructor | intros x H; inversion H].
Qed.

Lemma visits_trans c s s1 s2 seg1 seg2 :
  visits c s s1 seg1 → visits c s1 s2 seg2 → visits c s s2 (seg1 ++ seg2).
Proof.
  intros (Hcl1 & Hsub1 & Hsv1 & Hnd1 & Hnew1)
         (Hcl2 & Hsub2 & Hsv2 & Hnd2 & Hnew2).
  split; [done|]. split; [by etrans|]. split.
  { intros x. rewrite Hsv2, Hsv1, elem_of_app. tauto. }
  split.
  { apply NoDup_app. split; [done|]. split; [|done].
    intros x Hx1 Hx2. apply (Hnew2 x Hx2). apply Hsv1. by right. }
  intros x Hx. apply elem_of_app in Hx as [Hx | Hx]; [by apply Hnew1|].
  intros Hs. apply (Hnew2 x Hx). by eapply saved_weaken.
Qed.

Lemma encodes_refl c s : closed c s → encodes c s s [].
Proof.
  intros Hcl. split; [by apply visits_refl|]. simpl. by rewrite app_nil_r.
Qed.

Lemma encodes_trans c s s1 s2 seg1 seg2 :
  encodes c s s1 seg1 → encodes c s1 s2 seg2 → encodes c s s2 (seg1 ++ seg2).
Proof.
  intros [Hv1 Hcnf1] [Hv2 Hcnf2]. split; [by eapply visits_trans|].
  destruct Hv1 as (Hcl1 & Hsub1 & Hsv1 & Hnd1 & Hnew1).
  destruct Hv2 as (Hcl2 & Hsub2 & Hsv2 & Hnd2 & Hnew2).
  rewrite Hcnf2, Hcnf1, map_app, concat_app, <- app_assoc. do 3 f_equal.
  apply map_ext_in. intros x Hx. symmetry.
  apply gate_code_clauses_weaken; [done | | done].
  apply Hsv1. right. by apply list_elem_of_In.
Qed.

Lemma process_loop_step fuel c l e rest s st' s' :
  (1 ≤ fuel)%nat → process_step c l e rest s = Ok (st', s') →
  process_loop fuel c ((l, e) :: rest) s = process_loop (fuel - 1) c st' s'.
Proof.
  intros Hf Hs. destruct fuel as [|fuel]; [lia|]. cbn [process_loop].
  rewrite Hs. by rewrite Nat.sub_1_r.
Qed.

Lemma process_entries c ops :
  (∀ op, op ∈ ops → entry_ok c op) →
  ∀ s, closed c s →
    ∃ k s' seg,
      (∀ rest fuel, (k ≤ fuel)%nat →
         process_loop fuel c (map (fun op => (op, false)) ops ++ rest) s
         = process_loop (fuel - k) c rest s')
      ∧ (k + unsaved_weight c s' ≤ length ops + unsaved_weight c s)%nat
      ∧ encodes c s s' seg
      ∧ (∀ op, op ∈ ops → saved s' op)
      ∧ (∀ x, x ∈ seg → ∃ op, op ∈ ops ∧ reaches c op x).
Proof.
  induction ops as [|op ops IH]; intros Hall s Hcl.
  - exists O, s, []. split; [intros; by rewrite Nat.sub_0_r|].
    split; [simpl; lia|]. split; [by apply encodes_refl|].
    split; intros x H; inversion H.
  - assert (op ∈ op :: ops) as Hhere by left.
    destruct (Hall op Hhere s Hcl)
      as (k1 & s1 & seg1 & Hrun1 & Hw1 & Henc1 & Hsv1 & Hre1).
    assert (∀ o, o ∈ ops → entry_ok c o) as Hall'.
    { intros o Ho. apply Hall. by right. }
    destruct (IH Hall' s1)
      as (k2 & s2 & seg2 & Hrun2 & Hw2 & Henc2 & Hsv2 & Hre2).
    { apply Henc1. }
    exists (k1 + k2)%nat, s2, (seg1 ++ seg2).
    split.
    { intros rest fuel Hf. simpl. rewrite Hrun1 by lia. rewrite Hrun2 by lia.
      f_equal. lia. }
    split; [simpl; lia|]. split; [by eapply encodes_trans|]. split.
    + intros o Ho. apply elem_of_cons in Ho as [-> | Ho]; [|by apply Hsv2].
      destruct Henc2 as ((_ & Hsub & _) & _). by eapply saved_weaken.
    + intros x Hx. apply elem_of_app in Hx as [Hx | Hx].
      * exists op. split; [left | by apply Hre1].
      * destruct (Hre2 x Hx) as (o & Ho & Hr). exists o. split; [by right | done].
Qed.

Section Traversal.
Variable c : Circuit.
Hypothesis Hc : aig_circuit c.
Variable rank : Label → nat.
Hypothesis Hrank : ∀ l g op,
  od_get (gates c) l = Some g → op ∈ operands g → (rank op < rank l)%nat.

Lemma process_entry n : ∀ l,
  (rank l < n)%nat → is_Some (od_get (gates c) l) → entry_ok c l.
Proof.
  induction n as [|n IH]; intros l Hn [g Hg]; [lia|].
  intros s Hcl. destruct (is_saved l s) eqn:Hsaved.
  { (* already saved: the entry is dropped *)
    exists 1%nat, s, []. split.
    { intros rest fuel Hf. apply process_loop_step; [done|].
      unfold process_step. by rewrite Hsaved. }
    split; [lia|]. split; [by apply encodes_refl|].
    split; [by apply is_saved_true|]. intros x H. inversion H. }
  apply is_saved_false in Hsaved as Hl.
  destruct (aig_types c Hc l g Hg) as [Hty Har].
  set (ops' := filter (fun op => ¬ saved s op) (operands g)).
  assert (∀ op, op ∈ ops' → op ∈ operands g) as Hops'.
  { intros op Hop. by apply list_elem_of_filter in Hop as [_ ?]. }
  destruct (process_entries c ops') with (s := s)
    as (k1 & s1 & seg1 & Hrun1 & Hw1 & Henc1 & Hsv1 & Hre1).
  { intros op Hop. apply IH.
    - specialize (Hrank l g op Hg (Hops' op Hop)). lia.
    - eapply aig_operands; eauto. }
  { exact Hcl. }
  pose proof Henc1 as ((Hcl1 & Hsub1 & Hsvd1 & Hnd1 & Hnew1) & Hcnf1).
  (* every operand has a literal by now, the gate itself has none *)
  assert (∀ op, op ∈ operands g → saved s1 op) as Hopsaved.
  { intros op Hop. destruct (is_saved op s) eqn:Hs.
    - apply is_saved_true in Hs. by eapply saved_weaken.
    - apply is_saved_false in Hs. apply Hsv1. by apply list_elem_of_filter. }
  assert (¬ saved s1 l) as Hl1.
  { intros Hs1. apply Hsvd1 in Hs1 as [? | Hin]; [done|].
    destruct (Hre1 l Hin) as (op & Hop & Hreach).
    pose proof (reaches_rank c rank Hrank op l Hreach).
    specialize (Hrank l g op Hg (Hops' op Hop)). lia. }
  assert (length ops' ≤ length (operands g))%nat as Hlen by apply length_filter.
  set (top := next_lit s1 + 1).
  set (lits := map (var_of (saved_lits s1)) (operands g)).
  set (s' := {| next_lit := top; saved_lits := <[l := top]> (saved_lits s1);
                ts_cnf := ts_cnf s1 ++ code_clauses (gate_type g) top lits |}).
  assert (saved_lits s1 !! l = None) as Hnone.
  { destruct (saved_lits s1 !! l) eqn:E; [|done]. exfalso. apply Hl1. by eexists. }
  assert (saved_lits s1 ⊆ saved_lits s') as Hsub'.
  { simpl. by apply insert_subseteq. }
  assert (∀ rest, process_step c l true rest s1 = Ok (rest, s')) as Hencode.
  { intros rest. unfold process_step.
    rewrite (proj2 (is_saved_false l s1) Hl1). cbn [negb].
    unfold get_gate. rewrite Hg. cbn [mbind res_bind].
    rewrite saved_items_saved by done.
    unfold saved_item. rewrite Hnone.
    rewrite encode_gate_aig; [done | done |].
    intros Hnot. rewrite Hnot in Har. simpl in Har.
    destruct (operands g); [discriminate | done]. }
  assert (gate_code_clauses c (saved_lits s') l
          = code_clauses (gate_type g) top lits) as Hgcc.
  { unfold gate_code_clauses. rewrite Hg. f_equal.
    - unfold var_of. simpl. by rewrite lookup_insert_eq.
    - apply map_ext_in. intros op Hop. apply var_of_weaken; [done|].
      apply Hopsaved. by apply list_elem_of_In. }
  assert (encodes c s1 s' [l]) as Henc'.
  { split; [split|].
    { intros x gx op Hx Hgx Hop. apply (saved_weaken s1 s' op Hsub').
      destruct (decide (x = l)) as [->|Hne].
      - rewrite Hg in Hgx. injection Hgx as <-. by apply Hopsaved.
      - unfold saved in Hx. cbn [saved_lits s'] in Hx.
        rewrite lookup_insert_ne in Hx by done.
        eapply Hcl1; [exact Hx | exact Hgx | exact Hop]. }
    split; [done|]. split.
    { intros x. unfold saved. simpl. rewrite list_elem_of_singleton.
      destruct (decide (x = l)) as [->|Hne].
      - rewrite lookup_insert_eq. split; [by right | by eexists].
      - rewrite lookup_insert_ne by done. split; [by left | intros [?|?]; done]. }
    split; [apply NoDup_singleton|].
    { intros x Hx. by apply list_elem_of_singleton in Hx as ->. }
    cbn [map concat]. by rewrite Hgcc, app_nil_r. }
  exists (S (k1 + 1)), s', (seg1 ++ [l]). split.
  { intros rest fuel Hf.
    rewrite (process_loop_step fuel c l false rest s
               (push_operands g l rest s) s); [|lia|].
    2:{ unfold process_step. rewrite Hsaved. cbn [negb].
        unfold get_gate. by rewrite Hg. }
    rewrite push_operands_eq. fold ops'. rewrite Hrun1 by lia.
    rewrite (process_loop_step _ c l true rest s1 rest s'); [|lia|done].
    f_equal. lia. }
  split.
  { pose proof (unsaved_weight_insert c s1 s' l g top (aig_nodup c Hc) Hg Hl1 eq_refl).
    lia. }
  split; [by eapply encodes_trans|]. split.
  { unfold saved. simpl. rewrite lookup_insert_eq. by eexists. }
  intros x Hx. apply elem_of_app in Hx as [Hx | Hx].
  - destruct (Hre1 x Hx) as (op & Hop & Hreach).
    eapply reaches_step; [exact Hg | by apply Hops' | exact Hreach].
  - apply list_elem_of_singleton in Hx as ->. constructor.
Qed.

End Traversal.

(** *** The checker of the circuit invariants *)

Lemma aig_circuit_b_sound c : aig_circuit_b c = true → aig_circuit c.
Proof.
  unfold aig_circuit_b. intros H.
  apply andb_prop in H as [H Hin]. apply andb_prop in H as [H Hout].
  apply andb_prop in H as [Hnd Hg].
  apply bool_decide_eq_true_1 in Hnd.
  rewrite forallb_forall in Hg, Hout, Hin.
  assert (∀ l g, od_get (gates c) l = Some g → gate_ok_b c (l, g) = true) as Hok.
  { intros l g Hl. apply Hg. apply list_elem_of_In. by apply od_get_Some_elem. }
  split.
  - exact Hnd.
  - intros l g Hl. specialize (Hok l g Hl). unfold gate_ok_b in Hok. simpl in Hok.
    apply andb_prop in Hok as [Hok _]. apply andb_prop in Hok as [Hty Har].
    split; [|by apply Nat.eqb_eq].
    unfold aig_type. destruct (gate_type g); try discriminate; tauto.
  - intros l g op Hl Hop. specialize (Hok l g Hl). unfold gate_ok_b in Hok.
    apply andb_prop in Hok as [_ Hops]. rewrite forallb_forall in Hops.
    specialize (Hops op (proj1 (list_elem_of_In _ _) Hop)).
    apply andb_prop in Hops as [Hmem _]. by apply od_mem_true.
  - intros r Hr. apply od_mem_true, Hout. by apply list_elem_of_In.
  - intros i Hi. specialize (Hin i (proj1 (list_elem_of_In _ _) Hi)).
    unfold input_ok_b in Hin. destruct (od_get (gates c) i) as [g|]; [|discriminate].
    exists g. split; [done|]. by apply bool_decide_eq_true_1 in Hin.
  - exists (position (od_keys (gates c))). intros l g op Hl Hop.
    specialize (Hok l g Hl). unfold gate_ok_b in Hok.
    apply andb_prop in Hok as [_ Hops]. rewrite forallb_forall in Hops.
    specialize (Hops op (proj1 (list_elem_of_In _ _) Hop)).
    apply andb_prop in Hops as [_ Hlt]. by apply Nat.ltb_lt in Hlt.
Qed.

(** *** The initial state and the loop over the outputs *)

Lemma closed_same c s s' :
  saved_lits s' = saved_lits s → closed c s → closed c s'.
Proof. intros H Hcl l g op. unfold saved. rewrite H. apply Hcl. Qed.

Lemma saved_item_state l s :
  ts_cnf (saved_item l s).2 = ts_cnf s
  ∧ ∀ x, saved (saved_item l s).2 x ↔ saved s x ∨ x = l.
Proof.
  unfold saved_item, saved. destruct (saved_lits s !! l) as [v|] eqn:Hl; simpl.
  - split; [done|]. intros x. split; [by left|].
    intros [? | ->]; [done | by eexists].
  - split; [done|]. intros x. destruct (decide (x = l)) as [->|Hne].
    + rewrite lookup_insert_eq. split; [by right | intros _; by eexists].
    + rewrite lookup_insert_ne by done. split; [by left | by intros [?|?]].
Qed.

Lemma init_fold ls : ∀ s,
  ts_cnf (fold_left (fun s l => (saved_item l s).2) ls s) = ts_cnf s
  ∧ ∀ x, saved (fold_left (fun s l => (saved_item l s).2) ls s) x
         ↔ saved s x ∨ x ∈ ls.
Proof.
  induction ls as [|l ls IH]; intros s; cbn [fold_left].
  - split; [done|]. intros x. split; [by left | intros [?|H]; [done | inversion H]].
  - destruct (IH (saved_item l s).2) as [Hcnf Hsv].
    destruct (saved_item_state l s) as [Hcnf1 Hsv1]. split.
    + by rewrite Hcnf.
    + intros x. rewrite Hsv, Hsv1, elem_of_cons. tauto.
Qed.

Lemma init_spec c :
  aig_circuit c →
  ts_cnf (tseytin_init c) = []
  ∧ (∀ x, saved (tseytin_init c) x ↔ x ∈ inputs c)
  ∧ closed c (tseytin_init c).
Proof.
  intros Hc. unfold tseytin_init.
  destruct (init_fold (inputs c) {| next_lit := 0; saved_lits := ∅; ts_cnf := [] |})
    as [Hcnf Hsv].
  assert (∀ x, saved (fold_left (fun s l => (saved_item l s).2) (inputs c)
                        {| next_lit := 0; saved_lits := ∅; ts_cnf := [] |}) x
               ↔ x ∈ inputs c) as Hsv'.
  { intros x. rewrite Hsv. split; [|by right].
    intros [[v Hv] | ?]; [|done]. simpl in Hv. rewrite lookup_empty in Hv.
    discriminate. }
  split; [exact Hcnf|]. split; [exact Hsv'|].
  intros l g op Hl Hg Hop. apply Hsv' in Hl.
  destruct (aig_inputs c Hc l Hl) as (g' & Hg' & Hty).
  rewrite Hg in Hg'. injection Hg' as <-.
  destruct (aig_types c Hc l g Hg) as [_ Har]. rewrite Hty in Har. simpl in Har.
  destruct (operands g); [inversion Hop | discriminate].
Qed.

Lemma zip_with_root_weaken c s s' outs : ∀ segs,
  closed c s → saved_lits s ⊆ saved_lits s' →
  (∀ r, r ∈ outs → saved s r) → (∀ x, x ∈ concat segs → saved s x) →
  zip_with (root_code_clauses c (saved_lits s')) outs segs
  = zip_with (root_code_clauses c (saved_lits s)) outs segs.
Proof.
  induction outs as [|r outs IH]; intros segs Hcl Hsub Hr Hx; [done|].
  destruct segs as [|seg segs]; [done|]. simpl. f_equal.
  - unfold root_code_clauses. rewrite (var_of_weaken _ _ r Hsub) by (apply Hr; left).
    do 2 f_equal. apply map_ext_in. intros x Hin.
    apply gate_code_clauses_weaken; [done | | done].
    apply Hx. simpl. apply elem_of_app. left. by apply list_elem_of_In.
  - apply IH; [done | done | |].
    + intros r' Hr'. apply Hr. by right.
    + intros x Hin. apply Hx. simpl. apply elem_of_app. by right.
Qed.

Lemma process_loop_nil fuel c s : process_loop fuel c [] s = Ok s.
Proof. by destruct fuel. Qed.

Section Outputs.
Variable c : Circuit.
Hypothesis Hc : aig_circuit c.
Variable rank : Label → nat.
Hypothesis Hrank : ∀ l g op,
  od_get (gates c) l = Some g → op ∈ operands g → (rank op < rank l)%nat.

Lemma encode_outputs_spec outs : ∀ s,
  (∀ r, r ∈ outs → is_Some (od_get (gates c) r)) → closed c s →
  ∃ s' segs,
    encode_outputs (tseytin_budget c) c outs s = Ok s'
    ∧ length segs = length outs
    ∧ visits c s s' (concat segs)
    ∧ (∀ r, r ∈ outs → saved s' r)
    ∧ (∀ x, x ∈ concat segs → ∃ r, r ∈ outs ∧ reaches c r x)
    ∧ ts_cnf s'
      = ts_cnf s ++ concat (zip_with (root_code_clauses c (saved_lits s')) outs segs).
Proof.
  induction outs as [|r outs IH]; intros s Hex Hcl.
  - exists s, []. split; [done|]. split; [done|].
    split; [by apply visits_refl|]. split; [intros ? H; inversion H|].
    split; [intros ? H; inversion H|]. simpl. by rewrite app_nil_r.
  - assert (r ∈ r :: outs) as Hhere by left.
    destruct (process_entry c Hc rank Hrank (S (rank r)) r (Nat.lt_succ_diag_r _)
                (Hex r Hhere) s Hcl)
      as (k & s1 & seg1 & Hrun & Hw & [Hv1 Hcnf1] & Hsr & Hre).
    pose proof (unsaved_weight_budget c s) as Hb.
    cbn [encode_outputs]. unfold _process_all.
    rewrite Hrun by lia. rewrite process_loop_nil. cbn [mbind res_bind].
    rewrite saved_item_saved by done. cbn [mbind res_bind].
    set (s1' := emit [var_of (saved_lits s1) r] s1).
    pose proof Hv1 as (Hcl1 & Hsub1 & Hsv1 & Hnd1 & Hnew1).
    destruct (IH s1') as (s2 & segs & Hrun2 & Hlen & Hv2 & Hsr2 & Hre2 & Hcnf2).
    { intros r' Hr'. apply Hex. by right. }
    { by apply (closed_same c s1 s1'). }
    assert (visits c s1 s2 (concat segs)) as Hv2' by exact Hv2.
    pose proof Hv2' as (Hcl2 & Hsub2 & Hsv2 & Hnd2 & Hnew2).
    exists s2, (seg1 :: segs). split; [exact Hrun2|]. split; [simpl; by rewrite Hlen|].
    split; [simpl; by eapply visits_trans|]. split.
    { intros r' Hr'. apply elem_of_cons in Hr' as [-> | Hr']; [|by apply Hsr2].
      by eapply saved_weaken. }
    split.
    { intros x Hx. simpl in Hx. apply elem_of_app in Hx as [Hx | Hx].
      - exists r. split; [left | by apply Hre].
      - destruct (Hre2 x Hx) as (r' & Hr' & Hreach). exists r'. split; [by right | done]. }
    rewrite Hcnf2. unfold s1'. cbn [emit ts_cnf]. rewrite Hcnf1.
    cbn [zip_with concat].
    change (root_code_clauses c (saved_lits s2) r seg1)
      with (concat (map (gate_code_clauses c (saved_lits s2)) seg1)
            ++ [[var_of (saved_lits s2) r]]).
    rewrite <- !app_assoc. f_equal. f_equal.
    + f_equal. apply map_ext_in. intros x Hx. symmetry.
      apply gate_code_clauses_weaken; [done | | done].
      apply Hsv1. right. by apply list_elem_of_In.
    + cbn [app]. by rewrite (var_of_weaken _ _ r Hsub2).
Qed.

End Outputs.

(** *** Code clauses against spec clauses *)

Lemma same_clauses_app f1 f2 g1 g2 :
  same_clauses f1 f2 → same_clauses g1 g2 → same_clauses (f1 ++ g1) (f2 ++ g2).
Proof. apply Forall2_app. Qed.

Lemma same_clauses_refl f : same_clauses f f.
Proof. unfold same_clauses. induction f; constructor; done. Qed.

Lemma gate_clauses_spec c vm x :
  aig_circuit c →
  same_clauses (gate_code_clauses c vm x) (spec_gate_clauses c vm x).
Proof.
  intros Hc. unfold gate_code_clauses, spec_gate_clauses.
  destruct (od_get (gates c) x) as [g|] eqn:Hg; [|constructor].
  destruct (aig_types c Hc x g Hg) as [Hty Har].
  apply code_clauses_spec; [done|]. by rewrite length_map.
Qed.

Lemma root_clauses_spec c vm r seg :
  aig_circuit c →
  same_clauses (root_code_clauses c vm r seg) (root_clauses c vm r seg).
Proof.
  intros Hc. unfold root_code_clauses, root_clauses.
  apply same_clauses_app; [|apply same_clauses_refl].
  induction seg as [|x seg IH]; simpl; [constructor|].
  apply same_clauses_app; [by apply gate_clauses_spec | exact IH].
Qed.

Lemma all_roots_spec c vm outs : ∀ segs,
  aig_circuit c →
  same_clauses (concat (zip_with (root_code_clauses c vm) outs segs))
               (concat (zip_with (root_clauses c vm) outs segs)).
Proof.
  induction outs as [|r outs IH]; intros segs Hc; [constructor|].
  destruct segs as [|seg segs]; [constructor|]. simpl.
  apply same_clauses_app; [by apply root_clauses_spec | by apply IH].
Qed.

(** C1: on every AIG circuit (unique labels, AIG gate types with their
    arities, operands and outputs present, inputs INPUT gates, acyclic)
    [tseytin_transformation] returns a CNF; its clause list is, output
    root by output root, the clauses of the gates [seg] encoded while
    traversing from that root (none for INPUT, [t] for ALWAYS_TRUE, [-t]
    for ALWAYS_FALSE, [a, t] and [-a, -t] for NOT, [a, -t], [b, -t] and
    [-a, -b, t] for AND, clauses compared as literal sets) followed by the
    unit clause [v(r)]; and the encoded gates are, without repetition,
    exactly the gates reachable from an output that are not pre-registered
    inputs (which have no clauses). *)
Theorem C1_tseytin_encoding (c : Circuit) :
  aig_circuit c →
  ∃ f segs,
    tseytin_transformation c = Ok f
    ∧ length segs = length (outputs c)
    ∧ same_clauses (_cnf f)
        (concat (zip_with (root_clauses c (_var_map f)) (outputs c) segs))
    ∧ NoDup (concat segs)
    ∧ (∀ x, x ∈ concat segs ↔ reachable c x ∧ x ∉ inputs c)
    ∧ (∀ x, reachable c x → is_Some (_var_map f !! x)).
Proof.
  intros Hc. destruct (aig_acyclic c Hc) as [rank Hrank].
  destruct (init_spec c Hc) as (Hcnf0 & Hsv0 & Hcl0).
  destruct (encode_outputs_spec c Hc rank Hrank (outputs c) (tseytin_init c)
              (aig_outputs c Hc) Hcl0)
    as (s & segs & Hrun & Hlen & Hv & Hroots & Hre & Hcnf).
  destruct Hv as (Hcl & Hsub & Hsv & Hnd & Hnew).
  exists {| _cnf := ts_cnf s; _var_map := saved_lits s |}, segs.
  split. { unfold tseytin_transformation. by rewrite Hrun. }
  split; [exact Hlen|]. split.
  { cbn [_cnf _var_map]. rewrite Hcnf, Hcnf0. simpl. by apply all_roots_spec. }
  split; [exact Hnd|].
  assert (∀ x, reachable c x → saved s x) as Hreach.
  { intros x (r & Hr & Hrx). eapply reaches_saved; [exact Hcl | by apply Hroots | done]. }
  split; [|exact Hreach].
  intros x. split.
  - intros Hx. split.
    + destruct (Hre x Hx) as (r & Hr & Hrx). by exists r.
    + intros Hin. apply (Hnew x Hx). by apply Hsv0.
  - intros [Hrx Hin]. apply Hreach in Hrx. apply Hsv in Hrx as [Hs | Hx]; [|done].
    apply Hsv0 in Hs. done.
Qed.

Lemma C1_tseytin_encoding_witness :
  ∃ f segs,
    tseytin_transformation xor_circuit = Ok f
    ∧ length segs = length (outputs xor_circuit)
    ∧ NoDup (concat segs)
    ∧ (∀ x, x ∈ concat segs ↔ reachable xor_circuit x ∧ x ∉ inputs xor_circuit).
Proof.
  destruct (C1_tseytin_encoding xor_circuit) as (f & segs & H1 & H2 & _ & H4 & H5 & _).
  - apply aig_circuit_b_sound. vm_compute. reflexivity.
  - exists f, segs. split; [exact H1|]. split; [exact H2|].
    split; [exact H4 | exact H5].
Defined.

(** On a cyclic graph the explicit stack never empties: the hypothesis
    of acyclicity cannot be dropped. *)
Example tseytin_cyclic_loops : tseytin_transformation cyclic_circuit = Diverge.
Proof. vm_compute. reflexivity. Qed.

(** The clause list of the XOR circuit of the test suite. *)
Example tseytin_xor_clauses :
  (f ← tseytin_transformation xor_circuit; Ok (_cnf f))
  = Ok [[1; 3]; [-1; -3]; [2; 4]; [-2; -4];
        [3; -5]; [4; -5]; [5; -3; -4];
        [5; 6]; [-5; -6];
        [1; -7]; [2; -7]; [7; -1; -2];
        [7; 8]; [-7; -8];
        [6; -9]; [8; -9]; [9; -6; -8];
        [9]].
Proof. vm_compute. reflexivity. Qed.

(** ** The budgets are never exhausted *)

Lemma converges_bind {A B} (m : res A) (f : A → res B) :
  converges m → (∀ a, m = Ok a → converges (f a)) → converges (m ≫= f).
Proof.
  unfold converges. destruct m; simpl; [|discriminate|done].
  intros _ H. by apply H.
Qed.

Lemma converges_ok {A} (a : A) : converges (Ok a).
Proof. discriminate. Qed.

Lemma converges_raise {A} e : converges (@Raise A e).
Proof. discriminate. Qed.

Create HintDb converge.
#[local] Hint Resolve converges_ok converges_raise : converge.

Ltac converge_step :=
  match goal with
  | |- converges (Ok _) => apply converges_ok
  | |- converges (Raise _) => apply converges_raise
  | |- converges (if ?b then _ else _) => destruct b
  | |- converges (match ?x with _ => _ end) => destruct x
  | |- converges (_ ≫= _) => apply converges_bind; [|intros ? _]
  end.

Lemma get_gate_converges c l : converges (get_gate c l).
Proof. unfold get_gate. repeat converge_step. Qed.

Lemma operator_converges t args : converges (operator t args).
Proof.
  unfold operator. destruct t; destruct args as [|? [|? [|? ?]]];
    (apply converges_ok || apply converges_raise).
Qed.

Lemma op_at_converges ops i : converges (op_at ops i).
Proof. unfold op_at. repeat converge_step. Qed.

Lemma config_entry_converges self l : converges (config_entry self l).
Proof. unfold config_entry. repeat converge_step. Qed.

Lemma int_of_converges i : converges (int_of i).
Proof. unfold int_of. repeat converge_step. Qed.

Lemma config_idx_converges self l : converges (config_idx self l).
Proof.
  unfold config_idx. apply converges_bind; [apply config_entry_converges|].
  intros. apply int_of_converges.
Qed.

Lemma with_value_converges self l v : converges (with_value self l v).
Proof. unfold with_value. repeat converge_step. Qed.

Lemma emplace_gate_converges c l t ops : converges (emplace_gate c l t ops).
Proof. unfold emplace_gate. repeat converge_step. Qed.

#[local] Hint Resolve get_gate_converges operator_converges op_at_converges
  config_entry_converges int_of_converges config_idx_converges
  with_value_converges emplace_gate_converges : converge.

(** *** [_assign_and_propagate] *)

Lemma nonconst_count_set c l g g' :
  od_get (gates c) l = Some g →
  is_constant_type (gate_type g') = true →
  (nonconst_count (set_gate c l g')
   + (if is_constant_type (gate_type g) then 0 else 1)
   = nonconst_count c)%nat.
Proof.
  unfold nonconst_count, set_gate. cbn [gates].
  induction (gates c) as [|[k g0] d IH]; [discriminate|].
  cbn [od_get od_set]. destruct (decide (k = l)) as [->|Hne].
  - intros [= ->] Hc. rewrite !filter_cons. cbn [snd]. rewrite Hc.
    rewrite decide_False by discriminate.
    destruct (is_constant_type (gate_type g)).
    + rewrite decide_False by discriminate. lia.
    + rewrite decide_True by done. cbn [length]. lia.
  - intros Hg Hc. specialize (IH Hg Hc). rewrite !filter_cons. cbn [snd].
    destruct (decide (is_constant_type (gate_type g0) = false)); cbn [length]; lia.
Qed.

Lemma nonconst_count_sever c g l :
  nonconst_count (sever_operands c g l) = nonconst_count c.
Proof.
  unfold sever_operands. generalize c. induction (operands g) as [|op ops IH];
    intros c0; [done|]. simpl. by rewrite IH.
Qed.

Lemma assign_operands_fuel rec ops (n : nat) :
  (∀ l v self, (nonconst_count (circuit self) ≤ n)%nat →
     converges (rec l v self)
     ∧ ∀ st self', rec l v self = Ok (st, self') →
         (nonconst_count (circuit self') ≤ nonconst_count (circuit self))%nat) →
  ∀ self, (nonconst_count (circuit self) ≤ n)%nat →
    converges (assign_operands rec ops self)
    ∧ ∀ st self', assign_operands rec ops self = Ok (st, self') →
        (nonconst_count (circuit self') ≤ nonconst_count (circuit self))%nat.
Proof.
  intros Hrec. induction ops as [|op ops IH]; intros self Hn; simpl.
  - split; [apply converges_ok|]. by intros st self' [= <- <-].
  - destruct (Hrec op true self Hn) as [Hconv Hle].
    destruct (rec op true self) as [[st1 self1]| |] eqn:Hr; simpl.
    + specialize (Hle st1 self1 eq_refl). case_decide.
      * destruct (IH self1) as [Hc2 Hle2]; [lia|]. split; [done|].
        intros st self' H'. specialize (Hle2 st self' H'). lia.
      * split; [apply converges_ok|]. by intros st self' [= <- <-].
    + split; [apply converges_raise | discriminate].
    + by destruct Hconv.
Qed.

(** With more fuel than non-constant gates the recursion never runs dry,
    and it never adds a non-constant gate. *)
Lemma assign_rec_fuel fuel : ∀ l v self,
  (nonconst_count (circuit self) < fuel)%nat →
  converges (assign_rec fuel l v self)
  ∧ ∀ st self', assign_rec fuel l v self = Ok (st, self') →
      (nonconst_count (circuit self') ≤ nonconst_count (circuit self))%nat.
Proof.
  induction fuel as [|fuel IH]; intros l v self Hf; [lia|].
  cbn [assign_rec]. unfold get_gate.
  destruct (od_get (gates (circuit self)) l) as [gate|] eqn:Hg; cbn [mbind res_bind];
    [|split; [apply converges_raise | discriminate]].
  destruct (is_constant_type (gate_type gate)) eqn:Hconst.
  { destruct (operator (gate_type gate) []) as [b| |] eqn:Hop; cbn [mbind res_bind].
    - case_bool_decide; (split; [apply converges_ok|]); by intros st self' [= <- <-].
    - split; [apply converges_raise | discriminate].
    - by destruct (operator_converges (gate_type gate) []). }
  destruct (config_idx self l) as [lit| |] eqn:Hlit; cbn [mbind res_bind].
  2:{ split; [apply converges_raise | discriminate]. }
  2:{ by destruct (config_idx_converges self l). }
  case_decide as Hinput.
  { match goal with |- context [with_value ?s l v] =>
      destruct (with_value s l v) as [s2| |] eqn:Hwv end; cbn [mbind res_bind].
    - split; [apply converges_ok|]. intros st self' [= <- <-].
      unfold with_value in Hwv. cbn [gates_config with_circuit with_clause] in Hwv.
      destruct (od_get (gates_config self) l); [|discriminate].
      injection Hwv as <-. cbn [circuit].
      unfold replace_inputs. cbn [with_clause circuit].
      unfold nonconst_count at 1. cbn [gates].
      destruct v; cbn [fold_left].
      + pose proof (nonconst_count_set (circuit self) l gate (mkGate l ALWAYS_TRUE []) Hg eq_refl).
        unfold nonconst_count in *. cbn [gates set_gate] in *. lia.
      + pose proof (nonconst_count_set (circuit self) l gate (mkGate l ALWAYS_FALSE []) Hg eq_refl).
        unfold nonconst_count in *. cbn [gates set_gate] in *. lia.
    - split; [apply converges_raise | discriminate].
    - match goal with H : with_value ?s l v = Diverge |- _ =>
        by destruct (with_value_converges s l v) end. }
  set (c2 := set_gate (sever_operands (circuit (with_clause self [if v then lit else - lit])) gate l) l
               (mkGate l (if v then ALWAYS_TRUE else ALWAYS_FALSE) [])).
  assert (S (nonconst_count c2) = nonconst_count (circuit self)) as Hc2.
  { pose proof (nonconst_count_set
        (sever_operands (circuit self) gate l) l gate
        (mkGate l (if v then ALWAYS_TRUE else ALWAYS_FALSE) [])) as Hset.
    rewrite Hconst, nonconst_count_sever in Hset.
    unfold c2. cbn [with_clause circuit]. rewrite <- Hset; [lia | | by destruct v].
    unfold sever_operands. clear -Hg. generalize (circuit self) Hg.
    induction (operands gate) as [|op ops IHops]; intros c0 Hg0; [done|].
    simpl. by apply IHops. }
  set (self2 := with_circuit (with_clause self [if v then lit else - lit]) c2).
  assert (nonconst_count (circuit self2) < fuel)%nat as Hf2 by (simpl; lia).
  case_decide as Hnot.
  { destruct (op_at (operands gate) 0) as [op0| |] eqn:Hop0; cbn [mbind res_bind].
    - destruct (IH op0 (negb v) self2 Hf2) as [Hconv Hle]. split; [done|].
      intros st self' H'. specialize (Hle st self' H'). simpl in Hle. lia.
    - split; [apply converges_raise | discriminate].
    - by destruct (op_at_converges (operands gate) 0). }
  case_decide as Hand; [|split; [apply converges_raise | discriminate]].
  destruct v.
  { destruct (assign_operands_fuel (assign_rec fuel) (operands gate)
                (nonconst_count c2)) with (self := self2) as [Hconv Hle].
    - intros l' v' s' Hs'. apply IH. lia.
    - done.
    - split; [done|]. intros st self' H'. specialize (Hle st self' H').
      simpl in Hle. lia. }
  destruct (negb _); [split; [apply converges_raise | discriminate]|].
  split.
  - repeat (apply converges_bind; [auto with converge | intros ? _]).
    apply converges_ok.
  - intros st self' H'. do 6 res_inv H'. injection H' as <- <-. simpl. lia.
Qed.

Lemma _assign_and_propagate_converges l v self :
  converges (_assign_and_propagate l v self).
Proof. unfold _assign_and_propagate. apply assign_rec_fuel. lia. Qed.

(** *** The simplifier and [assign] *)

Lemma mapM_const_converges cm ops :
  converges (mapM (M := res) (const_lookup cm) ops).
Proof.
  induction ops as [|op ops IH]; simpl; [apply converges_ok|].
  apply converges_bind; [unfold const_lookup; repeat converge_step|].
  intros b _. apply converges_bind; [exact IH|]. intros. apply converges_ok.
Qed.

Lemma transform_gate_converges g st : converges (transform_gate g st).
Proof.
  unfold transform_gate.
  assert (∀ cm op, converges (const_lookup cm op)) as Hcl.
  { intros. unfold const_lookup. repeat converge_step. }
  destruct (gate_type g);
    repeat first
      [ apply converges_ok | apply converges_raise
      | apply emplace_gate_converges | apply op_at_converges
      | apply operator_converges | apply Hcl | apply mapM_const_converges
      | converge_step ].
Qed.

Lemma transform_loop_converges order : ∀ st, converges (transform_loop order st).
Proof.
  induction order as [|g order IH]; intros st; simpl; [apply converges_ok|].
  apply converges_bind; [apply transform_gate_converges | intros; apply IH].
Qed.

Lemma transform_with_converges order c : converges (transform_with order c).
Proof.
  unfold transform_with. apply converges_bind; [apply transform_loop_converges|].
  intros st _. unfold set_inputs, set_outputs. repeat converge_step.
Qed.

Section Convergence.
Variable top_sort : Circuit → res (list Gate).
Hypothesis top_sort_converges : ∀ c, converges (top_sort c).
Variable max_depth : Z.
Variable candidates_limit : Z.

Lemma _transform_converges c : converges (_transform top_sort c).
Proof.
  unfold _transform, check_arities.
  apply converges_bind; [repeat converge_step|]. intros _ _.
  apply converges_bind; [apply top_sort_converges|]. intros order _.
  apply transform_with_converges.
Qed.

Lemma assign_converges l v self : converges (assign top_sort l v self).
Proof.
  unfold assign. apply converges_bind; [apply _assign_and_propagate_converges|].
  intros [st self1] _. case_decide; [|apply converges_ok].
  apply converges_bind; [|intros; apply converges_ok].
  unfold simplify. apply converges_bind; [apply _transform_converges|].
  intros. apply converges_ok.
Qed.

Lemma outdegree_of_converges c us : ∀ acc, converges (outdegree_of c us acc).
Proof.
  induction us as [|u us IH]; intros acc; simpl; [apply converges_ok|].
  apply converges_bind; [apply get_gate_converges|]. intros user _.
  case_decide; apply IH.
Qed.

Lemma score_gates_converges c labels : ∀ scores,
  converges (score_gates c labels scores).
Proof.
  induction labels as [|l labels IH]; intros scores; simpl; [apply converges_ok|].
  apply converges_bind; [apply get_gate_converges|]. intros g _.
  case_bool_decide; [apply IH|]. destruct (negb _); [apply converges_raise|].
  apply converges_bind; [apply outdegree_of_converges|]. intros; apply IH.
Qed.

Lemma weight_loop_converges instance l start vals : ∀ w,
  converges (weight_loop top_sort instance l start vals w).
Proof.
  induction vals as [|val vals IH]; intros w; simpl; [apply converges_ok|].
  apply converges_bind; [apply assign_converges|]. intros [st b] _.
  case_decide; [|apply converges_ok].
  destruct (negb _); [apply converges_raise | apply IH].
Qed.

Lemma select_loop_converges instance cands : ∀ best bw,
  converges (select_loop top_sort instance cands best bw).
Proof.
  induction cands as [|l cands IH]; intros best bw; simpl.
  - destruct best; [apply converges_ok | apply converges_raise].
  - apply converges_bind; [apply weight_loop_converges|]. intros wr _.
    destruct (is_forced _); [apply converges_ok|].
    destruct (weight wr); [|apply converges_raise].
    destruct (Z.ltb _ _); apply IH.
Qed.

Lemma _select_gate_converges instance :
  converges (_select_gate top_sort candidates_limit instance).
Proof.
  unfold _select_gate, _rank_candidates.
  apply converges_bind.
  { apply converges_bind; [apply score_gates_converges|]. intros; apply converges_ok. }
  intros [|l cands] _; [apply converges_ok|].
  apply converges_bind; [apply select_loop_converges|]. intros; apply converges_ok.
Qed.

Lemma cube_rec_converges fuel : ∀ instance depth,
  (Z.to_nat (max_depth - depth) < fuel)%nat →
  converges (cube_rec top_sort max_depth candidates_limit fuel instance depth).
Proof.
  induction fuel as [|fuel IH]; intros instance depth Hf; [lia|].
  cbn [cube_rec].
  destruct (_should_stop max_depth instance depth) eqn:Hstop; [apply converges_ok|].
  apply should_stop_false in Hstop.
  assert (∀ i, converges (cube_rec top_sort max_depth candidates_limit fuel i (depth + 1)))
    as Hrec by (intros i; apply IH; lia).
  apply converges_bind; [apply _select_gate_converges|]. intros [sel|] _;
    [|apply converges_ok].
  destruct (forced_value sel).
  - apply converges_bind; [apply assign_converges|]. intros [? ?] _. apply Hrec.
  - apply converges_bind; [apply assign_converges|]. intros [? ?] _.
    apply converges_bind; [apply Hrec|]. intros r0 _.
    apply converges_bind; [apply assign_converges|]. intros [? ?] _.
    apply converges_bind; [apply Hrec|]. intros; apply converges_ok.
Qed.

(** The cube driver returns or raises whenever [top_sort] does. *)
Lemma _cube_converges instance depth :
  converges (_cube top_sort max_depth candidates_limit instance depth).
Proof. unfold _cube. apply cube_rec_converges. lia. Qed.

End Convergence.

(** ** The structural check of the constructor, continued (C8) *)

Lemma process_step_no_value_error c l e rest s :
  (∀ l g, od_get (gates c) l = Some g →
     aig_type (gate_type g) ∧ (gate_type g = NOT → operands g ≠ [])) →
  process_step c l e rest s ≠ Raise ValueError.
Proof.
  intros Hall. unfold process_step, get_gate.
  destruct (is_saved l s); [discriminate|].
  destruct (od_get (gates c) l) as [g|] eqn:Hg; [|by destruct e].
  destruct e; cbn [negb mbind res_bind]; [|discriminate].
  destruct (saved_items (operands g) s) as [lits s1] eqn:Hitems.
  destruct (saved_item l s1) as [top s2].
  destruct (Hall l g Hg) as [Hty Hnot].
  destruct (decide (gate_type g = NOT ∧ lits = [])) as [[Hn Hl] | Hne].
  - unfold encode_gate. rewrite Hn, Hl. discriminate.
  - rewrite encode_gate_aig; [discriminate | done |].
    intros Hn Hl. apply Hne. done.
Qed.

Lemma process_loop_no_value_error c fuel : ∀ stack s,
  (∀ l g, od_get (gates c) l = Some g →
     aig_type (gate_type g) ∧ (gate_type g = NOT → operands g ≠ [])) →
  process_loop fuel c stack s ≠ Raise ValueError.
Proof.
  induction fuel as [|fuel IH]; intros stack s Hall;
    destruct stack as [|[l e] rest]; cbn [process_loop]; try discriminate.
  pose proof (process_step_no_value_error c l e rest s Hall) as Hstep.
  destruct (process_step c l e rest s) as [[st' s']|err|]; [by apply IH | | discriminate].
  intros [= ->]. done.
Qed.

Lemma tseytin_no_value_error c :
  (∀ l g, od_get (gates c) l = Some g →
     aig_type (gate_type g) ∧ (gate_type g = NOT → operands g ≠ [])) →
  tseytin_transformation c ≠ Raise ValueError.
Proof.
  intros Hall. unfold tseytin_transformation.
  assert (∀ outs s, encode_outputs (tseytin_budget c) c outs s ≠ Raise ValueError)
    as Hout.
  { induction outs as [|r outs IH]; intros s; cbn [encode_outputs]; [discriminate|].
    unfold _process_all.
    pose proof (process_loop_no_value_error c (tseytin_budget c) [(r, false)] s Hall).
    destruct (process_loop _ c [(r, false)] s) as [s1|err|]; cbn [mbind res_bind];
      [|congruence|discriminate].
    destruct (saved_item r s1). apply IH. }
  specialize (Hout (outputs c) (tseytin_init c)).
  destruct (encode_outputs _ c (outputs c) (tseytin_init c));
    cbn [mbind res_bind]; [discriminate | congruence | discriminate].
Qed.

Lemma populate_config_raises c f labels : ∀ acc e,
  populate_config c f labels acc = Raise e → e = CircuitError.
Proof.
  induction labels as [|l labels IH]; intros acc e; simpl; [discriminate|].
  unfold get_gate. destruct (od_get (gates c) l); cbn [mbind res_bind].
  - apply IH.
  - by intros [= <-].
Qed.

(** C8 (as stated, refuted): the stuck-at-one circuit has only an INPUT
    and an ALWAYS_TRUE gate, and the constructor raises on it. *)
Lemma C8_constant_gate_rejected :
  od_values (gates stuck_at_one)
    = [mkGate "x" INPUT []; mkGate "true" ALWAYS_TRUE []]
  ∧ _check_circuit stuck_at_one = Raise ValueError
  ∧ new_instance stuck_at_one = Raise ValueError
  ∧ from_circuit top_sort_insertion stuck_at_one = Raise ValueError.
Proof. repeat split. Qed.

(** C8 (amended): the structural check of the constructor passes exactly
    when every gate is an INPUT, an AND with two operands or a NOT with
    one operand; otherwise, so also for a constant gate, it raises
    ValueError.  The constructor raises ValueError exactly when the check
    does, and so does [from_circuit] on a one-output circuit. *)
Theorem C8_check_circuit (top_sort : Circuit → res (list Gate)) (c : Circuit) :
  (_check_circuit c = Ok tt ↔ Forall supported_gate (od_values (gates c)))
  ∧ (_check_circuit c = Raise ValueError
     ↔ Exists (fun g => ¬ supported_gate g) (od_values (gates c)))
  ∧ (new_instance c = Raise ValueError ↔ _check_circuit c = Raise ValueError)
  ∧ (_check_circuit c = Raise ValueError → output_size c = 1 →
     from_circuit top_sort c = Raise ValueError).
Proof.
  unfold _check_circuit.
  pose proof (check_gates_ok (od_values (gates c))) as Hok.
  split; [exact Hok|]. split; [|split].
  - rewrite Exists_Forall_neg.
    2:{ intros g. destruct (check_gate_cases g) as [Hg | Hg].
        - left. apply check_gate_ok, Hg.
        - right. intros Hs. apply check_gate_ok in Hs. congruence. }
    destruct (check_gates_cases (od_values (gates c))) as [H | H]; rewrite H.
    + split; [discriminate|]. intros Hn. exfalso. apply Hn, Hok, H.
    + split; [|reflexivity]. intros _ Hall. apply Hok in Hall. congruence.
  - unfold new_instance, _check_circuit.
    destruct (check_gates_cases (od_values (gates c))) as [H | H]; rewrite H;
      [|done]. cbn [mbind res_bind]. split; [|discriminate].
    intros Hraise. exfalso.
    assert (∀ l g, od_get (gates c) l = Some g → aig_type (gate_type g)
                   ∧ (gate_type g = NOT → operands g ≠ [])) as Hall.
    { intros l g Hg. apply Hok in H. rewrite Forall_forall in H.
      assert (g ∈ od_values (gates c)) as Hin.
      { apply list_elem_of_fmap. exists (l, g). split; [done|].
        by apply od_get_Some_elem. }
      destruct (H g Hin) as [Hi | [[Ha _] | [Hn Hlen]]]; unfold aig_type.
      - split; [tauto | congruence].
      - split; [tauto | congruence].
      - split; [tauto|]. intros _. destruct (operands g); [discriminate | done]. }
    destruct (tseytin_transformation c) as [f| |] eqn:Hts; cbn [mbind res_bind] in Hraise.
    + destruct (populate_config c f (od_keys (gates c)) []) as [gc|e|] eqn:Hp;
        cbn [mbind res_bind] in Hraise; [discriminate | | discriminate].
      injection Hraise as ->. apply populate_config_raises in Hp. discriminate.
    + injection Hraise as ->. by apply (tseytin_no_value_error c Hall).
    + discriminate.
  - intros H Hout. unfold from_circuit, new_instance, _check_circuit.
    rewrite Hout, H. reflexivity.
Qed.
(* ------------------------------------------------------------------ *)
(** ** The numbering of the encoder                                    *)
(* ------------------------------------------------------------------ *)

Lemma continues_refl s : continues s s.
Proof. split; [done | lia]. Qed.

Lemma continues_trans s1 s2 s3 :
  continues s1 s2 → continues s2 s3 → continues s1 s3.
Proof. intros [? ?] [? ?]. split; [by etrans | lia]. Qed.

Lemma numbered_same s s' :
  next_lit s' = next_lit s → saved_lits s' = saved_lits s →
  ts_cnf s' = ts_cnf s → numbered s → numbered s'.
Proof.
  intros Hn Hs Hc [H1 H2 H3 H4 H5].
  split; rewrite ?Hn, ?Hs, ?Hc; assumption.
Qed.

Lemma saved_item_numbered l s :
  numbered s →
  numbered (saved_item l s).2
  ∧ continues s (saved_item l s).2
  ∧ saved_lits (saved_item l s).2 !! l = Some (saved_item l s).1
  ∧ ts_cnf (saved_item l s).2 = ts_cnf s.
Proof.
  intros Hs. unfold saved_item.
  destruct (saved_lits s !! l) as [v|] eqn:Hl; simpl.
  - split; [done|]. split; [apply continues_refl|]. done.
  - destruct Hs as [H1 H2 H3 H4 H5]. split; [|split; [|split]].
    + split; simpl.
      * rewrite map_size_insert_None by done. lia.
      * intros l' v. destruct (decide (l = l')) as [<-|Hne].
        -- rewrite lookup_insert_eq. intros [= <-]. lia.
        -- rewrite lookup_insert_ne by done. intros Hv.
           specialize (H2 _ _ Hv). lia.
      * intros l1 l2 v.
        destruct (decide (l = l1)) as [<-|Hne1], (decide (l = l2)) as [<-|Hne2];
          rewrite ?lookup_insert_eq, ?lookup_insert_ne by done; try done.
        -- intros [= <-] Hv. specialize (H2 _ _ Hv). lia.
        -- intros Hv [= <-]. specialize (H2 _ _ Hv). lia.
        -- apply H3.
      * intros v Hv. destruct (decide (v = next_lit s + 1)) as [->|Hne].
        -- exists l. by rewrite lookup_insert_eq.
        -- destruct (H4 v) as [l' Hl']; [lia|]. exists l'.
           rewrite lookup_insert_ne; [done|]. intros ->. congruence.
      * intros cl lit Hcl Hlit. specialize (H5 _ _ Hcl Hlit). lia.
    + split; simpl; [|lia]. by apply insert_subseteq.
    + by rewrite lookup_insert_eq.
    + done.
Qed.

Lemma saved_items_numbered ops : ∀ s,
  numbered s →
  numbered (saved_items ops s).2
  ∧ continues s (saved_items ops s).2
  ∧ Forall (fun v => 1 ≤ v ≤ next_lit (saved_items ops s).2) (saved_items ops s).1
  ∧ ts_cnf (saved_items ops s).2 = ts_cnf s.
Proof.
  induction ops as [|op ops IH]; intros s Hs; cbn [saved_items].
  - split; [done|]. split; [apply continues_refl|]. split; [constructor | done].
  - destruct (saved_item_numbered op s Hs) as (Hn1 & Hc1 & Hl1 & Hcnf1).
    destruct (saved_item op s) as [v s1] eqn:E1. simpl in *.
    destruct (IH s1 Hn1) as (Hn2 & Hc2 & Hf2 & Hcnf2).
    destruct (saved_items ops s1) as [vs s2] eqn:E2. simpl in *.
    split; [done|]. split; [by eapply continues_trans|].
    split; [|congruence].
    constructor; [|done].
    destruct Hc2 as [Hsub Hle].
    pose proof (numbered_range _ Hn1 _ _ Hl1). lia.
Qed.

Ltac lits_range :=
  repeat first
    [ apply List.Forall_nil
    | apply List.Forall_cons; [simpl in *; lia|] ].

Lemma emit_numbered cl s :
  numbered s → Forall (fun lit => 1 ≤ Z.abs lit ≤ next_lit s) cl →
  numbered (emit cl s).
Proof.
  intros [H1 H2 H3 H4 H5] Hcl. split; simpl; try assumption.
  intros cl' lit Hin Hlit. apply elem_of_app in Hin as [Hin|Hin].
  - by eapply H5.
  - apply list_elem_of_singleton in Hin as ->.
    rewrite Forall_forall in Hcl. by apply Hcl.
Qed.

Lemma continues_emit cl s : continues s (emit cl s).
Proof. split; simpl; [done | lia]. Qed.

Lemma encode_and_fold lits : ∀ common s top,
  numbered s →
  Forall (fun v => 1 ≤ v ≤ next_lit s) lits →
  1 ≤ top ≤ next_lit s →
  Forall (fun lit => 1 ≤ Z.abs lit ≤ next_lit s) common →
  let r := fold_left (fun '(common, s) lit => (common ++ [- lit], emit [lit; - top] s))
                     lits (common, s) in
  numbered r.2
  ∧ next_lit r.2 = next_lit s ∧ saved_lits r.2 = saved_lits s
  ∧ Forall (fun lit => 1 ≤ Z.abs lit ≤ next_lit s) r.1.
Proof.
  induction lits as [|lit lits IH]; intros common s top Hs Hl Ht Hc; cbn [fold_left].
  - done.
  - inversion Hl as [|? ? Hlit Hl']; subst.
    assert (numbered (emit [lit; - top] s)) as Hs'.
    { apply emit_numbered; [done|]. lits_range. }
    destruct (IH (common ++ [- lit]) (emit [lit; - top] s) top Hs' Hl' Ht)
      as (Hn & Hnl & Hsl & Hcm).
    { apply Forall_app. split; [done|]. lits_range. }
    done.
Qed.

Lemma encode_gate_numbered g lits top s s' :
  encode_gate g lits top s = Ok s' →
  numbered s →
  Forall (fun v => 1 ≤ v ≤ next_lit s) lits →
  1 ≤ top ≤ next_lit s →
  numbered s' ∧ continues s s'.
Proof.
  intros He Hs Hl Ht. unfold encode_gate in He.
  destruct (gate_type g).
  - injection He as <-. split; [done | apply continues_refl].
  - pose proof (encode_and_fold lits [top] s top Hs Hl Ht) as Hf.
    destruct (fold_left _ lits ([top], s)) as [common s1] eqn:E. simpl in Hf.
    destruct Hf as (Hn & Hnl & Hsl & Hcm); [lits_range|].
    injection He as <-. split.
    + apply emit_numbered; [done|]. by rewrite Hnl.
    + split; simpl; [by rewrite Hsl | lia].
  - destruct lits as [|l0 lits']; [discriminate|]. injection He as <-.
    inversion Hl; subst. split.
    + apply emit_numbered; [apply emit_numbered|]; [done|..];
        lits_range.
    + eapply continues_trans; apply continues_emit.
  - injection He as <-. split; [|apply continues_emit].
    apply emit_numbered; [done|]. lits_range.
  - injection He as <-. split; [|apply continues_emit].
    apply emit_numbered; [done|]. lits_range.
  - discriminate.
  - discriminate.
  - discriminate.
  - discriminate.
Qed.

Lemma process_step_numbered c l e rest s st' s' :
  process_step c l e rest s = Ok (st', s') →
  numbered s → numbered s' ∧ continues s s'.
Proof.
  unfold process_step. intros H Hs.
  destruct (is_saved l s).
  { injection H as <- <-. split; [done | apply continues_refl]. }
  destruct e; simpl in H.
  - res_inv H.
    destruct (saved_items_numbered (operands a) s Hs) as (Hn1 & Hc1 & Hf1 & _).
    destruct (saved_items (operands a) s) as [lits s1] eqn:E1. simpl in *.
    destruct (saved_item_numbered l s1 Hn1) as (Hn2 & Hc2 & Hl2 & _).
    destruct (saved_item l s1) as [top s2] eqn:E2. simpl in *.
    res_inv H. injection H as <- <-.
    destruct (encode_gate_numbered _ _ _ _ _ Ha0 Hn2) as [Hn3 Hc3].
    + eapply Forall_impl; [exact Hf1|]. simpl. destruct Hc2. intros; lia.
    + by apply (numbered_range _ Hn2 l).
    + split; [done|]. eapply continues_trans; [exact Hc1|].
      eapply continues_trans; [exact Hc2 | exact Hc3].
  - res_inv H. injection H as <- <-. split; [done | apply continues_refl].
Qed.

Lemma process_loop_numbered c fuel : ∀ stack s s',
  process_loop fuel c stack s = Ok s' →
  numbered s → numbered s' ∧ continues s s'.
Proof.
  induction fuel as [|fuel IH]; intros stack s s' H Hs.
  - destruct stack as [|[l e] rest]; [|discriminate].
    injection H as <-. split; [done | apply continues_refl].
  - destruct stack as [|[l e] rest]; cbn [process_loop] in H.
    { injection H as <-. split; [done | apply continues_refl]. }
    destruct (process_step c l e rest s) as [[st1 s1]| |] eqn:E; try discriminate.
    destruct (process_step_numbered _ _ _ _ _ _ _ E Hs) as [Hn1 Hc1].
    destruct (IH _ _ _ H Hn1) as [Hn2 Hc2].
    split; [done | by eapply continues_trans].
Qed.

Lemma encode_outputs_numbered c fuel outs : ∀ s s',
  encode_outputs fuel c outs s = Ok s' →
  numbered s → numbered s' ∧ continues s s'.
Proof.
  induction outs as [|r outs IH]; intros s s' H Hs; cbn [encode_outputs] in H.
  - injection H as <-. split; [done | apply continues_refl].
  - res_inv H. destruct a as [out_lit s1]. unfold _process_all in Ha.
    res_inv Ha. injection Ha as Hitem.
    destruct (process_loop_numbered _ _ _ _ _ Ha0 Hs) as [Hn0 Hc0].
    destruct (saved_item_numbered r a Hn0) as (Hn1 & Hc1 & Hl1 & _).
    rewrite Hitem in Hn1, Hc1, Hl1. simpl in *.
    assert (numbered (emit [out_lit] s1)) as Hn2.
    { pose proof (numbered_range _ Hn1 _ _ Hl1).
      apply emit_numbered; [done|]. lits_range. }
    destruct (IH _ _ H Hn2) as [Hn3 Hc3]. split; [done|].
    eapply continues_trans; [exact Hc0|].
    eapply continues_trans; [exact Hc1|]. exact Hc3.
Qed.

Lemma init_numbered ls : ∀ s,
  numbered s →
  numbered (fold_left (fun s l => (saved_item l s).2) ls s)
  ∧ continues s (fold_left (fun s l => (saved_item l s).2) ls s).
Proof.
  induction ls as [|l ls IH]; intros s Hs; cbn [fold_left].
  - split; [done | apply continues_refl].
  - destruct (saved_item_numbered l s Hs) as (Hn1 & Hc1 & _).
    destruct (IH _ Hn1) as [Hn2 Hc2].
    split; [done | by eapply continues_trans].
Qed.

Lemma numbered_empty : numbered {| next_lit := 0; saved_lits := ∅; ts_cnf := [] |}.
Proof.
  split; simpl.
  - by rewrite map_size_empty.
  - intros l v. by rewrite lookup_empty.
  - intros l1 l2 v. by rewrite lookup_empty.
  - intros v ?. lia.
  - intros cl lit H. inversion H.
Qed.

Lemma tseytin_numbered c f :
  tseytin_transformation c = Ok f →
  ∃ s, numbered s ∧ continues (tseytin_init c) s
       ∧ _cnf f = ts_cnf s ∧ _var_map f = saved_lits s.
Proof.
  unfold tseytin_transformation. intros H. res_inv H. injection H as <-.
  pose proof (init_numbered (inputs c) _ numbered_empty) as [Hi _].
  destruct (encode_outputs_numbered _ _ _ _ _ Ha Hi) as [Hn Hc].
  exists a. done.
Qed.

(** X1: whenever the encoder returns, on any circuit, its variables are
    exactly [1 .. n] for [n] the number of labels in the variable map:
    every label has a variable in that range, two labels never share one,
    every number of the range is used, and every literal of every clause
    is such a variable or its negation. *)
Theorem X1_tseytin_dense_numbering (c : Circuit) (f : Cnf) :
  tseytin_transformation c = Ok f →
  let n := Z.of_nat (base.size (_var_map f)) in
  (∀ l v, _var_map f !! l = Some v → 1 ≤ v ≤ n)
  ∧ (∀ l1 l2 v, _var_map f !! l1 = Some v → _var_map f !! l2 = Some v → l1 = l2)
  ∧ (∀ v, 1 ≤ v ≤ n → ∃ l, _var_map f !! l = Some v)
  ∧ (∀ cl lit, cl ∈ _cnf f → lit ∈ cl → 1 ≤ Z.abs lit ≤ n).
Proof.
  intros H. destruct (tseytin_numbered c f H) as (s & Hn & _ & Hcnf & Hvm).
  destruct Hn as [H1 H2 H3 H4 H5]. simpl. rewrite Hcnf, Hvm, H1.
  repeat split; try assumption.
  - by apply (H2 l v).
  - by apply (H2 l v).
  - by apply (H5 cl lit).
  - by apply (H5 cl lit).
Qed.

Lemma X1_tseytin_dense_numbering_witness :
  ∃ f, tseytin_transformation xor_circuit = Ok f
       ∧ base.size (_var_map f) = 9%nat
       ∧ (∀ cl lit, cl ∈ _cnf f → lit ∈ cl → 1 ≤ Z.abs lit ≤ 9).
Proof.
  destruct (tseytin_transformation xor_circuit) as [f| |] eqn:E;
    [|vm_compute in E; discriminate..].
  exists f. split; [reflexivity|].
  assert (base.size (_var_map f) = 9%nat) as Hsz.
  { vm_compute in E. injection E as <-. vm_compute. reflexivity. }
  split; [exact Hsz|].
  pose proof (X1_tseytin_dense_numbering xor_circuit f E) as (_ & _ & _ & H).
  rewrite Hsz in H. exact H.
Defined.

Lemma init_inputs ls : ∀ s,
  NoDup ls → (∀ l, l ∈ ls → saved_lits s !! l = None) →
  ∀ i l, ls !! i = Some l →
    saved_lits (fold_left (fun s l => (saved_item l s).2) ls s) !! l
    = Some (next_lit s + Z.of_nat i + 1).
Proof.
  induction ls as [|l0 ls IH]; intros s Hnd Hfresh i l Hi; [done|].
  cbn [fold_left]. apply NoDup_cons in Hnd as [Hnotin Hnd].
  assert (saved_item l0 s
          = (next_lit s + 1,
             {| next_lit := next_lit s + 1;
                saved_lits := <[l0 := next_lit s + 1]> (saved_lits s);
                ts_cnf := ts_cnf s |})) as E.
  { unfold saved_item. rewrite Hfresh; [done | left]. }
  rewrite E. simpl. destruct i as [|i]; simpl in Hi.
  - injection Hi as <-.
    match goal with |- saved_lits (fold_left ?f ls ?s1) !! _ = _ =>
      assert (∀ ls' s2, saved_lits s2 !! l0 = Some (next_lit s + 1) →
                saved_lits (fold_left f ls' s2) !! l0 = Some (next_lit s + 1)) as Hkeep
    end.
    { induction ls' as [|x ls' IH']; intros s2 H2; cbn [fold_left]; [done|].
      apply IH'. unfold saved_item.
      destruct (saved_lits s2 !! x) eqn:Ex; simpl; [done|].
      rewrite lookup_insert_ne; [done|]. intros ->. congruence. }
    replace (next_lit s + Z.of_nat 0 + 1) with (next_lit s + 1) by lia.
    apply Hkeep. simpl. by rewrite lookup_insert_eq.
  - erewrite IH; [|done| |exact Hi].
    + simpl. f_equal. lia.
    + intros l' Hl'. simpl. rewrite lookup_insert_ne.
      * apply Hfresh. by right.
      * intros ->. done.
Qed.

(** X2: the inputs get the first variables: when the input list has no
    repetition, the [i]-th input (from 0) is variable [i + 1] in the
    returned map, whatever the gates are. *)
Theorem X2_tseytin_inputs_first (c : Circuit) (f : Cnf) (i : nat) (l : Label) :
  NoDup (inputs c) →
  tseytin_transformation c = Ok f →
  inputs c !! i = Some l →
  _var_map f !! l = Some (Z.of_nat i + 1).
Proof.
  intros Hnd H Hi. destruct (tseytin_numbered c f H) as (s & _ & [Hsub _] & _ & Hvm).
  rewrite Hvm. eapply lookup_weaken; [|exact Hsub].
  unfold tseytin_init.
  change (fun s l => snd (saved_item l s)) with (fun s l => (saved_item l s).2).
  erewrite init_inputs; [|done| |exact Hi].
  - simpl. f_equal. 
  - intros l' _. simpl. apply lookup_empty.
Qed.

Lemma X2_tseytin_inputs_first_witness :
  ∃ f, tseytin_transformation xor_circuit = Ok f
       ∧ _var_map f !! "b"%string = Some 2.
Proof.
  destruct (tseytin_transformation xor_circuit) as [f| |] eqn:E;
    [|vm_compute in E; discriminate..].
  exists f. split; [reflexivity|].
  apply (X2_tseytin_inputs_first xor_circuit f 1 "b" ); [|exact E|].
  - apply (bool_decide_eq_true_1 (NoDup (inputs xor_circuit))).
    vm_compute. reflexivity.
  - vm_compute. reflexivity.
Defined.
(* ------------------------------------------------------------------ *)
(** ** The recursion of [_assign_and_propagate]                        *)
(* ------------------------------------------------------------------ *)





(* ------------------------------------------------------------------ *)
(** ** What an assignment does to the circuit                          *)
(* ------------------------------------------------------------------ *)

Lemma sever_operands_gates c g l : gates (sever_operands c g l) = gates c.
Proof.
  unfold sever_operands. generalize c.
  induction (operands g) as [|op ops IH]; intros c0; [done|]. simpl. by rewrite IH.
Qed.

Lemma sever_operands_outputs c g l : outputs (sever_operands c g l) = outputs c.
Proof.
  unfold sever_operands. generalize c.
  induction (operands g) as [|op ops IH]; intros c0; [done|]. simpl. by rewrite IH.
Qed.

(** Any relation that holds across the elementary updates of
    [_assign_and_propagate] holds across the whole call. *)
Section AssignRel.

Variable R : CircuitSatInstance → CircuitSatInstance → Prop.
Hypothesis R_refl : ∀ s, R s s.
Hypothesis R_trans : ∀ a b c, R a b → R b c → R a c.
Hypothesis R_clause : ∀ s cl, R s (with_clause s cl).
Hypothesis R_input : ∀ s (l : Label) g (v : bool) s',
  od_get (gates (circuit s)) l = Some g → gate_type g = INPUT →
  with_value
    (with_circuit s (replace_inputs (circuit s) (if v then [l] else [])
                                    (if v then [] else [l]))) l v = Ok s' →
  R s s'.
Hypothesis R_gate : ∀ s (l : Label) g (v : bool),
  od_get (gates (circuit s)) l = Some g →
  is_constant_type (gate_type g) = false →
  R s (with_circuit s (set_gate (sever_operands (circuit s) g l) l
                                (constant_gate l v))).

Lemma assign_operands_rel rec ops :
  (∀ l v s st s', rec l v s = Ok (st, s') → R s s') →
  ∀ s st s', assign_operands rec ops s = Ok (st, s') → R s s'.
Proof.
  intros Hrec. induction ops as [|op ops IH]; intros s st s' H;
    cbn [assign_operands] in H.
  - injection H as <- <-. apply R_refl.
  - res_inv H. destruct a as [st1 s1]. apply Hrec in Ha. case_decide.
    + eapply R_trans; [exact Ha|]. by eapply IH.
    + injection H as <- <-. exact Ha.
Qed.

(** The first step of a call on a non-constant gate replaces that gate
    by the constant of the assigned value; the rest of the call is
    related by [R]. *)
Lemma assign_rec_first fuel l v s st s' g :
  (∀ l v s st s', assign_rec fuel l v s = Ok (st, s') → R s s') →
  assign_rec (S fuel) l v s = Ok (st, s') →
  od_get (gates (circuit s)) l = Some g →
  is_constant_type (gate_type g) = false →
  ∃ s1, R s s1
        ∧ gates (circuit s1) = od_set (gates (circuit s)) l (constant_gate l v)
        ∧ outputs (circuit s1) = outputs (circuit s)
        ∧ R s1 s'.
Proof.
  intros IH H Hg Hconst. cbn [assign_rec] in H. unfold get_gate in H.
  rewrite Hg in H. cbn [mbind res_bind] in H. rewrite Hconst in H.
  res_inv H. rename a into lit. case_decide as Hinput.
  { res_inv H. injection H as <- <-. exists a.
    assert (R s a) as HR.
    { eapply R_trans; [apply (R_clause s [if v then lit else - lit])|].
      eapply R_input; [exact Hg | exact Hinput | exact Ha0]. }
    split; [exact HR|]. split; [|split; [|apply R_refl]].
    - unfold with_value in Ha0. cbn [gates_config with_circuit with_clause] in Ha0.
      destruct (od_get (gates_config s) l); [|discriminate].
      injection Ha0 as <-. cbn [circuit]. unfold replace_inputs. cbn [gates].
      by destruct v.
    - unfold with_value in Ha0. cbn [gates_config with_circuit with_clause] in Ha0.
      destruct (od_get (gates_config s) l); [|discriminate].
      injection Ha0 as <-. cbn [circuit]. unfold replace_inputs. cbn [outputs].
      by destruct v. }
  set (s0 := with_clause s [if v then lit else - lit]) in *.
  set (s1 := with_circuit s0 (set_gate (sever_operands (circuit s0) g l) l
                                       (mkGate l (if v then ALWAYS_TRUE else ALWAYS_FALSE) []))) in *.
  assert (R s s1) as HR1.
  { eapply R_trans; [apply (R_clause s [if v then lit else - lit])|].
    apply (R_gate s0 l g v); done. }
  assert (gates (circuit s1) = od_set (gates (circuit s)) l (constant_gate l v)) as Hg1.
  { unfold s1, s0. cbn [circuit with_circuit with_clause set_gate gates].
    by rewrite sever_operands_gates. }
  assert (outputs (circuit s1) = outputs (circuit s)) as Ho1.
  { unfold s1, s0. cbn [circuit with_circuit with_clause set_gate outputs].
    by rewrite sever_operands_outputs. }
  exists s1. split; [exact HR1|]. split; [exact Hg1|]. split; [exact Ho1|].
  case_decide as Hnot.
  { res_inv H. by eapply IH. }
  case_decide as Hand; [|discriminate].
  destruct v.
  { eapply assign_operands_rel; [|exact H]. exact IH. }
  destruct (negb _); [discriminate|].
  do 6 res_inv H. injection H as <- <-. apply R_clause.
Qed.

Lemma assign_rec_rel fuel : ∀ l v s st s',
  assign_rec fuel l v s = Ok (st, s') → R s s'.
Proof.
  induction fuel as [|fuel IH]; intros l v s st s' H; [discriminate|].
  destruct (od_get (gates (circuit s)) l) as [g|] eqn:Hg.
  2:{ cbn [assign_rec] in H. unfold get_gate in H. rewrite Hg in H. discriminate. }
  destruct (is_constant_type (gate_type g)) eqn:Hconst.
  { cbn [assign_rec] in H. unfold get_gate in H. rewrite Hg in H.
    cbn [mbind res_bind] in H. rewrite Hconst in H. res_inv H.
    case_bool_decide; injection H as <- <-; apply R_refl. }
  destruct (assign_rec_first fuel l v s st s' g IH H Hg Hconst)
    as (s1 & HR1 & _ & _ & HR2).
  by eapply R_trans.
Qed.

End AssignRel.

(** *** Gates are only ever replaced by constants *)

Lemma frozen_refl c : frozen c c.
Proof. split; [done|]. split; [done|]. intros k g Hg. by left. Qed.

Lemma constant_gate_constant k b : is_constant_type (gate_type (constant_gate k b)) = true.
Proof. by destruct b. Qed.

Lemma frozen_trans c1 c2 c3 : frozen c1 c2 → frozen c2 c3 → frozen c1 c3.
Proof.
  intros (Hk1 & Ho1 & H1) (Hk2 & Ho2 & H2).
  split; [congruence|]. split; [congruence|].
  intros k g Hg. destruct (H1 k g Hg) as [Hsame | (Hnc & b & Hb)].
  - destruct (H2 k g Hsame) as [? | (? & b & ?)]; [by left|].
    right. split; [done|]. by exists b.
  - right. split; [done|]. exists b.
    destruct (H2 _ _ Hb) as [? | (Hcontra & _)]; [done|].
    by rewrite constant_gate_constant in Hcontra.
Qed.

Lemma frozen_set c c' l g v :
  od_get (gates c) l = Some g →
  is_constant_type (gate_type g) = false →
  gates c' = od_set (gates c) l (constant_gate l v) →
  outputs c' = outputs c →
  frozen c c'.
Proof.
  intros Hg Hnc Hgates Hout. split; [|split; [done|]].
  - rewrite Hgates. by eapply od_set_keys.
  - intros k g' Hk. rewrite Hgates. destruct (decide (l = k)) as [<-|Hne].
    + right. rewrite Hg in Hk. injection Hk as <-. split; [done|].
      exists v. apply od_get_set_eq.
    + left. by rewrite od_get_set_ne.
Qed.

Lemma with_value_circuit s l v s' : with_value s l v = Ok s' → circuit s' = circuit s.
Proof.
  unfold with_value. destruct (od_get (gates_config s) l); [|discriminate].
  by intros [= <-].
Qed.

Lemma frozen_input (a : CircuitSatInstance) (k : Label) g (b : bool) a' :
  od_get (gates (circuit a)) k = Some g → gate_type g = INPUT →
  with_value
    (with_circuit a (replace_inputs (circuit a) (if b then [k] else [])
                                    (if b then [] else [k]))) k b = Ok a' →
  frozen (circuit a) (circuit a').
Proof.
  intros Hg Hty Hwv. apply with_value_circuit in Hwv. rewrite Hwv.
  cbn [circuit with_circuit]. eapply (frozen_set _ _ k g b); [done| | |].
  - rewrite Hty. done.
  - unfold replace_inputs. cbn [gates]. by destruct b.
  - unfold replace_inputs. cbn [outputs]. by destruct b.
Qed.

Lemma frozen_gate (a : CircuitSatInstance) (k : Label) g (b : bool) :
  od_get (gates (circuit a)) k = Some g →
  is_constant_type (gate_type g) = false →
  frozen (circuit a)
    (circuit (with_circuit a (set_gate (sever_operands (circuit a) g k) k
                                       (constant_gate k b)))).
Proof.
  intros Hg Hnc. cbn [circuit with_circuit].
  eapply (frozen_set _ _ k g b); [done|done| |].
  - cbn [set_gate gates]. by rewrite sever_operands_gates.
  - cbn [set_gate outputs]. by rewrite sever_operands_outputs.
Qed.

Lemma assign_rec_frozen fuel l v s st s' :
  assign_rec fuel l v s = Ok (st, s') → frozen (circuit s) (circuit s').
Proof.
  apply (assign_rec_rel (fun a b => frozen (circuit a) (circuit b))).
  - intros a. apply frozen_refl.
  - intros a b c. apply frozen_trans.
  - intros a cl. apply frozen_refl.
  - apply frozen_input.
  - apply frozen_gate.
Qed.



(* ------------------------------------------------------------------ *)
(** ** What the simplifier keeps                                       *)
(* ------------------------------------------------------------------ *)

(** A gate either adds nothing to the new circuit (it became a constant
    or an alias) or is emplaced under its own label, with its own type
    or as a NOT. *)
Lemma transform_gate_cases g st st' :
  transform_gate g st = Ok st' →
  new_circuit st' = new_circuit st
  ∨ (is_constant_type (gate_type g) = false
     ∧ ∃ t ops, (t = gate_type g ∨ t = NOT)
                ∧ emplace_gate (new_circuit st) (label g) t ops
                  = Ok (new_circuit st')).
Proof.
  intros H. unfold transform_gate in H.
  set (P := fun r : RcgState =>
    new_circuit r = new_circuit st
    ∨ (is_constant_type (gate_type g) = false
       ∧ ∃ t ops, (t = gate_type g ∨ t = NOT)
                  ∧ emplace_gate (new_circuit st) (label g) t ops
                    = Ok (new_circuit r))).
  change (P st').
  assert (∀ t ops,
            is_constant_type (gate_type g) = false →
            (t = gate_type g ∨ t = NOT) →
            ∀ r, (emplace_gate (new_circuit st) (label g) t ops
                    ≫= (fun nc => Ok (set_new_circuit st nc))) = Ok r → P r) as Hemp.
  { intros t ops Hnc Ht r Hr. res_inv Hr. injection Hr as <-. right.
    split; [done|]. exists t, ops. done. }
  assert (∀ l b, P (set_const st l b)) as Hconst by (intros; by left).
  assert (∀ l t, P (set_remap st l t)) as Hremap by (intros; by left).
  destruct (gate_type g) eqn:Hty;
    try (injection H as <-; apply Hconst);
    try (eapply Hemp; [| | exact H]; [reflexivity | by left]).
  all: match type of H with
       | match ?ci with _ => _ end = _ => destruct ci as [|const_idx ?]
       end;
    try (eapply Hemp; [| | exact H]; [reflexivity | by left]).
  all: destruct (_ && _);
    [ do 5 res_inv H;
      repeat match type of H with
             | (if ?b then _ else _) = _ => destruct b
             | match ?o with _ => _ end = _ => destruct o
             end;
      try discriminate;
      try (injection H as <-; first [apply Hconst | apply Hremap]);
      try (res_inv H; injection H as <-; apply Hremap);
      try (eapply Hemp; [| | exact H]; [reflexivity | by right])
    | destruct (Nat.eqb _ _); [|discriminate];
      do 2 res_inv H; injection H as <-; apply Hconst ].
Qed.

(** The gates that a run adds: each under the label of a non-constant
    gate of the order, never more of them than such gates. *)
Lemma transform_loop_added order : ∀ st st',
  transform_loop order st = Ok st' →
  ∃ added,
    gates (new_circuit st') = gates (new_circuit st) ++ added
    ∧ (length added
       ≤ length (filter (fun g => is_constant_type (gate_type g) = false) order))%nat
    ∧ ∀ k g', (k, g') ∈ added →
        ∃ g, g ∈ order ∧ label g = k ∧ label g' = k
             ∧ is_constant_type (gate_type g) = false
             ∧ (gate_type g' = gate_type g ∨ gate_type g' = NOT)
             ∧ length (operands g') = arity (gate_type g').
Proof.
  induction order as [|g order IH]; intros st st' H; cbn [transform_loop] in H.
  - injection H as <-. exists []. rewrite app_nil_r. split; [done|].
    split; [done|]. intros k g' Hin. inversion Hin.
  - res_inv H. rename a into st1.
    destruct (IH _ _ H) as (added & Hg & Hlen & Hin).
    destruct (transform_gate_cases _ _ _ Ha) as [Hsame | (Hnc & t & ops & Ht & Hemp)].
    + exists added. rewrite Hg, Hsame. split; [done|]. split.
      * rewrite filter_cons. case_decide; simpl; lia.
      * intros k g' Hk. destruct (Hin k g' Hk) as (g0 & Hg0 & Hrest).
        exists g0. split; [by right | done].
    + apply emplace_gate_gates in Hemp as (Hgates & _ & _ & Har & _).
      exists ((label g, mkGate (label g) t ops) :: added).
      rewrite Hg, Hgates, <- app_assoc. split; [done|]. split.
      * rewrite filter_cons. rewrite decide_True by done. simpl. lia.
      * intros k g' Hk. apply elem_of_cons in Hk as [[= -> ->] | Hk].
        -- exists g. split; [by left|]. simpl. done.
        -- destruct (Hin k g' Hk) as (g0 & Hg0 & Hrest).
           exists g0. split; [by right | done].
Qed.

Lemma transform_with_added order c c1 :
  transform_with order c = Ok c1 →
  (length (gates c1)
   ≤ length (filter (fun g => is_constant_type (gate_type g) = false) order))%nat
  ∧ ∀ k g', (k, g') ∈ gates c1 →
      ∃ g, g ∈ order ∧ label g = k ∧ label g' = k
           ∧ is_constant_type (gate_type g) = false
           ∧ (gate_type g' = gate_type g ∨ gate_type g' = NOT)
           ∧ length (operands g') = arity (gate_type g').
Proof.
  unfold transform_with. intros H. res_inv H. rename a into st.
  destruct (transform_loop_added _ _ _ Ha) as (added & Hg & Hlen & Hin).
  cbn [new_circuit gates empty_circuit app] in Hg.
  res_inv H. rename a into nc1.
  unfold set_inputs in Ha0. destruct (forallb _ _) in Ha0; [|discriminate].
  injection Ha0 as <-.
  unfold set_outputs in H. cbn [gates] in H.
  destruct (forallb _ _) in H; [|discriminate].
  injection H as <-. cbn [gates]. rewrite Hg. done.
Qed.

(** *** Counting the non-constant gates *)

Lemma nonconst_count_values c :
  nonconst_count c
  = length (filter (fun g => is_constant_type (gate_type g) = false)
                   (od_values (gates c))).
Proof.
  unfold nonconst_count, od_values.
  induction (gates c) as [|[k g] d IH]; [done|].
  rewrite fmap_cons, !filter_cons. cbn [snd].
  case_decide; simpl; by rewrite IH.
Qed.

Lemma nonconst_count_le c : (nonconst_count c ≤ length (gates c))%nat.
Proof. unfold nonconst_count. apply length_filter. Qed.

Lemma nonconst_filter_perm (l1 l2 : list Gate) :
  Permutation l1 l2 →
  length (filter (fun g => is_constant_type (gate_type g) = false) l1)
  = length (filter (fun g => is_constant_type (gate_type g) = false) l2).
Proof. intros Hp. by rewrite Hp. Qed.

Lemma nonconst_count_gates c c' :
  gates c' = gates c → nonconst_count c' = nonconst_count c.
Proof. unfold nonconst_count. by intros ->. Qed.

Lemma count_input (a : CircuitSatInstance) (k : Label) g (b : bool) a' :
  od_get (gates (circuit a)) k = Some g → gate_type g = INPUT →
  with_value
    (with_circuit a (replace_inputs (circuit a) (if b then [k] else [])
                                    (if b then [] else [k]))) k b = Ok a' →
  (nonconst_count (circuit a') ≤ nonconst_count (circuit a))%nat.
Proof.
  intros Hg Hty Hwv. apply with_value_circuit in Hwv. rewrite Hwv.
  cbn [circuit with_circuit].
  pose proof (nonconst_count_set (circuit a) k g (constant_gate k b) Hg
                (constant_gate_constant k b)) as Hset.
  erewrite (nonconst_count_gates (set_gate (circuit a) k (constant_gate k b))); [lia|].
  unfold replace_inputs. cbn [gates set_gate]. by destruct b.
Qed.

Lemma count_gate (a : CircuitSatInstance) (k : Label) g (b : bool) :
  od_get (gates (circuit a)) k = Some g →
  is_constant_type (gate_type g) = false →
  (nonconst_count
     (circuit (with_circuit a (set_gate (sever_operands (circuit a) g k) k
                                        (constant_gate k b))))
   ≤ nonconst_count (circuit a))%nat.
Proof.
  intros Hg Hnc. cbn [circuit with_circuit].
  pose proof (nonconst_count_set (circuit a) k g (constant_gate k b) Hg
                (constant_gate_constant k b)) as Hset.
  erewrite (nonconst_count_gates (set_gate (circuit a) k (constant_gate k b))); [lia|].
  cbn [gates set_gate]. by rewrite sever_operands_gates.
Qed.

Lemma assign_rec_count_le fuel l v s st s' :
  assign_rec fuel l v s = Ok (st, s') →
  (nonconst_count (circuit s') ≤ nonconst_count (circuit s))%nat.
Proof.
  apply (assign_rec_rel
           (fun a b => (nonconst_count (circuit b) ≤ nonconst_count (circuit a))%nat)).
  - intros a. lia.
  - intros a b c ? ?. lia.
  - intros a cl. done.
  - apply count_input.
  - apply count_gate.
Qed.

(** A call on a non-constant gate that returns leaves strictly fewer
    non-constant gates. *)
Lemma assign_rec_count_lt fuel l v s st s' g :
  assign_rec fuel l v s = Ok (st, s') →
  od_get (gates (circuit s)) l = Some g →
  is_constant_type (gate_type g) = false →
  (nonconst_count (circuit s') < nonconst_count (circuit s))%nat.
Proof.
  destruct fuel as [|fuel]; [discriminate|]. intros H Hg Hnc.
  destruct (assign_rec_first
              (fun a b => (nonconst_count (circuit b) ≤ nonconst_count (circuit a))%nat)
              ltac:(cbv beta; intros; lia)
              ltac:(cbv beta; intros ? ? ? ? ?; lia)
              ltac:(cbv beta; intros; done)
              count_input count_gate
              fuel l v s st s' g) as (s1 & _ & Hg1 & _ & Hle); try done.
  { intros. by eapply assign_rec_count_le. }
  pose proof (nonconst_count_set (circuit s) l g (constant_gate l v) Hg
                (constant_gate_constant l v)) as Hset.
  rewrite Hnc in Hset.
  rewrite (nonconst_count_gates (set_gate (circuit s) l (constant_gate l v))
             (circuit s1)) in Hle by done.
  lia.
Qed.

Lemma frozen_length c c' : frozen c c' → length (gates c') = length (gates c).
Proof.
  intros (Hk & _). unfold od_keys in Hk.
  rewrite <- (length_map fst (gates c')), <- (length_map fst (gates c)).
  by rewrite Hk.
Qed.

Section AssignShrinks.

Variable top_sort : Circuit → res (list Gate).
Hypothesis top_sort_enumerates : enumerates top_sort.

Lemma _transform_size c c1 :
  _transform top_sort c = Ok c1 → (length (gates c1) ≤ nonconst_count c)%nat.
Proof.
  unfold _transform. intros H. do 2 res_inv H. rename a0 into order.
  apply transform_with_added in H as [Hlen _].
  rewrite nonconst_count_values.
  by rewrite <- (nonconst_filter_perm _ _ (top_sort_enumerates _ _ Ha0)).
Qed.

Lemma assign_ok_inv l v self self' :
  assign top_sort l v self = Ok (OK, self') →
  ∃ self1, _assign_and_propagate l v self = Ok (OK, self1)
           ∧ _transform top_sort (circuit self1) = Ok (circuit self')
           ∧ cnf self' = cnf self1 ∧ gates_config self' = gates_config self1.
Proof.
  unfold assign. intros H. res_inv H. destruct a as [st self1].
  case_decide as Hst; [|injection H as -> _; done]. subst st.
  res_inv H. injection H as <-. unfold simplify in Ha0. res_inv Ha0.
  injection Ha0 as <-. exists self1. done.
Qed.

Lemma assign_shrinks l v self self' g :
  od_get (gates (circuit self)) l = Some g →
  is_constant_type (gate_type g) = false →
  assign top_sort l v self = Ok (OK, self') →
  0 < size (circuit self) - size (circuit self').
Proof.
  intros Hg Hnc H.
  destruct (assign_ok_inv _ _ _ _ H) as (self1 & H1 & Ht & _).
  pose proof (_transform_size _ _ Ht) as Hsize.
  pose proof (assign_rec_count_lt _ _ _ _ _ _ _ H1 Hg Hnc) as Hlt.
  pose proof (nonconst_count_le (circuit self)) as Hle.
  unfold size. lia.
Qed.

End AssignShrinks.

Lemma top_sort_insertion_enumerates : enumerates top_sort_insertion.
Proof. intros c order [= <-]. done. Qed.


(* ------------------------------------------------------------------ *)
(** ** The instance invariant                                          *)
(* ------------------------------------------------------------------ *)

Lemma od_get_elem {V} (d : odict V) k v :
  NoDup (od_keys d) → od_get d k = Some v ↔ (k, v) ∈ d.
Proof.
  intros Hnd. split; [apply od_get_Some_elem | by apply od_get_elem_nodup].
Qed.

Lemma od_get_is_Some_keys {V} (d : odict V) k :
  is_Some (od_get d k) ↔ k ∈ od_keys d.
Proof.
  rewrite <- od_mem_true. apply od_mem_true_keys.
Qed.

Lemma od_values_elem {V} (d : odict V) v :
  v ∈ od_values d → ∃ k, (k, v) ∈ d.
Proof.
  unfold od_values. intros H. apply list_elem_of_fmap in H as ([k v'] & -> & H).
  by exists k.
Qed.

Lemma elem_od_values {V} (d : odict V) k v : (k, v) ∈ d → v ∈ od_values d.
Proof.
  intros H. unfold od_values. apply list_elem_of_fmap. by exists (k, v).
Qed.

(** Freezing keeps labels unique and every gate under its own label. *)
Lemma frozen_labelled c c' :
  frozen c c' → NoDup (od_keys (gates c)) → self_labelled c →
  NoDup (od_keys (gates c')) ∧ self_labelled c'.
Proof.
  intros (Hk & _ & Hfr) Hnd Hsl.
  assert (NoDup (od_keys (gates c'))) as Hnd' by by rewrite Hk.
  split; [done|]. intros k g' Hin.
  apply od_get_elem in Hin; [|done].
  assert (is_Some (od_get (gates c) k)) as [g Hg].
  { apply od_get_is_Some_keys. rewrite <- Hk. apply od_get_is_Some_keys. by eexists. }
  destruct (Hfr k g Hg) as [Hsame | (_ & b & Hb)].
  - rewrite Hsame in Hin. injection Hin as <-. apply Hsl.
    by apply od_get_elem.
  - rewrite Hb in Hin. injection Hin as <-. by destruct b.
Qed.

(** A non-constant gate of a frozen circuit is a gate of the original. *)
Lemma frozen_nonconst c c' k g' :
  frozen c c' → od_get (gates c') k = Some g' →
  is_constant_type (gate_type g') = false →
  od_get (gates c) k = Some g'.
Proof.
  intros (Hk & _ & Hfr) Hg' Hnc.
  assert (is_Some (od_get (gates c) k)) as [g Hg].
  { apply od_get_is_Some_keys. rewrite <- Hk. apply od_get_is_Some_keys. by eexists. }
  destruct (Hfr k g Hg) as [Hsame | (_ & b & Hb)].
  - congruence.
  - rewrite Hb in Hg'. injection Hg' as <-.
    by rewrite constant_gate_constant in Hnc.
Qed.


Lemma supported_gate_nonconst g :
  supported_gate g → is_constant_type (gate_type g) = false.
Proof.
  unfold supported_gate, is_constant_type. intros [H | [[H _] | [H _]]];
    rewrite H; by apply bool_decide_eq_false_2; intros [?|?].
Qed.

Section AssignInvariant.

Variable top_sort : Circuit → res (list Gate).
Hypothesis top_sort_enumerates : enumerates top_sort.

(** Every gate of the simplified circuit carries the label of a
    non-constant gate of the circuit it was made from. *)
Lemma _transform_origin c c1 k g' :
  NoDup (od_keys (gates c)) → self_labelled c →
  _transform top_sort c = Ok c1 →
  (k, g') ∈ gates c1 →
  ∃ g, od_get (gates c) k = Some g
       ∧ is_constant_type (gate_type g) = false
       ∧ (gate_type g' = gate_type g ∨ gate_type g' = NOT)
       ∧ length (operands g') = arity (gate_type g').
Proof.
  intros Hnd Hsl H Hin. unfold _transform in H. do 2 res_inv H.
  rename a0 into order.
  apply transform_with_added in H as [_ Horigin].
  destruct (Horigin k g' Hin) as (g & Hg & Hlk & _ & Hnc & Hty & Har).
  exists g. split; [|done].
  apply (elem_of_Permutation_proper _ _ _ (top_sort_enumerates _ _ Ha0)) in Hg.
  apply od_values_elem in Hg as [k0 Hk0].
  pose proof (Hsl _ _ Hk0) as Hk. apply od_get_elem; [done|]. congruence.
Qed.

Lemma assign_checked l v self self' :
  checked (circuit self) →
  assign top_sort l v self = Ok (OK, self') →
  checked (circuit self') ∧ built (circuit self').
Proof.
  intros (Hnd & Hsl & Hck) H.
  destruct (assign_ok_inv _ _ _ _ _ H) as (self1 & H1 & Ht & _).
  pose proof (assign_rec_frozen _ _ _ _ _ _ H1) as Hfr.
  destruct (frozen_labelled _ _ Hfr Hnd Hsl) as [Hnd1 Hsl1].
  assert (built (circuit self')) as Hb.
  { unfold _transform in Ht. do 2 res_inv Ht.
    by apply transform_with_built in Ht as [? _]. }
  split; [|exact Hb]. destruct Hb as [Hnd' Hb].
  split; [exact Hnd'|]. split.
  { intros k g' Hin. by destruct (Hb k g' Hin). }
  unfold _check_circuit in *. apply check_gates_ok. apply Forall_forall.
  intros g' Hg'. apply od_values_elem in Hg' as [k Hin].
  destruct (_transform_origin _ _ _ _ Hnd1 Hsl1 Ht Hin) as (g & Hg & Hnc & Hty & Har).
  apply (frozen_nonconst _ _ _ _ Hfr) in Hg; [|done].
  apply check_gates_ok in Hck. rewrite Forall_forall in Hck.
  assert (supported_gate g) as Hsup.
  { apply Hck. eapply elem_od_values. by apply od_get_Some_elem. }
  unfold supported_gate in *.
  destruct Hty as [Hty | Hty]; rewrite Hty in Har |- *.
  - destruct Hsup as [Hi | [[Ha _] | [Hn _]]].
    + by left.
    + right. left. split; [done|]. by rewrite Ha in Har.
    + right. right. split; [done|]. by rewrite Hn in Har.
  - right. right. done.
Qed.


End AssignInvariant.


Lemma forced_instance_checked : checked (circuit (instance_of forced_circuit)).
Proof.
  split; [|split].
  - apply (bool_decide_eq_true_1
             (NoDup (od_keys (gates (circuit (instance_of forced_circuit)))))).
    vm_compute. reflexivity.
  - intros k g Hin.
    assert (Forall (fun kg : Label * Gate => kg.1 = label kg.2)
                   (gates (circuit (instance_of forced_circuit)))) as Hall.
    { apply (bool_decide_eq_true_1
               (Forall (fun kg : Label * Gate => kg.1 = label kg.2)
                       (gates (circuit (instance_of forced_circuit))))).
      vm_compute. reflexivity. }
    rewrite Forall_forall in Hall. exact (Hall _ Hin).
  - vm_compute. reflexivity.
Qed.



(* ------------------------------------------------------------------ *)
(** ** The lookahead and the selection                                 *)
(* ------------------------------------------------------------------ *)

Section Lookahead.

Variable top_sort : Circuit → res (list Gate).
Variable candidates_limit : Z.

(** The two shapes of a lookahead result. *)
Lemma weight_gate_cases instance l wr :
  _weight_gate top_sort instance l = Ok wr →
  (∃ val b, wr = mkWeight None (Some (negb val))
            ∧ assign top_sort l val instance = Ok (CONFLICT, b)
            ∧ (val = true → ∃ b0, assign top_sort l false instance = Ok (OK, b0)))
  ∨ (∃ b0 b1,
       assign top_sort l false instance = Ok (OK, b0)
       ∧ assign top_sort l true instance = Ok (OK, b1)
       ∧ 0 < size (circuit instance) - size (circuit b0)
       ∧ 0 < size (circuit instance) - size (circuit b1)
       ∧ wr = mkWeight (Some (1 * (size (circuit instance) - size (circuit b0))
                              * (size (circuit instance) - size (circuit b1)))) None).
Proof.
  intros H. unfold _weight_gate in H. cbn [weight_loop] in H.
  res_inv H. destruct a as [st0 b0]. case_decide as Hst0.
  2:{ injection H as <-. left. exists false, b0. destruct st0; [done|].
      split; [done|]. split; [done|]. discriminate. }
  subst st0. destruct (Z.ltb_spec 0 (size (circuit instance) - size (circuit b0)));
    cbn [negb] in H; [|discriminate].
  res_inv H. destruct a as [st1 b1]. case_decide as Hst1.
  2:{ injection H as <-. left. exists true, b1. destruct st1; [done|].
      split; [done|]. split; [done|]. intros _. by exists b0. }
  subst st1. destruct (Z.ltb_spec 0 (size (circuit instance) - size (circuit b1)));
    cbn [negb] in H; [|discriminate].
  injection H as <-. right. exists b0, b1. done.
Qed.

Lemma weight_gate_unforced instance l wr :
  _weight_gate top_sort instance l = Ok wr →
  is_forced (wr_forced_value wr) = false →
  ∃ w, wr = mkWeight (Some w) None ∧ 0 < w
       ∧ (∃ b0, assign top_sort l false instance = Ok (OK, b0))
       ∧ (∃ b1, assign top_sort l true instance = Ok (OK, b1)).
Proof.
  intros H Hf. destruct (weight_gate_cases _ _ _ H)
    as [(val & b & -> & _) | (b0 & b1 & H0 & H1 & Hd0 & Hd1 & ->)]; [done|].
  eexists. split; [reflexivity|]. split; [nia|]. eauto.
Qed.

(** The loop keeps the first heaviest candidate seen so far. *)
Lemma select_loop_best instance cands : ∀ seen best bw sel,
  select_loop top_sort instance cands best bw = Ok sel →
  forced_value sel = None →
  (∀ c, c ∈ seen → ∃ w, lookahead_weight top_sort instance c w ∧ w ≤ bw) →
  match best with
  | Some b => b ∈ seen ∧ lookahead_weight top_sort instance b bw
  | None => bw = 0
  end →
  ∃ w, sel_label sel ∈ seen ++ cands
       ∧ lookahead_weight top_sort instance (sel_label sel) w
       ∧ ∀ c, c ∈ seen ++ cands →
           ∃ w', lookahead_weight top_sort instance c w' ∧ w' ≤ w.
Proof.
  induction cands as [|l cands IH]; intros seen best bw sel H Hnf Hseen Hbest.
  - cbn [select_loop] in H. destruct best as [b|]; [|discriminate].
    injection H as <-. cbn [sel_label]. destruct Hbest as [Hb Hw].
    exists bw. rewrite app_nil_r. done.
  - cbn [select_loop] in H. res_inv H. rename a into wr.
    destruct (is_forced (wr_forced_value wr)) eqn:Hf.
    { injection H as <-. cbn [forced_value] in Hnf. rewrite Hnf in Hf. done. }
    destruct (weight_gate_unforced _ _ _ Ha Hf) as (w & -> & Hpos & _).
    cbn [weight] in H.
    replace (seen ++ l :: cands) with ((seen ++ [l]) ++ cands)
      by (by rewrite <- app_assoc).
    destruct (Z.ltb_spec bw w).
    + eapply IH; [exact H | exact Hnf | |].
      * intros c Hc. apply elem_of_app in Hc as [Hc | Hc].
        -- destruct (Hseen c Hc) as (w' & Hw' & Hle). exists w'. split; [done | lia].
        -- apply list_elem_of_singleton in Hc as ->. exists w. split; [exact Ha | lia].
      * split; [|exact Ha]. apply elem_of_app. right. by left.
    + eapply IH; [exact H | exact Hnf | |].
      * intros c Hc. apply elem_of_app in Hc as [Hc | Hc].
        -- by apply Hseen.
        -- apply list_elem_of_singleton in Hc as ->. exists w. split; [exact Ha | lia].
      * destruct best as [b|]; [|lia].
        destruct Hbest as [Hb Hw]. split; [|done]. apply elem_of_app. by left.
Qed.


End Lookahead.


(* ------------------------------------------------------------------ *)
(** ** The cube tree                                                   *)
(* ------------------------------------------------------------------ *)

(** X9: the lookahead on a non-constant gate, given that [top_sort]
    enumerates the gates: a weight it returns is at least one, and it
    raises [AssertionError] only when one of its two [assign] calls
    does, never from its own [assert delta > 0]. *)
Theorem X9_weight_gate_assertion (top_sort : Circuit → res (list Gate))
    (instance : CircuitSatInstance) (l : Label) (g : Gate) :
  enumerates top_sort →
  od_get (gates (circuit instance)) l = Some g →
  is_constant_type (gate_type g) = false →
  (∀ wr w, _weight_gate top_sort instance l = Ok wr → weight wr = Some w → 1 ≤ w)
  ∧ (_weight_gate top_sort instance l = Raise AssertionError →
     assign top_sort l false instance = Raise AssertionError
     ∨ assign top_sort l true instance = Raise AssertionError).
Proof.
  intros Henum Hg Hnc. split.
  - intros wr w H Hw.
    destruct (weight_gate_cases _ _ _ _ H)
      as [(val & b & -> & _) | (b0 & b1 & _ & _ & Hd0 & Hd1 & ->)]; [done|].
    injection Hw as <-. nia.
  - unfold _weight_gate. cbn [weight_loop]. intros H.
    destruct (assign top_sort l false instance) as [[st0 b0]|e|] eqn:E0;
      cbn [mbind res_bind] in H; [|left; congruence|done].
    right. case_decide as Hst0; [|done]. subst st0.
    pose proof (assign_shrinks top_sort Henum l false instance b0 g Hg Hnc E0) as Hd0.
    destruct (Z.ltb_spec 0 (size (circuit instance) - size (circuit b0)));
      [|lia]. cbn [negb] in H.
    destruct (assign top_sort l true instance) as [[st1 b1]|e|] eqn:E1;
      cbn [mbind res_bind] in H; [|congruence|done].
    case_decide as Hst1; [|done]. subst st1.
    pose proof (assign_shrinks top_sort Henum l true instance b1 g Hg Hnc E1) as Hd1.
    destruct (Z.ltb_spec 0 (size (circuit instance) - size (circuit b1)));
      [|lia]. cbn [negb] in H. done.
Qed.

Lemma X9_weight_gate_assertion_witness :
  ∃ wr w,
    _weight_gate top_sort_insertion (instance_of forced_circuit) "x" = Ok wr
    ∧ weight wr = Some w
    ∧ 1 ≤ w.
Proof.
  assert (∃ wr w,
            _weight_gate top_sort_insertion (instance_of forced_circuit) "x" = Ok wr
            ∧ weight wr = Some w) as (wr & w & Hwr & Hw)
    by (eexists _, _; split; [vm_compute; reflexivity | reflexivity]).
  exists wr, w. split; [exact Hwr|]. split; [exact Hw|].
  refine (proj1 (X9_weight_gate_assertion top_sort_insertion
                   (instance_of forced_circuit) "x" (mkGate "x" INPUT [])
                   top_sort_insertion_enumerates _ _) wr w Hwr Hw).
  - vm_compute. reflexivity.
  - reflexivity.
Defined.

Section CubeTree.

Variable top_sort : Circuit → res (list Gate).
Variable max_depth : Z.
Variable candidates_limit : Z.

Lemma cube_rec_count fuel : ∀ instance depth cubes,
  cube_rec top_sort max_depth candidates_limit fuel instance depth = Ok cubes →
  (1 ≤ length cubes ≤ 2 ^ Z.to_nat (max_depth - depth))%nat.
Proof.
  induction fuel as [|fuel IH]; intros instance depth cubes H; [discriminate|].
  cbn [cube_rec] in H.
  assert (1 ≤ 2 ^ Z.to_nat (max_depth - depth))%nat as Hone.
  { pose proof (Nat.pow_nonzero 2 (Z.to_nat (max_depth - depth))). lia. }
  destruct (_should_stop max_depth instance depth) eqn:Hstop.
  { injection H as <-. simpl. lia. }
  apply should_stop_false in Hstop.
  assert (Z.to_nat (max_depth - depth) = S (Z.to_nat (max_depth - (depth + 1))))
    as Hd by lia.
  res_inv H. destruct a as [sel|]; [|injection H as <-; simpl; lia].
  destruct (forced_value sel).
  - res_inv H. destruct a as [st i1]. apply IH in H.
    rewrite Hd, Nat.pow_succ_r'. lia.
  - res_inv H. destruct a as [st0 i0]. res_inv H. rename a into r0.
    res_inv H. destruct a as [st1 i1]. res_inv H. rename a into r1.
    injection H as <-. apply IH in Ha1, Ha3.
    rewrite length_app, Hd, Nat.pow_succ_r'. lia.
Qed.

Hypothesis top_sort_enumerates : enumerates top_sort.

(** Every [assign] that [_cube] performs returns OK. *)
Lemma select_gate_assigns instance sel :
  _select_gate top_sort candidates_limit instance = Ok (Some sel) →
  match forced_value sel with
  | Some fv => ∃ b, assign top_sort (sel_label sel) fv instance = Ok (OK, b)
  | None =>
      (∃ b0, assign top_sort (sel_label sel) false instance = Ok (OK, b0))
      ∧ (∃ b1, assign top_sort (sel_label sel) true instance = Ok (OK, b1))
  end.
Proof.
  intros H. unfold _select_gate in H. res_inv H. rename a into cands.
  destruct cands as [|c0 cands]; [discriminate|].
  res_inv H. injection H as <-. rename a into sel.
  destruct (forced_value sel) as [fv|] eqn:Hfv.
  - destruct (select_loop_forced _ _ _ _ _ _ _ Ha0 Hfv) as (Hin & wr & Hwr & Hf).
    pose proof (rank_candidates_branchable _ _ _ _ Ha Hin) as Hbr.
    destruct (weight_gate_forced _ _ _ _ _ Hbr Hwr Hf) as (-> & Hok & _). exact Hok.
  - destruct (select_loop_best top_sort instance (c0 :: cands) [] None 0 sel Ha0 Hfv)
      as (w & _ & Hw & _).
    + intros c Hc. inversion Hc.
    + done.
    + by destruct (weight_gate_unforced _ _ _ _ Hw eq_refl) as (w' & _ & _ & H0 & H1).
Qed.

Lemma cube_rec_invariant fuel : ∀ instance depth cubes,
  checked (circuit instance) →
  cube_rec top_sort max_depth candidates_limit fuel instance depth = Ok cubes →
  Forall (fun cube => checked (circuit cube) ∧ numbering_kept instance cube) cubes.
Proof.
  induction fuel as [|fuel IH]; intros instance depth cubes Hck H; [discriminate|].
  cbn [cube_rec] in H.
  assert (Forall (fun cube => checked (circuit cube) ∧ numbering_kept instance cube)
                 [instance]) as Hleaf.
  { constructor; [|constructor]. split; [done | apply numbering_kept_refl]. }
  destruct (_should_stop max_depth instance depth); [by injection H as <-|].
  res_inv H. destruct a as [sel|]; [|by injection H as <-].
  pose proof (select_gate_assigns _ _ Ha) as Hsel.
  assert (∀ v st i1 r,
            assign top_sort (sel_label sel) v instance = Ok (OK, i1) →
            assign top_sort (sel_label sel) v instance = Ok (st, i1) →
            cube_rec top_sort max_depth candidates_limit fuel i1 (depth + 1) = Ok r →
            Forall (fun cube => checked (circuit cube) ∧ numbering_kept instance cube) r)
    as Hbranch.
  { intros v st i1 r Hok _ Hr.
    destruct (assign_checked top_sort top_sort_enumerates _ _ _ _ Hck Hok) as [Hck1 _].
    pose proof (assign_kept _ _ _ _ _ _ Hok) as Hk1.
    eapply Forall_impl; [exact (IH _ _ _ Hck1 Hr)|].
    intros cube [? ?]. split; [done|]. by eapply numbering_kept_trans. }
  destruct (forced_value sel) as [fv|].
  - res_inv H. destruct a as [st i1]. destruct Hsel as [b Hb].
    assert (Ha0' := Ha0). rewrite Hb in Ha0'. injection Ha0' as <- <-.
    eapply (Hbranch fv OK b); [exact Hb | exact Hb | exact H].
  - destruct Hsel as [[b0 Hb0] [b1 Hb1]].
    res_inv H. destruct a as [st0 i0]. res_inv H. rename a into r0.
    res_inv H. destruct a as [st1 i1]. res_inv H. rename a into r1.
    injection H as <-.
    assert (Ha0' := Ha0). rewrite Hb0 in Ha0'. injection Ha0' as <- <-.
    assert (Ha2' := Ha2). rewrite Hb1 in Ha2'. injection Ha2' as <- <-.
    apply Forall_app. split.
    + eapply (Hbranch false OK b0); [exact Hb0 | exact Hb0 | exact Ha1].
    + eapply (Hbranch true OK b1); [exact Hb1 | exact Hb1 | exact Ha3].
Qed.

End CubeTree.

(** X10: the cube tree is binary and at most [max_depth - depth] deep:
    [_cube] returns at least one cube and at most two to the power of the
    depth that is left; at the depth limit or without inputs it returns
    the instance alone. *)
Theorem X10_cube_count (top_sort : Circuit → res (list Gate))
    (max_depth candidates_limit : Z) (instance : CircuitSatInstance)
    (depth : Z) (cubes : list CircuitSatInstance) :
  _cube top_sort max_depth candidates_limit instance depth = Ok cubes →
  (1 ≤ length cubes ≤ 2 ^ Z.to_nat (max_depth - depth))%nat
  ∧ (max_depth ≤ depth ∨ input_size (circuit instance) = 0 → cubes = [instance]).
Proof.
  intros H. split; [by eapply cube_rec_count|].
  intros Hstop. unfold _cube in H. cbn [cube_rec] in H.
  assert (_should_stop max_depth instance depth = true) as Hs.
  { unfold _should_stop. destruct Hstop as [Hd | ->]; [|done].
    destruct (Z.eqb _ 0); [done|]. by destruct (Z.leb_spec max_depth depth); [|lia]. }
  rewrite Hs in H. by injection H as <-.
Qed.

Lemma X10_cube_count_witness :
  ∃ cubes,
    _cube top_sort_insertion 2 10 (instance_of forced_circuit) 0 = Ok cubes
    ∧ (1 ≤ length cubes ≤ 4)%nat.
Proof.
  destruct (_cube top_sort_insertion 2 10 (instance_of forced_circuit) 0)
    as [cubes| |] eqn:E; [|vm_compute in E; discriminate..].
  exists cubes. split; [reflexivity|].
  exact (proj1 (X10_cube_count top_sort_insertion 2 10
                  (instance_of forced_circuit) 0 cubes E)).
Defined.

(** X11: every cube that [_cube] returns from an instance satisfying the
    constructor's invariant satisfies it too, and keeps the variable
    numbering of that instance: same variable map, same labels and
    variables in [gates_config], clauses only appended. *)
Theorem X11_cubes_keep_invariant (top_sort : Circuit → res (list Gate))
    (max_depth candidates_limit : Z) (instance : CircuitSatInstance)
    (depth : Z) (cubes : list CircuitSatInstance) :
  enumerates top_sort →
  checked (circuit instance) →
  _cube top_sort max_depth candidates_limit instance depth = Ok cubes →
  Forall (fun cube => checked (circuit cube) ∧ numbering_kept instance cube) cubes.
Proof.
  intros Henum Hck H. by eapply cube_rec_invariant.
Qed.

Lemma X11_cubes_keep_invariant_witness :
  ∃ cubes,
    _cube top_sort_insertion 2 10 (instance_of forced_circuit) 0 = Ok cubes
    ∧ Forall (fun cube => checked (circuit cube)
                          ∧ numbering_kept (instance_of forced_circuit) cube) cubes.
Proof.
  destruct (_cube top_sort_insertion 2 10 (instance_of forced_circuit) 0)
    as [cubes| |] eqn:E; [|vm_compute in E; discriminate..].
  exists cubes. split; [reflexivity|].
  exact (X11_cubes_keep_invariant top_sort_insertion 2 10
           (instance_of forced_circuit) 0 cubes
           top_sort_insertion_enumerates forced_instance_checked E).
Defined.

(** X12: [conquer] answers UNSAT exactly when the backend answers UNSAT
    on every cube, and then it returns no model; the cubes after the
    first satisfiable one have no influence on the result. *)
Theorem X12_conquer_unsat (is_satisfiable : Cnf → PySatResult)
    (cubes : list CircuitSatInstance) :
  (conquer is_satisfiable cubes = Ok (mkSatResult false None)
   ↔ Forall (fun i => answer (is_satisfiable (cnf i)) = false) cubes)
  ∧ (∀ r, conquer is_satisfiable cubes = Ok r → answer r = false → model r = None)
  ∧ (∀ pre i post post',
       cubes = pre ++ i :: post →
       Forall (fun i => answer (is_satisfiable (cnf i)) = false) pre →
       answer (is_satisfiable (cnf i)) = true →
       conquer is_satisfiable cubes = conquer is_satisfiable (pre ++ i :: post')).
Proof.
  split; [|split].
  - induction cubes as [|i cubes IH]; cbn [conquer].
    + split; [constructor | done].
    + destruct (answer (is_satisfiable (cnf i))) eqn:Hi.
      * split.
        -- intros H. res_inv H. discriminate.
        -- intros H. inversion H; congruence.
      * rewrite IH. split; [by constructor | by inversion 1].
  - induction cubes as [|i cubes IH]; cbn [conquer]; intros r H Hr.
    + by injection H as <-.
    + destruct (answer (is_satisfiable (cnf i))).
      * res_inv H. injection H as <-. discriminate.
      * by apply IH.
  - intros pre i post post' -> Hpre Hi.
    rewrite !conquer_skips_unsat by done. cbn [conquer]. by rewrite Hi.
Qed.
(* ------------------------------------------------------------------ *)
(** ** Single steps of [_assign_and_propagate]                         *)
(* ------------------------------------------------------------------ *)







Lemma assign_rec_input_step fuel l v s g lit :
  od_get (gates (circuit s)) l = Some g →
  gate_type g = INPUT →
  config_idx s l = Ok lit →
  ∃ gc s',
    od_get (gates_config s) l = Some gc
    ∧ assign_rec (S fuel) l v s = Ok (OK, s')
    ∧ gates (circuit s') = od_set (gates (circuit s)) l (constant_gate l v)
    ∧ inputs (circuit s') = filter (fun i => i ≠ l) (inputs (circuit s))
    ∧ outputs (circuit s') = outputs (circuit s)
    ∧ users (circuit s') = users (circuit s)
    ∧ cnf s' = add_clause (cnf s) [if v then lit else - lit]
    ∧ gates_config s'
      = od_set (gates_config s) l
          (mkGateConfig (gc_label gc) (idx gc) (is_input gc) (Some v)).
Proof.
  intros Hg Hty Hlit.
  assert (∃ gc, od_get (gates_config s) l = Some gc) as [gc Hgc].
  { unfold config_idx, config_entry in Hlit.
    destruct (od_get (gates_config s) l); [by eexists | discriminate]. }
  exists gc. eexists. split; [exact Hgc|]. split.
  { cbn [assign_rec]. unfold get_gate. rewrite Hg.
    cbn [mbind res_bind].
    replace (is_constant_type (gate_type g)) with false by (by rewrite Hty).
    rewrite Hlit. cbn [mbind res_bind].
    rewrite decide_True by done.
    unfold with_value. cbn [gates_config with_circuit with_clause].
    rewrite Hgc. cbn [mbind res_bind]. reflexivity. }
  cbn [circuit cnf gates_config with_clause with_circuit].
  unfold replace_inputs. cbn [gates inputs outputs users].
  destruct v; cbn [fold_left set_gate gates inputs outputs users app];
    repeat split; try reflexivity.
  - apply list_filter_iff. intros i. simpl. by rewrite list_elem_of_singleton.
  - apply list_filter_iff. intros i. simpl. by rewrite list_elem_of_singleton.
Qed.





Lemma assign_input_eq l v s g lit :
  od_get (gates (circuit s)) l = Some g →
  gate_type g = INPUT →
  config_idx s l = Ok lit →
  ∃ gc s',
    od_get (gates_config s) l = Some gc
    ∧ _assign_and_propagate l v s = Ok (OK, s')
    ∧ gates (circuit s') = od_set (gates (circuit s)) l (constant_gate l v)
    ∧ inputs (circuit s') = filter (fun i => i ≠ l) (inputs (circuit s))
    ∧ outputs (circuit s') = outputs (circuit s)
    ∧ users (circuit s') = users (circuit s)
    ∧ cnf s' = add_clause (cnf s) [if v then lit else - lit]
    ∧ gates_config s'
      = od_set (gates_config s) l
          (mkGateConfig (gc_label gc) (idx gc) (is_input gc) (Some v)).
Proof. intros. unfold _assign_and_propagate. by eapply assign_rec_input_step. Qed.


(* ------------------------------------------------------------------ *)
(** ** Assigning an input; a gate against its own negation            *)
(* ------------------------------------------------------------------ *)

(** X14: assigning an INPUT gate that has a variable returns OK after
    appending the unit clause of the value, replacing the gate by the
    constant, removing the label from the inputs and recording the value
    in its [GateConfig]; no other gate, user list or entry changes. *)
Theorem X14_assign_input (l : Label) (v : bool) (self : CircuitSatInstance)
    (gate : Gate) (lit : Lit) :
  od_get (gates (circuit self)) l = Some gate →
  gate_type gate = INPUT →
  config_idx self l = Ok lit →
  ∃ gc self1,
    od_get (gates_config self) l = Some gc
    ∧ _assign_and_propagate l v self = Ok (OK, self1)
    ∧ _cnf (cnf self1) = _cnf (cnf self) ++ [[if v then lit else - lit]]
    ∧ _var_map (cnf self1) = _var_map (cnf self)
    ∧ od_get (gates (circuit self1)) l = Some (constant_gate l v)
    ∧ (∀ k, k ≠ l →
         od_get (gates (circuit self1)) k = od_get (gates (circuit self)) k)
    ∧ inputs (circuit self1) = filter (fun i => i ≠ l) (inputs (circuit self))
    ∧ outputs (circuit self1) = outputs (circuit self)
    ∧ users (circuit self1) = users (circuit self)
    ∧ od_get (gates_config self1) l
      = Some (mkGateConfig (gc_label gc) (idx gc) (is_input gc) (Some v))
    ∧ (∀ k, k ≠ l →
         od_get (gates_config self1) k = od_get (gates_config self) k).
Proof.
  intros Hg Hty Hlit.
  destruct (assign_input_eq l v self gate lit Hg Hty Hlit)
    as (gc & s' & Hgc & Hcall & Hgates & Hin & Hout & Hus & Hcnf & Hcfg).
  exists gc, s'. split; [exact Hgc|]. split; [exact Hcall|].
  rewrite Hcnf, Hgates, Hcfg. cbn [add_clause _cnf _var_map].
  repeat split; try done.
  - apply od_get_set_eq.
  - intros k Hk. by apply od_get_set_ne.
  - apply od_get_set_eq.
  - intros k Hk. by apply od_get_set_ne.
Qed.

Lemma X14_assign_input_witness :
  ∃ self1,
    _assign_and_propagate "x" true (instance_of forced_circuit) = Ok (OK, self1)
    ∧ _cnf (cnf self1) = _cnf (cnf (instance_of forced_circuit)) ++ [[1]]
    ∧ inputs (circuit self1) = ["y"]%string.
Proof.
  destruct (X14_assign_input "x" true (instance_of forced_circuit)
              (mkGate "x" INPUT []) 1)
    as (gc & self1 & _ & Hcall & Hcnf & _ & _ & _ & Hin & _).
  - vm_compute. reflexivity.
  - reflexivity.
  - vm_compute. reflexivity.
  - exists self1. split; [exact Hcall|]. split; [exact Hcnf|].
    rewrite Hin. vm_compute. reflexivity.
Defined.





Section Negation.

Variables (self : CircuitSatInstance) (g a n : Label).
Variables (gate_g gate_n gate_a : Gate) (vg va vn : Lit).
Hypothesis Hg : od_get (gates (circuit self)) g = Some gate_g.
Hypothesis Hg_and : gate_type gate_g = AND.
Hypothesis Hn : od_get (gates (circuit self)) n = Some gate_n.
Hypothesis Hn_not : gate_type gate_n = NOT.
Hypothesis Hn_ops : operands gate_n = [a].
Hypothesis Ha : od_get (gates (circuit self)) a = Some gate_a.
Hypothesis Ha_input : gate_type gate_a = INPUT.
Hypothesis Hvg : config_idx self g = Ok vg.
Hypothesis Hva : config_idx self a = Ok va.
Hypothesis Hvn : config_idx self n = Ok vn.




End Negation.


(* ------------------------------------------------------------------ *)
(** ** Building an instance                                            *)
(* ------------------------------------------------------------------ *)

Lemma od_set_keys_new {V} (d : odict V) k v :
  od_get d k = None → od_set d k v = d ++ [(k, v)].
Proof.
  induction d as [|[k' v'] d IH]; cbn [od_get od_set]; [done|].
  case_decide; [done|]. intros Hd. by rewrite IH.
Qed.

Lemma od_get_snoc {V} (d : odict V) k v k' :
  od_get (d ++ [(k, v)]) k'
  = match od_get d k' with
    | Some v' => Some v'
    | None => if decide (k = k') then Some v else None
    end.
Proof. rewrite od_get_app. cbn [od_get]. done. Qed.

(** The loop of [__init__] appends one entry per label, in order. *)
Lemma populate_config_spec c f labels : ∀ acc gcs,
  NoDup labels →
  (∀ l, l ∈ labels → od_get acc l = None) →
  populate_config c f labels acc = Ok gcs →
  ∃ gs, Forall2 (fun l g => od_get (gates c) l = Some g) labels gs
        ∧ gcs = acc ++ zip_with
                  (fun l g => (l, mkGateConfig l (get_var f l)
                                    (bool_decide (gate_type g = INPUT)) None))
                  labels gs.
Proof.
  induction labels as [|l labels IH]; intros acc gcs Hnd Hfresh H;
    cbn [populate_config] in H.
  - injection H as <-. exists []. split; [constructor|]. by rewrite app_nil_r.
  - apply NoDup_cons in Hnd as [Hnotin Hnd]. res_inv H. rename a into g.
    unfold get_gate in Ha. destruct (od_get (gates c) l) as [g'|] eqn:Hg; [|done].
    injection Ha as ->.
    rewrite od_set_keys_new in H by (apply Hfresh; left).
    apply IH in H as (gs & Hgs & ->); [|done|].
    + exists (g :: gs). split; [by constructor|].
      cbn [zip_with]. by rewrite <- app_assoc.
    + intros l' Hl'. rewrite od_get_snoc. rewrite Hfresh by by right.
      rewrite decide_False; [done|]. intros ->. done.
Qed.

Lemma new_instance_spec (c : Circuit) (instance : CircuitSatInstance) :
  NoDup (od_keys (gates c)) →
  new_instance c = Ok instance →
  circuit instance = c
  ∧ tseytin_transformation c = Ok (cnf instance)
  ∧ _check_circuit c = Ok tt
  ∧ gates_config instance
    = map (fun kg : Label * Gate =>
             (kg.1, mkGateConfig kg.1 (_var_map (cnf instance) !! kg.1)
                      (bool_decide (gate_type kg.2 = INPUT)) None))
          (gates c).
Proof.
  intros Hnd H. unfold new_instance in H.
  res_inv H. destruct a. res_inv H. rename a into f. res_inv H. rename a into gcs.
  injection H as <-. cbn [circuit cnf gates_config].
  split; [done|]. split; [done|]. split; [done|].
  apply populate_config_spec in Ha1 as (gs & Hgs & ->); [|done|done].
  cbn [app]. unfold get_var. clear Ha Ha0. unfold od_keys in *.
  revert gs Hgs Hnd.
  assert (∀ (d0 d : odict Gate) gs,
            (∀ k g, (k, g) ∈ d → od_get d0 k = Some g) →
            Forall2 (fun l g => od_get d0 l = Some g) (map fst d) gs →
            zip_with (fun l g => (l, mkGateConfig l (_var_map f !! l)
                                       (bool_decide (gate_type g = INPUT)) None))
                     (map fst d) gs
            = map (fun kg : Label * Gate =>
                     (kg.1, mkGateConfig kg.1 (_var_map f !! kg.1)
                              (bool_decide (gate_type kg.2 = INPUT)) None)) d)
    as Hgen.
  { intros d0 d. induction d as [|[k g] d IH]; intros gs Hd Hgs.
    - inversion Hgs. done.
    - cbn [map fst] in Hgs. inversion Hgs as [|? g' ? gs' Hk Hrest]; subst.
      cbn [map zip_with fst snd]. rewrite (Hd k g) in Hk by left.
      injection Hk as <-. f_equal. apply IH; [|done].
      intros k' g' Hin. apply Hd. by right. }
  intros gs Hgs Hnd. apply (Hgen (gates c)); [|done].
  intros k g Hin. by apply od_get_elem_nodup.
Qed.

(** X16: what the constructor builds from a circuit with unique labels:
    the circuit itself, its Tseytin encoding, and one [GateConfig] per
    gate, in gate order, holding the label, the variable of the label in
    the encoding ([None] when the encoder did not reach it), whether the
    gate is an INPUT, and no value. *)
Theorem X16_constructor (c : Circuit) (instance : CircuitSatInstance) :
  NoDup (od_keys (gates c)) →
  new_instance c = Ok instance →
  circuit instance = c
  ∧ tseytin_transformation c = Ok (cnf instance)
  ∧ _check_circuit c = Ok tt
  ∧ gates_config instance
    = map (fun kg : Label * Gate =>
             (kg.1, mkGateConfig kg.1 (_var_map (cnf instance) !! kg.1)
                      (bool_decide (gate_type kg.2 = INPUT)) None))
          (gates c).
Proof. apply new_instance_spec. Qed.

Lemma X16_constructor_witness :
  ∃ instance,
    new_instance xor_circuit = Ok instance
    ∧ circuit instance = xor_circuit
    ∧ length (gates_config instance) = 9%nat.
Proof.
  destruct (new_instance xor_circuit) as [instance| |] eqn:E;
    [|vm_compute in E; discriminate..].
  exists instance. split; [reflexivity|].
  destruct (X16_constructor xor_circuit instance) as (Hc & _ & _ & Hcfg).
  - apply (bool_decide_eq_true_1 (NoDup (od_keys (gates xor_circuit)))).
    vm_compute. reflexivity.
  - exact E.
  - split; [exact Hc|]. rewrite Hcfg, length_map. vm_compute. reflexivity.
Defined.

(** X17: [from_circuit] asserts a single output before anything else;
    when it returns an instance, given that [top_sort] enumerates the
    gates and the circuit has unique labels with every gate under its
    own label, the instance satisfies the constructor's invariant again,
    its variable map is that of the Tseytin encoding of the circuit and
    its clauses are those of the encoding followed by unit clauses; when
    it returns nothing, seeding the output with true has conflicted. *)
Theorem X17_from_circuit (top_sort : Circuit → res (list Gate)) (c : Circuit) :
  enumerates top_sort →
  NoDup (od_keys (gates c)) →
  self_labelled c →
  (output_size c ≠ 1 → from_circuit top_sort c = Raise AssertionError)
  ∧ (∀ instance, from_circuit top_sort c = Ok (Some instance) →
       checked (circuit instance)
       ∧ ∃ f extra, tseytin_transformation c = Ok f
                    ∧ _var_map (cnf instance) = _var_map f
                    ∧ _cnf (cnf instance) = _cnf f ++ extra
                    ∧ od_keys (gates_config instance) = od_keys (gates c))
  ∧ (from_circuit top_sort c = Ok None →
       ∃ instance0 out b,
         new_instance c = Ok instance0 ∧ outputs c = [out]
         ∧ assign top_sort out true instance0 = Ok (CONFLICT, b)).
Proof.
  intros Henum Hnd Hsl. split; [|split].
  - intros Hout. unfold from_circuit.
    destruct (Z.eqb_spec (output_size c) 1); [done|]. done.
  - intros instance H. unfold from_circuit in H.
    destruct (negb _); [discriminate|]. res_inv H. rename a into i0.
    destruct (new_instance_spec c i0 Hnd Ha) as (Hc & Hts & Hck & Hcfg).
    res_inv H. rename a into out. res_inv H. destruct a as [st i1].
    case_decide as Hst; [|discriminate]. subst st. injection H as <-.
    assert (checked (circuit i0)) as Hck0 by (rewrite Hc; done).
    destruct (assign_checked top_sort Henum _ _ _ _ Hck0 Ha1) as [Hck1 _].
    split; [exact Hck1|].
    destruct (assign_kept _ _ _ _ _ _ Ha1) as (Hvm & Hidx & extra & Hcnf).
    exists (cnf i0), extra. split; [exact Hts|]. split; [exact Hvm|].
    split; [exact Hcnf|].
    assert (od_keys (gates_config i1) = od_keys (gates_config i0)) as ->.
    { unfold od_keys. unfold config_indices in Hidx.
      apply (f_equal (map fst)) in Hidx. rewrite !map_map in Hidx. exact Hidx. }
    rewrite Hcfg. unfold od_keys. by rewrite map_map.
  - intros H. unfold from_circuit in H.
    destruct (negb (output_size c =? 1)) eqn:Hsz; [discriminate|].
    res_inv H. rename a into i0. res_inv H. rename a into out.
    res_inv H. destruct a as [st i1].
    case_decide as Hst; [discriminate|].
    destruct (new_instance_spec c i0 Hnd Ha) as (Hc & _).
    exists i0, out, i1. split; [done|]. split.
    + rewrite Hc in Ha0. apply negb_false_iff, Z.eqb_eq in Hsz.
      unfold output_size in Hsz. unfold op_at in Ha0.
      destruct (outputs c) as [|o [|o' outs]]; simpl in *; try lia.
      by injection Ha0 as ->.
    + destruct st; [done | exact Ha1].
Qed.

Lemma forced_circuit_labelled :
  NoDup (od_keys (gates forced_circuit)) ∧ self_labelled forced_circuit.
Proof.
  split.
  - apply (bool_decide_eq_true_1 (NoDup (od_keys (gates forced_circuit)))).
    vm_compute. reflexivity.
  - intros k g Hin.
    assert (Forall (fun kg : Label * Gate => kg.1 = label kg.2)
                   (gates forced_circuit)) as Hall.
    { apply (bool_decide_eq_true_1
               (Forall (fun kg : Label * Gate => kg.1 = label kg.2)
                       (gates forced_circuit))).
      vm_compute. reflexivity. }
    rewrite Forall_forall in Hall. exact (Hall _ Hin).
Qed.

Lemma X17_from_circuit_witness :
  ∃ instance,
    from_circuit top_sort_insertion forced_circuit = Ok (Some instance)
    ∧ checked (circuit instance).
Proof.
  destruct (from_circuit top_sort_insertion forced_circuit)
    as [[instance|]| |] eqn:E; [|vm_compute in E; discriminate..].
  exists instance. split; [reflexivity|].
  destruct forced_circuit_labelled as [Hnd Hsl].
  destruct (X17_from_circuit top_sort_insertion forced_circuit
              top_sort_insertion_enumerates Hnd Hsl) as (_ & Hsome & _).
  exact (proj1 (Hsome instance E)).
Defined.
(* ------------------------------------------------------------------ *)
(** ** Writing DIMACS files                                            *)
(* ------------------------------------------------------------------ *)

Lemma fold_max_spec lits : ∀ m0 n,
  fold_left (fun m x => Z.max m (Z.abs x)) lits m0 = n →
  m0 ≤ n
  ∧ (∀ x, x ∈ lits → Z.abs x ≤ n)
  ∧ (n = m0 ∨ ∃ x, x ∈ lits ∧ Z.abs x = n).
Proof.
  induction lits as [|y lits IH]; intros m0 n Hn; cbn [fold_left] in Hn.
  - subst n. split; [lia|]. split; [|by left]. intros x Hx. inversion Hx.
  - destruct (IH _ _ Hn) as (Hle & Hall & Hmax).
    split; [lia|]. split.
    + intros x Hx. apply elem_of_cons in Hx as [-> | Hx]; [lia | by apply Hall].
    + destruct Hmax as [Heq | (x & Hx & Hx')].
      * destruct (Z.max_spec m0 (Z.abs y)) as [[_ Hm] | [_ Hm]]; rewrite Hm in Heq.
        -- right. exists y. split; [left | done].
        -- by left.
      * right. exists x. split; [by right | done].
Qed.

Lemma elem_of_concat {A} (x : A) (ls : list (list A)) :
  x ∈ concat ls ↔ ∃ l, l ∈ ls ∧ x ∈ l.
Proof.
  rewrite list_elem_of_In, in_concat. split; intros (l & Hl & Hx); exists l.
  - by rewrite !list_elem_of_In.
  - by rewrite <- !list_elem_of_In.
Qed.

Lemma max_abs_lit_spec clauses n :
  max_abs_lit clauses = Ok n →
  (∀ cl lit, cl ∈ clauses → lit ∈ cl → Z.abs lit ≤ n)
  ∧ (∃ cl lit, cl ∈ clauses ∧ lit ∈ cl ∧ Z.abs lit = n).
Proof.
  unfold max_abs_lit. destruct (concat clauses) as [|lit lits] eqn:E; [done|].
  intros [= Hn]. destruct (fold_max_spec lits (Z.abs lit) n Hn) as (Hle & Hall & Hmax).
  assert (∀ x, x ∈ lit :: lits → ∃ cl, cl ∈ clauses ∧ x ∈ cl) as Hin.
  { intros x Hx. rewrite <- E in Hx. by apply elem_of_concat. }
  split.
  - intros cl x Hcl Hx.
    assert (x ∈ lit :: lits) as Hx'.
    { rewrite <- E. apply elem_of_concat. by exists cl. }
    apply elem_of_cons in Hx' as [-> | Hx']; [done | by apply Hall].
  - destruct Hmax as [Heq | (x & Hx & Hxn)].
    + destruct (Hin lit) as (cl & Hcl & Hl); [left|]. by exists cl, lit.
    + destruct (Hin x) as (cl & Hcl & Hl); [by right|]. by exists cl, x.
Qed.

(** X18: [write_dimacs] raises [ValueError], before opening the file,
    exactly when the clause list holds no literal at all (no clause, or
    only empty clauses).  Otherwise it writes the header and one line per
    clause, and the variable count of the header is the largest absolute
    value among the literals. *)
Theorem X18_write_dimacs (clauses : CnfRaw) :
  (write_dimacs clauses = Raise ValueError ↔ Forall (fun cl => cl = []) clauses)
  ∧ (∀ lines, write_dimacs clauses = Ok lines →
       ∃ n, lines = dimacs_header n (length clauses) :: map dimacs_clause clauses
            ∧ length lines = S (length clauses)
            ∧ (∀ cl lit, cl ∈ clauses → lit ∈ cl → Z.abs lit ≤ n)
            ∧ (∃ cl lit, cl ∈ clauses ∧ lit ∈ cl ∧ Z.abs lit = n)).
Proof.
  split.
  - unfold write_dimacs, max_abs_lit.
    assert (concat clauses = [] ↔ Forall (fun cl => cl = []) clauses) as Hc.
    { induction clauses as [|cl clauses IH]; cbn [concat].
      - split; [constructor | done].
      - rewrite Forall_cons, <- IH. split.
        + intros H. by apply app_eq_nil in H.
        + intros [-> ->]. done. }
    rewrite <- Hc. destruct (concat clauses); cbn [mbind res_bind]; split; done.
  - intros lines H. unfold write_dimacs in H. res_inv H. injection H as <-.
    exists a. split; [done|]. split; [by cbn; rewrite length_map|].
    by apply max_abs_lit_spec.
Qed.

(** *** The cubes can be written *)

Lemma encode_outputs_unit c fuel outs : ∀ s s',
  outs ≠ [] → encode_outputs fuel c outs s = Ok s' →
  ∃ pre lit, ts_cnf s' = pre ++ [[lit]].
Proof.
  induction outs as [|r outs IH]; intros s s' Hne H; [done|].
  cbn [encode_outputs] in H. res_inv H. destruct a as [out_lit s1].
  destruct outs as [|r' outs].
  - cbn [encode_outputs] in H. injection H as <-.
    exists (ts_cnf s1), out_lit. done.
  - by eapply IH.
Qed.

Section CubesWritten.

Variable top_sort : Circuit → res (list Gate).
Variable max_depth : Z.
Variable candidates_limit : Z.

Lemma cube_rec_kept fuel : ∀ instance depth cubes,
  cube_rec top_sort max_depth candidates_limit fuel instance depth = Ok cubes →
  Forall (numbering_kept instance) cubes.
Proof.
  induction fuel as [|fuel IH]; intros instance depth cubes H; [discriminate|].
  cbn [cube_rec] in H.
  assert (Forall (numbering_kept instance) [instance]) as Hleaf.
  { constructor; [apply numbering_kept_refl | constructor]. }
  destruct (_should_stop max_depth instance depth); [by injection H as <-|].
  res_inv H. destruct a as [sel|]; [|by injection H as <-].
  assert (∀ v st i1 r,
            assign top_sort (sel_label sel) v instance = Ok (st, i1) →
            cube_rec top_sort max_depth candidates_limit fuel i1 (depth + 1) = Ok r →
            Forall (numbering_kept instance) r) as Hbranch.
  { intros v st i1 r Hassign Hr. apply assign_kept in Hassign.
    eapply Forall_impl; [exact (IH _ _ _ Hr)|].
    intros cube Hk. by eapply numbering_kept_trans. }
  destruct (forced_value sel) as [fv|].
  - res_inv H. destruct a as [st i1]. eapply Hbranch; [exact Ha0 | exact H].
  - res_inv H. destruct a as [st0 i0]. res_inv H. rename a into r0.
    res_inv H. destruct a as [st1 i1]. res_inv H. rename a into r1.
    injection H as <-. apply Forall_app. split.
    + eapply (Hbranch false); [exact Ha0 | exact Ha1].
    + eapply (Hbranch true); [exact Ha2 | exact Ha3].
Qed.

End CubesWritten.

(** X19: every cube of an instance that [from_circuit] returned can be
    written: its clause list holds a literal, so [write_dimacs] does not
    raise on it. *)
Theorem X19_cubes_have_literals (top_sort : Circuit → res (list Gate))
    (max_depth candidates_limit : Z) (c : Circuit)
    (instance : CircuitSatInstance) (depth : Z)
    (cubes : list CircuitSatInstance) :
  from_circuit top_sort c = Ok (Some instance) →
  _cube top_sort max_depth candidates_limit instance depth = Ok cubes →
  Forall (fun cube => ∃ lines, write_dimacs (get_raw (cnf cube)) = Ok lines) cubes.
Proof.
  intros Hfrom Hcube.
  assert (∃ pre lit extra, _cnf (cnf instance) = pre ++ [[lit]] ++ extra)
    as (pre & lit & extra & Hcnf).
  { unfold from_circuit in Hfrom.
    destruct (negb (output_size c =? 1)) eqn:Hsz; [discriminate|].
    apply res_bind_ok in Hfrom as (i0 & Hnew & Hfrom).
    apply res_bind_ok in Hfrom as (out & Hout & Hfrom).
    apply res_bind_ok in Hfrom as ([st i1] & Hassign & Hfrom).
    case_decide; [|discriminate]. injection Hfrom as <-.
    apply assign_kept in Hassign as (_ & _ & extra & Hextra).
    unfold new_instance in Hnew.
    apply res_bind_ok in Hnew as (u & _ & Hnew).
    apply res_bind_ok in Hnew as (f & Hts & Hnew).
    apply res_bind_ok in Hnew as (gcs & _ & Hnew).
    injection Hnew as <-.
    cbn [cnf circuit] in *. unfold tseytin_transformation in Hts.
    apply res_bind_ok in Hts as (s & Henc & Hts). injection Hts as <-.
    cbn [_cnf] in Hextra.
    apply encode_outputs_unit in Henc as (pre & lit & Hpre).
    - exists pre, lit, extra. rewrite Hextra, Hpre. by rewrite <- app_assoc.
    - apply negb_false_iff, Z.eqb_eq in Hsz. unfold output_size in Hsz.
      destruct (outputs c); [simpl in Hsz; lia | done]. }
  apply cube_rec_kept in Hcube. eapply Forall_impl; [exact Hcube|].
  intros cube (_ & _ & extra' & Hcube'). unfold get_raw.
  unfold write_dimacs, max_abs_lit. rewrite Hcube', Hcnf.
  rewrite !concat_app. cbn [concat app].
  destruct (concat pre); cbn [app mbind res_bind]; eauto.
Qed.

Lemma X19_cubes_have_literals_witness :
  ∃ instance cubes,
    from_circuit top_sort_insertion forced_circuit = Ok (Some instance)
    ∧ _cube top_sort_insertion 2 10 instance 0 = Ok cubes
    ∧ Forall (fun cube => ∃ lines, write_dimacs (get_raw (cnf cube)) = Ok lines)
             cubes.
Proof.
  destruct (from_circuit top_sort_insertion forced_circuit)
    as [[instance|]| |] eqn:E; [|vm_compute in E; discriminate..].
  destruct (_cube top_sort_insertion 2 10 instance 0) as [cubes| |] eqn:E2.
  - exists instance, cubes. split; [reflexivity|]. split; [exact E2|].
    exact (X19_cubes_have_literals top_sort_insertion 2 10 forced_circuit
             instance 0 cubes E E2).
  - exfalso. vm_compute in E. injection E as <-. vm_compute in E2. discriminate.
  - exfalso. vm_compute in E. injection E as <-. vm_compute in E2. discriminate.
Defined.
(* ------------------------------------------------------------------ *)
(** ** Binary numbers of the AIGER reader                              *)
(* ------------------------------------------------------------------ *)

Lemma byte_val_range b : 0 ≤ byte_val b < 256.
Proof.
  unfold byte_val. pose proof (Byte.to_N_bounded b). lia.
Qed.

Lemma low_bits_range x : 0 ≤ x → 0 ≤ Z.land x 127 < 128.
Proof.
  intros Hx. change 127 with (Z.ones 7). rewrite Z.land_ones by lia.
  apply Z.mod_pos_bound. lia.
Qed.

(** Below [2 ^ s] and shifted by [s]: the bits do not overlap, so
    [|] adds. *)
Lemma lor_shiftl_add r x s :
  0 ≤ s → 0 ≤ r < 2 ^ s → 0 ≤ x →
  Z.lor r (Z.shiftl x s) = r + x * 2 ^ s.
Proof.
  intros Hs Hr Hx.
  assert (Z.land r (Z.shiftl x s) = 0) as Hdisj.
  { apply Z.bits_inj'. intros n Hn. rewrite Z.land_spec, Z.bits_0.
    destruct (Z.lt_ge_cases n s) as [Hlt | Hge].
    - rewrite Z.shiftl_spec_low by done. apply andb_false_r.
    - assert (Z.testbit r n = false) as ->; [|done].
      destruct (Z.eq_dec r 0) as [-> | Hr0]; [apply Z.bits_0|].
      apply Z.bits_above_log2; [lia|].
      apply Z.log2_lt_pow2; [lia|].
      apply Z.lt_le_trans with (2 ^ s); [lia|].
      apply Z.pow_le_mono_r; lia. }
  rewrite <- Z.lxor_lor by done.
  rewrite <- Z.add_nocarry_lxor by done.
  by rewrite Z.shiftl_mul_pow2.
Qed.

Lemma decode_from_spec cs : ∀ b rest r s,
  Forall continuation cs → ¬ continuation b →
  0 ≤ s → 0 ≤ r < 2 ^ s →
  decode_from (cs ++ b :: rest) r s
  = inr (r + 2 ^ s * base128 (cs ++ [b]), rest).
Proof.
  induction cs as [|c cs IH]; intros b rest r s Hcs Hb Hs Hr.
  - cbn [app decode_from base128].
    pose proof (low_bits_range (byte_val b) (proj1 (byte_val_range b))) as Hlow.
    rewrite lor_shiftl_add by lia.
    unfold continuation in Hb.
    destruct (Z.eqb_spec (Z.land (byte_val b) 128) 0); [|done].
    do 2 f_equal. lia.
  - cbn [app decode_from base128].
    apply Forall_cons in Hcs as [Hc Hcs].
    pose proof (low_bits_range (byte_val c) (proj1 (byte_val_range c))) as Hlow.
    rewrite lor_shiftl_add by lia.
    unfold continuation in Hc.
    destruct (Z.eqb_spec (Z.land (byte_val c) 128) 0); [done|].
    rewrite IH; [|done|done|lia|].
    + do 2 f_equal. rewrite Z.pow_add_r by lia. change (2 ^ 7) with 128.
      cbn [app]. lia.
    + rewrite Z.pow_add_r by lia. change (2 ^ 7) with 128. nia.
Qed.

Lemma decode_from_eof stream : ∀ r s,
  Forall continuation stream →
  decode_from stream r s = inl (ParseError "Unexpected EOF decoding number").
Proof.
  induction stream as [|c stream IH]; intros r s Hall; cbn [decode_from]; [done|].
  apply Forall_cons in Hall as [Hc Hall]. unfold continuation in Hc.
  destruct (Z.eqb_spec (Z.land (byte_val c) 128) 0); [done|]. by apply IH.
Qed.

Lemma continuation_split stream :
  Forall continuation stream
  ∨ ∃ cs b rest, stream = cs ++ b :: rest
                 ∧ Forall continuation cs ∧ ¬ continuation b.
Proof.
  induction stream as [|c stream IH]; [left; constructor|].
  destruct (Z.eq_dec (Z.land (byte_val c) 128) 0) as [Hc | Hc].
  - right. exists [], c, stream. split; [done|]. split; [constructor|].
    unfold continuation. by intros H.
  - destruct IH as [Hall | (cs & b & rest & -> & Hcs & Hb)].
    + left. by constructor.
    + right. exists (c :: cs), b, rest. split; [done|]. split; [by constructor | done].
Qed.

(** X20: [_decode_binary_number] reads bytes up to and including the
    first one whose high bit is clear and returns the number that their
    low seven bits spell in base 128, least significant first, leaving
    the rest of the stream unread; a stream that ends before such a byte
    is an [AIGParseError].  Every stream is one of the two. *)
Theorem X20_decode_binary_number (stream : list Byte.byte) :
  (Forall continuation stream →
   _decode_binary_number stream
   = inl (ParseError "Unexpected EOF decoding number"))
  ∧ (∀ cs b rest,
       stream = cs ++ b :: rest → Forall continuation cs → ¬ continuation b →
       _decode_binary_number stream = inr (base128 (cs ++ [b]), rest)
       ∧ 0 ≤ base128 (cs ++ [b]) < 128 ^ Z.of_nat (S (length cs)))
  ∧ (Forall continuation stream
     ∨ ∃ cs b rest, stream = cs ++ b :: rest
                    ∧ Forall continuation cs ∧ ¬ continuation b).
Proof.
  split; [|split].
  - intros Hall. by apply decode_from_eof.
  - intros cs b rest -> Hcs Hb. split.
    + unfold _decode_binary_number. rewrite decode_from_spec by (done || lia).
      do 2 f_equal. lia.
    + clear. induction cs as [|c cs IH]; cbn [app base128 length].
      * pose proof (low_bits_range (byte_val b) (proj1 (byte_val_range b))). lia.
      * pose proof (low_bits_range (byte_val c) (proj1 (byte_val_range c))).
        rewrite Nat2Z.inj_succ, Z.pow_succ_r by lia. lia.
  - apply continuation_split.
Qed.

(** The two bytes [0x90 0x01] spell 16 + 128 = 144. *)
Example decode_two_bytes :
  _decode_binary_number [Byte.x90; Byte.x01; Byte.x07] = inr (144, [Byte.x07]).
Proof. vm_compute. reflexivity. Qed.
(* ------------------------------------------------------------------ *)
(** ** Where the simplifier can raise [ValueError]                     *)
(* ------------------------------------------------------------------ *)

Lemma bind_not_raise {A B} e (m : res A) (f : A → res B) :
  m ≠ Raise e → (∀ a, m = Ok a → f a ≠ Raise e) → m ≫= f ≠ Raise e.
Proof.
  destruct m as [a| |]; cbn [mbind res_bind]; intros Hm Hf;
    [by apply Hf | congruence | discriminate].
Qed.

Ltac no_raise_step :=
  match goal with
  | |- Ok _ ≠ Raise _ => discriminate
  | |- Raise _ ≠ Raise _ => discriminate
  | |- Diverge ≠ Raise _ => discriminate
  | |- (if ?b then _ else _) ≠ Raise _ => destruct b
  | |- (match ?x with _ => _ end) ≠ Raise _ => destruct x
  | |- (_ ≫= _) ≠ Raise _ => apply bind_not_raise; [|intros ? _]
  end.

Lemma emplace_gate_no_value_error c l t ops :
  emplace_gate c l t ops ≠ Raise ValueError.
Proof. unfold emplace_gate. repeat no_raise_step. Qed.

Lemma op_at_no_value_error ops i : op_at ops i ≠ Raise ValueError.
Proof. unfold op_at. repeat no_raise_step. Qed.

Lemma const_lookup_no_value_error cm op : const_lookup cm op ≠ Raise ValueError.
Proof. unfold const_lookup. repeat no_raise_step. Qed.

Lemma operator_no_value_error t args : operator t args ≠ Raise ValueError.
Proof. unfold operator. repeat no_raise_step. Qed.

Lemma mapM_const_no_value_error cm ops :
  mapM (M := res) (const_lookup cm) ops ≠ Raise ValueError.
Proof.
  induction ops as [|op ops IH]; simpl; [discriminate|].
  apply bind_not_raise; [apply const_lookup_no_value_error|]. intros b _.
  apply bind_not_raise; [exact IH|]. intros. discriminate.
Qed.

Lemma transform_gate_no_value_error g st :
  transform_gate g st ≠ Raise ValueError.
Proof.
  unfold transform_gate.
  destruct (gate_type g);
    repeat first
      [ apply emplace_gate_no_value_error | apply op_at_no_value_error
      | apply operator_no_value_error | apply const_lookup_no_value_error
      | apply mapM_const_no_value_error
      | no_raise_step ].
Qed.

Lemma transform_loop_no_value_error order : ∀ st,
  transform_loop order st ≠ Raise ValueError.
Proof.
  induction order as [|g order IH]; intros st; simpl; [discriminate|].
  apply bind_not_raise; [apply transform_gate_no_value_error | intros; apply IH].
Qed.

Lemma transform_with_no_value_error order c :
  transform_with order c ≠ Raise ValueError.
Proof.
  unfold transform_with.
  apply bind_not_raise; [apply transform_loop_no_value_error|].
  intros st _. unfold set_inputs, set_outputs. repeat no_raise_step.
Qed.

Lemma forallb_false_Exists {A} (p : A → bool) (l : list A) :
  forallb p l = false ↔ Exists (fun x => p x = false) l.
Proof.
  induction l as [|x l IH]; cbn [forallb].
  - split; [discriminate | by inversion 1].
  - rewrite andb_false_iff, IH, Exists_cons. done.
Qed.

(** X21: the simplifier raises [ValueError] exactly when some gate has
    more than two operands, provided the [top_sort] of the circuit
    library does not raise it; the screen runs before anything else, and
    nothing after it can raise that exception. *)
Theorem X21_transform_value_error (top_sort : Circuit → res (list Gate))
    (c : Circuit) :
  (∀ c, top_sort c ≠ Raise ValueError) →
  _transform top_sort c = Raise ValueError
  ↔ Exists (fun g => (2 < length (operands g))%nat) (od_values (gates c)).
Proof.
  intros Hts. unfold _transform, check_arities.
  destruct (forallb _ (od_values (gates c))) eqn:Hall; cbn [mbind res_bind].
  - split.
    + intros H. exfalso. revert H. apply bind_not_raise; [apply Hts|].
      intros order _. apply transform_with_no_value_error.
    + intros Hex. exfalso. apply Exists_exists in Hex as (g & Hg & Hlen).
      rewrite forallb_forall in Hall.
      specialize (Hall g (proj1 (list_elem_of_In _ _) Hg)).
      apply Nat.leb_le in Hall. lia.
  - split; [|done]. intros _.
    apply forallb_false_Exists in Hall. eapply Exists_impl; [exact Hall|].
    intros g Hg. cbv beta in Hg. apply Nat.leb_gt in Hg. lia.
Qed.

Lemma X21_transform_value_error_witness :
  _transform top_sort_insertion
    {| gates := [("g", mkGate "g" AND ["a"; "b"; "c"])];
       inputs := []; outputs := []; users := ∅ |}
  = Raise ValueError.
Proof.
  apply (X21_transform_value_error top_sort_insertion).
  - intros c. discriminate.
  - apply Exists_cons. left. simpl. lia.
Defined.

(* ------------------------------------------------------------------ *)
(** ** The conquer loop of the external script                         *)
(* ------------------------------------------------------------------ *)

(** X22: the loop of the external script runs the solver on the cubes
    in order and stops at the first one reported SAT: the statuses it
    prints are those of the cubes up to and including that one, whatever
    follows; without such a cube it prints the status of every cube. *)
Theorem X22_external_loop_stops (solver : CnfRaw → ProcessOutcome)
    (cubes : list CircuitSatInstance) :
  let status := fun i : CircuitSatInstance =>
    status_str (run_external_solver (solver (get_raw (cnf i)))) in
  (∀ pre i post,
     cubes = pre ++ i :: post →
     Forall (fun j => ¬ cube_sat solver j) pre → cube_sat solver i →
     printed_statuses solver cubes = map status pre ++ ["SAT"%string])
  ∧ (Forall (fun j => ¬ cube_sat solver j) cubes →
     printed_statuses solver cubes = map status cubes)
  ∧ (length (printed_statuses solver cubes) ≤ length cubes)%nat.
Proof.
  intros status. split; [|split].
  - intros pre i post -> Hpre Hi. induction Hpre as [|j pre Hj Hpre IH].
    + cbn [app printed_statuses map]. unfold cube_sat in Hi. rewrite Hi.
      rewrite bool_decide_eq_true_2 by done. done.
    + cbn [app printed_statuses map]. unfold cube_sat in Hj.
      rewrite bool_decide_eq_false_2 by done. by rewrite IH.
  - intros Hall. induction Hall as [|j cubes Hj Hall IH]; [done|].
    cbn [printed_statuses map]. unfold cube_sat in Hj.
    rewrite bool_decide_eq_false_2 by done. by rewrite IH.
  - induction cubes as [|j cubes IH]; [done|].
    cbn [printed_statuses length]. case_bool_decide; simpl; lia.
Qed.
